(** * Infracost: the [run] command, the Elastic IP resource and the
      price-resolution / cost-computation engine

    A shallow embedding of
    - [cmd/infracost/run.go]  ([runMain], [loadRunFlags], [unwrapped]),
    - the AWS Elastic IP resource ([EIP.BuildResource]),
    together with the two engine components whose code lives in other
    packages ([prices], [schema]) and is modelled from the specification.

    Go packages become modules of the same name, so that [errors.Unwrap],
    [schema.Resource] or [aws.BuildResource] read as they do in the source. *)

From Stdlib Require Import ZArith QArith Qpower Qround Qabs Lia Ascii.
From stdpp Require Import base option strings list gmap.

Local Open Scope Z_scope.
Local Open Scope string_scope.
Local Open Scope list_scope.

(** ** Package [decimal] (github.com/shopspring/decimal)

    A decimal is [value * 10 ^ exp] with an arbitrary-precision integer
    coefficient.  Only the operations the embedded code uses are given. *)
Module decimal.

Record Decimal : Type := mk { value : Z; exp : Z }.

#[export] Instance Decimal_eq_dec : EqDecision Decimal.
Proof. solve_decision. Defined.

(** [decimal.NewFromInt(v)]: coefficient [v], exponent [0]. *)
Definition NewFromInt (v : Z) : Decimal := mk v 0.

(** [d.Mul(d2)]: coefficients multiply, exponents add; no rounding.  The
    exponent is an integer without bound here; the library keeps it in 32
    bits. *)
Definition Mul (d d2 : Decimal) : Decimal :=
  mk (value d * value d2) (exp d + exp d2).

(** The rational number a decimal denotes. *)
Definition toQ (d : Decimal) : Q := (inject_Z (value d) * Qpower 10 (exp d))%Q.

(** [d.Equal(d2)]: numeric equality, after rescaling both operands to the
    smaller exponent. *)
Definition rescale (d : Decimal) (e : Z) : Z := value d * 10 ^ (exp d - e).

Definition Equal (d d2 : Decimal) : bool :=
  let e := Z.min (exp d) (exp d2) in
  bool_decide (rescale d e = rescale d2 e).

(** [d.DivRound(d2, precision)]: the quotient rounded half away from zero
    to [precision] digits after the decimal point. *)
Definition DivRound (d d2 : Decimal) (precision : Z) : Decimal :=
  let x := (toQ d / toQ d2 * Qpower 10 precision)%Q in
  let m := Qfloor (Qabs x + (1 # 2))%Q in
  mk (Z.sgn (Qnum x) * m) (- precision).

End decimal.

(** ** Package [schema]: the cost model

    Modelled from the spec: the type declarations of package [schema] are
    not among the sources.  The fields are those [EIP.BuildResource]
    writes, together with the resolved and computed state that section 3
    gives a cost component, and the root of the tree, the project. *)
Module schema.
Import decimal.

Record AttributeFilter : Type := mkAttributeFilter {
  Key : string;
  Value : option string;
  ValueRegex : option string
}.

Record ProductFilter : Type := mkProductFilter {
  VendorName : option string;
  Service : option string;
  ProductFamily : option string;
  Region : option string;
  AttributeFilters : list AttributeFilter
}.

Record PriceFilter : Type := mkPriceFilter {
  PurchaseOption : option string;
  StartUsageAmount : option string;
  TermLength : option string
}.

#[export] Instance AttributeFilter_eq_dec : EqDecision AttributeFilter.
Proof. solve_decision. Defined.
#[export] Instance ProductFilter_eq_dec : EqDecision ProductFilter.
Proof. solve_decision. Defined.
#[export] Instance PriceFilter_eq_dec : EqDecision PriceFilter.
Proof. solve_decision. Defined.

(** Why a component has no unit price. *)
Inductive Reason : Type :=
| NoMatch
| CatalogUnavailable.

#[export] Instance Reason_eq_dec : EqDecision Reason.
Proof. solve_decision. Defined.

(** Resolved state of a cost component: not looked up yet, a unit price,
    or the explicit unresolved marker with its reason. *)
Inductive PriceState : Type :=
| Pending
| Resolved (p : Decimal)
| Unresolved (r : Reason).

#[export] Instance PriceState_eq_dec : EqDecision PriceState.
Proof. solve_decision. Defined.

(** Computed state of a cost component. *)
Inductive Cost : Type :=
| NotComputed
| CostOf (d : Decimal)
| NoUsageData
| CostUnresolved.

Record CostComponent : Type := mkCostComponent {
  Name : string;
  Unit : string;
  UnitMultiplier : Decimal;
  HourlyQuantity : option Decimal;
  MonthlyQuantity : option Decimal;
  ProductFilter_ : option ProductFilter;
  PriceFilter_ : option PriceFilter;
  price : PriceState;
  HourlyCost : Cost;
  MonthlyCost : Cost
}.

Record UsageItem : Type := mkUsageItem { UsageKey : string }.

(** A resource is a tree: it owns cost components and sub-resources. *)
#[local] Set Warnings "-register-all".
Inductive Resource : Type := mkResource {
  ResName : string;
  CostComponents : list CostComponent;
  SubResources : list Resource;
  NoPrice : bool;
  IsSkipped : bool;
  UsageSchema : list UsageItem
}.

(** [schema.UsageData] and [schema.Project], as far as [runMain] sees
    them: a project is the root of the resource trees. *)
Record UsageData : Type := mkUsageData {
  UsageAddress : string;
  Attributes : gmap string string
}.

Record Project : Type := mkProject {
  ProjectName : string;
  Resources : list Resource
}.

(** The data-model invariant on a resource: unless it is intentionally
    priceless, it has a cost component or is marked skipped. *)
Definition priced_or_skipped (r : Resource) : Prop :=
  NoPrice r = false → CostComponents r ≠ [] ∨ IsSkipped r = true.

End schema.

(** ** Package [aws]: the Elastic IP resource *)
Module aws.
Import decimal schema.

Record EIP : Type := mkEIP {
  Address : string;
  Region : string;
  CustomerOwnedIPv4Pool : string;
  Instance_ : string;
  NetworkInterface : string
}.

Definition EIPUsageSchema : list UsageItem := [].

Definition strPtr (s : string) : option string := Some s.
Definition decimalPtr (d : Decimal) : option Decimal := Some d.

(** Go's [s != ""]. *)
Definition nonempty (s : string) : bool := bool_decide (s ≠ "").

Definition BuildResource (r : EIP) : Resource :=
  if nonempty (CustomerOwnedIPv4Pool r) || nonempty (Instance_ r)
     || nonempty (NetworkInterface r)
  then
    {| ResName := Address r;
       CostComponents := [];
       SubResources := [];
       NoPrice := true;
       IsSkipped := true;
       UsageSchema := EIPUsageSchema |}
  else
    {| ResName := Address r;
       CostComponents := [
         {| Name := "IP address (if unused)";
            Unit := "hours";
            UnitMultiplier := NewFromInt 1;
            HourlyQuantity := decimalPtr (NewFromInt 1);
            MonthlyQuantity := None;
            ProductFilter_ := Some
              {| VendorName := strPtr "aws";
                 schema.Region := strPtr (Region r);
                 Service := strPtr "AmazonEC2";
                 ProductFamily := strPtr "IP Address";
                 AttributeFilters := [
                   {| Key := "usagetype";
                      Value := None;
                      ValueRegex := strPtr "/ElasticIP:IdleAddress/" |} ] |};
            PriceFilter_ := Some
              {| PurchaseOption := None;
                 StartUsageAmount := strPtr "1";
                 TermLength := None |};
            price := Pending;
            HourlyCost := NotComputed;
            MonthlyCost := NotComputed |} ];
       SubResources := [];
       NoPrice := false;
       IsSkipped := false;
       UsageSchema := EIPUsageSchema |}.

End aws.

(** ** Package [errors] (github.com/pkg/errors over the standard library)

    A Go [error] is an interface value; the ones that travel through
    [runMain] are pointers to error objects, compared by identity.  An
    error is modelled as a reference into a heap of error objects, and
    Go's [nil] as [None] at type [option error].  Because an object's
    cause is again a reference, a heap can hold a cyclic chain of causes,
    exactly as pointers can in Go. *)
Module errors.

Abbreviation error := nat (only parsing).

(** The dynamic types the code distinguishes. *)
Inductive dynType : Type :=
| fundamental          (* errors.New *)
| withMessage          (* inner layer of errors.Wrap *)
| withStack            (* outer layer of errors.Wrap *)
| PricingAPIError      (* *prices.PricingAPIError *)
| otherType.

#[export] Instance dynType_eq_dec : EqDecision dynType.
Proof. solve_decision. Defined.

Record object : Type := mkObject {
  dyn : dynType;
  text : string;            (* what the Error() method returns *)
  cause : option error;     (* what the Unwrap() method returns; None
                               also when the type has no such method *)
  accepts : list error      (* targets for which the object's own
                               Is(target) method answers true *)
}.

Abbreviation heap := (list object) (only parsing).

(** [errors.Unwrap(err)]: [nil] for [nil]. *)
Definition Unwrap (h : heap) (err : option error) : option error :=
  e ← err; o ← h !! e; cause o.

(** [err.Error()]. *)
Definition Error (h : heap) (e : error) : string :=
  match h !! e with Some o => text o | None => "" end.

Definition typeOf (h : heap) (e : error) : dynType :=
  match h !! e with Some o => dyn o | None => otherType end.

Definition IsMethod (h : heap) (e target : error) : bool :=
  match h !! e with
  | Some o => bool_decide (target ∈ accepts o)
  | None => false
  end.

(** [errors.New(message)] allocates a fresh object. *)
Definition New (h : heap) (message : string) : heap * error :=
  (h ++ [mkObject fundamental message None []], length h).

(** [errors.Wrap(err, message)]: [nil] for [nil]; otherwise a [withStack]
    around a [withMessage] around [err]. *)
Definition Wrap (h : heap) (err : option error) (message : string)
  : heap * option error :=
  match err with
  | None => (h, None)
  | Some e =>
      let m := message +:+ ": " +:+ Error h e in
      (h ++ [mkObject withMessage m (Some e) [];
             mkObject withStack m (Some (length h)) []],
       Some (S (length h)))
  end.

(** [errors.Is(err, target)] for a non-nil comparable [target]: walk the
    chain of causes of [err] until an error equal to [target], or one
    whose [Is] method accepts it, is found.  The walk is a loop; [fuel]
    bounds the number of further [Unwrap] steps, and [None] means the
    bound was reached.  A [nil] error matches nothing. *)
Fixpoint Is_loop (fuel : nat) (h : heap) (err target : error) : option bool :=
  if bool_decide (err = target) then Some true
  else if IsMethod h err target then Some true
  else match Unwrap h (Some err) with
       | None => Some false
       | Some err' =>
           match fuel with
           | O => None
           | S fuel' => Is_loop fuel' h err' target
           end
       end.

Definition Is (fuel : nat) (h : heap) (err : option error) (target : error)
  : option bool :=
  match err with
  | None => Some false
  | Some e => Is_loop fuel h e target
  end.

(** The error reached from [e] by [n] applications of [errors.Unwrap]. *)
Fixpoint unwrap_n (h : heap) (n : nat) (e : option error) : option error :=
  match n with
  | O => e
  | S k => unwrap_n h k (Unwrap h e)
  end.

(** The chain of causes of [e] is finite (hence acyclic): [nil] is
    reached after finitely many steps. *)
Definition finite_chain (h : heap) (e : error) : Prop :=
  ∃ n, unwrap_n h n (Some e) = None.

(** [r] is a deepest error of the chain of [e]: reachable by repeated
    [Unwrap], and with no cause of its own. *)
Definition root_cause (h : heap) (e r : error) : Prop :=
  (∃ n, unwrap_n h n (Some e) = Some r) ∧ Unwrap h (Some r) = None.

(** A heap without dangling references: every error, and every cause, is
    an object of the heap.  Go's pointers always are. *)
Definition closed (h : heap) : Prop :=
  ∀ i o e, h !! i = Some o → cause o = Some e → (e < length h)%nat.

End errors.


(** ** Package [config] *)
Module config.

Record TerraformProject : Type := mkTerraformProject {
  Path : string;
  UseState : bool;
  PlanFlags : string;
  UsageFile : string
}.

Record Output : Type := mkOutput {
  Format : string;
  ShowSkipped : bool;
  OutputPath : string          (* the [Path] field of [config.Output] *)
}.

Record Projects : Type := mkProjects {
  Terraform : list TerraformProject
}.

(** [config.Environment]: the one field [runMain] writes, and the rest
    as a table of named values. *)
Record Environment : Type := mkEnvironment {
  HasUsageFile : bool;
  fields : gmap string string
}.

Record Config : Type := mkConfig {
  cfgProjects : Projects;
  Outputs : list Output;
  NoColor : bool;
  LogLevel : string;
  cfgEnvironment : Environment
}.

Definition withEnvironment (c : Config) (e : Environment) : Config :=
  mkConfig (cfgProjects c) (Outputs c) (NoColor c) (LogLevel c) e.

Definition withProjects (c : Config) (p : Projects) : Config :=
  mkConfig p (Outputs c) (NoColor c) (LogLevel c) (cfgEnvironment c).

Definition withOutputs (c : Config) (o : list Output) : Config :=
  mkConfig (cfgProjects c) o (NoColor c) (LogLevel c) (cfgEnvironment c).

Definition withHasUsageFile (e : Environment) (b : bool) : Environment :=
  mkEnvironment b (fields e).

End config.

(** ** Package [strings] *)
Module strings_.

(** [strings.ToLower], on the ASCII letters: a string is a string of
    bytes, and a byte that is not one of A-Z is left as it is.  Go maps
    by code point, so also the upper-case letters beyond ASCII; the
    format names [runMain] tells apart are ASCII. *)
Definition lower_ascii (c : ascii) : ascii :=
  let n := nat_of_ascii c in
  if (Nat.leb 65 n && Nat.leb n 90)%bool then ascii_of_nat (n + 32) else c.

Fixpoint ToLower (s : string) : string :=
  match s with
  | EmptyString => EmptyString
  | String c s' => String (lower_ascii c) (ToLower s')
  end.

End strings_.

(** ** Package [main]: [cmd/infracost/run.go] *)
Module main.
Import errors config schema.

Definition nl : string := String (ascii_of_nat 10) EmptyString.

(** [ui.SpinnerOptions], [output.Options]. *)
Record SpinnerOptions : Type := mkSpinnerOptions {
  EnableLogging : bool;
  SpinnerNoColor : bool
}.

Record Options : Type := mkOptions {
  OptShowSkipped : bool;
  OptNoColor : bool
}.

(** [providers.Provider]: the two methods [runMain] calls. *)
Record Provider : Type := mkProvider {
  Type_ : string;
  LoadResources : gmap string UsageData → Project * option error
}.

(** Everything [run.go] calls in other packages.  The functions are the
    environment of a run; their results are whatever the file system, the
    Terraform binary and the pricing service answer. *)
Record World : Type := mkWorld {
  Root : Type;                                  (* output.Root *)
  SetTerraformEnvironment : Environment → TerraformProject → Environment;
  SetOutputEnvironment : Environment → Output → Environment;
  IsLogging : Config → bool;
  Detect : Config → TerraformProject → option Provider;
  usage_LoadFromFile : string → gmap string UsageData * option error;
  PopulatePrices : Config → Project → Project * option error;
  CalculateCosts : Project → Project;
  CalculateDiff : Project → Project;
  ToOutputFormat : list Project → Root;
  ToJSON : Root → Options → string * option error;
  ToHTML : Root → Options → string * option error;
  ToDiff : Root → Options → string * option error;
  ToTableDeprecated : Root → Options → string * option error;
  ToTable : Root → Options → string * option error;
  WriteFile : string → string → option error;   (* ioutil.WriteFile *)
  PrimaryString : string → string;              (* ui.PrimaryString *)
  CredentialsFilePath : string;                 (* config.CredentialsFilePath() *)
  ErrInvalidAPIKey : error;                     (* prices.ErrInvalidAPIKey *)
  cfg_LoadFromFile : Config → string → Config * option error;
  cfg_LoadFromEnv : Config → Config * option error
}.

(** What a run does that can be observed from outside, in order.  [i] is
    the position of a project in [cfg.Projects.Terraform] (and in
    [projects]), [j] the position of an output in [cfg.Outputs]; [err]
    is the error the call returned, [None] for nil. *)
Inductive event : Type :=
| EvSetTerraformEnvironment (i : nat)
| EvDetect (i : nat) (found : bool)
| EvLogInfo (m : string)
| EvStderr (m : string)
| EvLoadFromFile (i : nat) (err : option error)
| EvLoadResources (i : nat) (err : option error)
| EvNewSpinner (msg : string) (opts : SpinnerOptions)
| EvSpinnerFail
| EvSpinnerSuccess
| EvPopulatePrices (i : nat) (err : option error)
| EvCalculateCosts (i : nat)
| EvCalculateDiff (i : nat)
| EvToOutputFormat
| EvSetOutputEnvironment (j : nat)
| EvRender (j : nat) (format : string) (err : option error)
| EvWriteFile (path : string) (data : string) (err : option error)
| EvStdout (s : string).

#[export] Instance SpinnerOptions_eq_dec : EqDecision SpinnerOptions.
Proof. solve_decision. Defined.
#[export] Instance event_eq_dec : EqDecision event.
Proof. solve_decision. Defined.

(** A call that returned an error (or a detection that found nothing). *)
Definition failed (ev : event) : bool :=
  match ev with
  | EvDetect _ false => true
  | EvLoadFromFile _ (Some _) | EvLoadResources _ (Some _)
  | EvPopulatePrices _ (Some _) | EvRender _ _ (Some _)
  | EvWriteFile _ _ (Some _) => true
  | _ => false
  end.

(** The diagnostics: log and stderr lines and the spinner. *)
Definition diagnostic (ev : event) : bool :=
  match ev with
  | EvLogInfo _ | EvStderr _ | EvNewSpinner _ _ | EvSpinnerFail
  | EvSpinnerSuccess => true
  | _ => false
  end.

(** A pipeline stage at work: every event but the diagnostics. *)
Definition is_stage (ev : event) : bool := negb (diagnostic ev).

(** A stage working on one project. *)
Definition project_stage (ev : event) : bool :=
  match ev with
  | EvSetTerraformEnvironment _ | EvDetect _ _ | EvLoadFromFile _ _
  | EvLoadResources _ _ | EvPopulatePrices _ _ | EvCalculateCosts _
  | EvCalculateDiff _ => true
  | _ => false
  end.

(** Output: the conversion, the renderers, and what reaches a file or
    the standard output. *)
Definition is_output (ev : event) : bool :=
  match ev with
  | EvToOutputFormat | EvSetOutputEnvironment _ | EvRender _ _ _
  | EvWriteFile _ _ _ | EvStdout _ => true
  | _ => false
  end.

(** In the trace [tr], every occurrence of [b] comes after an occurrence
    of [a]. *)
Definition precedes (a b : event) (tr : list event) : Prop :=
  ∀ j, tr !! j = Some b → ∃ k, (k < j)%nat ∧ tr !! k = Some a.

(** In the trace [tr], nothing but diagnostics follows a failed call. *)
Definition quiet_after_failure (tr : list event) : Prop :=
  ∀ j k ev ev', tr !! j = Some ev → failed ev = true → (j < k)%nat →
                tr !! k = Some ev' → is_stage ev' = false.

(** The events of the three loops of [runMain]; [lo] and [hi] bound the
    positions of the projects concerned. *)
Definition load_ev (lo hi : nat) (ev : event) : Prop :=
  match ev with
  | EvSetTerraformEnvironment k | EvDetect k _ | EvLoadFromFile k _
  | EvLoadResources k _ => (lo ≤ k < hi)%nat
  | EvLogInfo _ | EvStderr _ => True
  | _ => False
  end.

Definition price_ev (lo hi : nat) (ev : event) : Prop :=
  match ev with
  | EvPopulatePrices k _ | EvCalculateCosts k | EvCalculateDiff k =>
      (lo ≤ k < hi)%nat
  | EvSpinnerFail | EvStderr _ => True
  | _ => False
  end.

Definition out_ev (ev : event) : Prop :=
  match ev with
  | EvSetOutputEnvironment _ | EvRender _ _ _ | EvWriteFile _ _ _
  | EvStdout _ => True
  | _ => False
  end.

(** [s] occurs in [t]. *)
Definition substring (s t : string) : Prop :=
  ∃ pre post, t = pre +:+ s +:+ post.

(** The mutable state a run threads through: the configuration behind
    the [cfg] pointer and the heap of error objects. *)
Record state : Type := mkState { cfg : Config; hp : heap }.

(** How a call ends: it returns ([nil] or an error), or its loop is still
    running when the fuel is spent. *)
Inductive outcome : Type :=
| Returned (err : option error)
| OutOfFuel.

(** *** [unwrapped] *)
Fixpoint unwrapped (fuel : nat) (h : heap) (err : option error)
  : option (option error) :=
  let e := err in
  match Unwrap h e with
  | None => Some e
  | Some e' =>
      match fuel with
      | O => None
      | S fuel' => unwrapped fuel' h (Some e')
      end
  end.

Section Run.
Variable W : World.

(** *** [runMain], first loop: one iteration *)
Definition loadProject (i : nat) (projectCfg : TerraformProject) (st : state)
  : list event * state * (error + Project) :=
  let cfg1 := withEnvironment (cfg st)
                (SetTerraformEnvironment W (cfgEnvironment (cfg st)) projectCfg) in
  match Detect W cfg1 projectCfg with
  | None =>
      let '(h', e) := New (hp st) "Could not detect path type" in
      ([EvSetTerraformEnvironment i; EvDetect i false], mkState cfg1 h', inl e)
  | Some provider =>
      let m := "Detected " +:+ Type_ provider +:+ " at " +:+ Path projectCfg in
      let say := if IsLogging W cfg1 then EvLogInfo m else EvStderr (m +:+ nl) in
      let t := [EvSetTerraformEnvironment i; EvDetect i true; say] in
      match usage_LoadFromFile W (UsageFile projectCfg) with
      | (_, Some err) =>
          (t ++ [EvLoadFromFile i (Some err)], mkState cfg1 (hp st), inl err)
      | (u, None) =>
          let cfg2 :=
            if bool_decide (0 < size u)%nat
            then withEnvironment cfg1 (withHasUsageFile (cfgEnvironment cfg1) true)
            else cfg1 in
          match LoadResources provider u with
          | (_, Some err) =>
              (t ++ [EvLoadFromFile i None; EvLoadResources i (Some err)],
               mkState cfg2 (hp st), inl err)
          | (project, None) =>
              (t ++ [EvLoadFromFile i None; EvLoadResources i None],
               mkState cfg2 (hp st), inr project)
          end
      end
  end.

(** The first loop, from position [i] on; the projects loaded are
    returned in the order of [append]. *)
Fixpoint loadProjects (i : nat) (cfgs : list TerraformProject) (st : state)
  : list event * state * (error + list Project) :=
  match cfgs with
  | [] => ([], st, inr [])
  | projectCfg :: rest =>
      match loadProject i projectCfg st with
      | (t, st1, inl err) => (t, st1, inl err)
      | (t, st1, inr project) =>
          match loadProjects (S i) rest st1 with
          | (t', st2, inl err) => (t ++ t', st2, inl err)
          | (t', st2, inr projects) => (t ++ t', st2, inr (project :: projects))
          end
      end
  end.

Definition invalidKeyMessage (eText : string) : string :=
  eText +:+ nl +:+
  "Please check your" +:+ " " +:+
  PrimaryString W (CredentialsFilePath W) +:+ " " +:+
  "file or" +:+ " " +:+
  PrimaryString W "INFRACOST_API_KEY" +:+ " " +:+
  "environment variable." +:+ nl +:+
  "If you continue having issues please email hello@infracost.io".

Definition notifiedMessage (eText : string) : string :=
  eText +:+ nl +:+ "We have been notified of this issue.".

(** What the second loop does once [prices.PopulatePrices] has returned
    the non-nil error [err]. *)
Definition priceFailure (fuel : nat) (err : error) (st : state)
  : state * outcome :=
  match unwrapped fuel (hp st) (Some err) with
  | None => (st, OutOfFuel)
  | Some e =>
      match Is fuel (hp st) e (ErrInvalidAPIKey W) with
      | None => (st, OutOfFuel)
      | Some true =>
          let eText := match e with Some e' => Error (hp st) e' | None => "" end in
          let '(h', r) := New (hp st) (invalidKeyMessage eText) in
          (mkState (cfg st) h', Returned (Some r))
      | Some false =>
          if bool_decide (typeOf (hp st) err = PricingAPIError) then
            let '(h', r) := New (hp st) (notifiedMessage (Error (hp st) err)) in
            (mkState (cfg st) h', Returned (Some r))
          else (st, Returned (Some err))
      end
  end.

(** The error [runMain] returns for the error [err] of
    [prices.PopulatePrices], given the root cause of [err]. *)
Definition surfaced (st : state) (err root : error) : state * outcome :=
  if bool_decide (root = ErrInvalidAPIKey W)
     || IsMethod (hp st) root (ErrInvalidAPIKey W)
  then
    let '(h', r) := New (hp st) (invalidKeyMessage (Error (hp st) root)) in
    (mkState (cfg st) h', Returned (Some r))
  else if bool_decide (typeOf (hp st) err = PricingAPIError) then
    let '(h', r) := New (hp st) (notifiedMessage (Error (hp st) err)) in
    (mkState (cfg st) h', Returned (Some r))
  else (st, Returned (Some err)).

(** *** [runMain], second loop: one iteration *)
Definition priceProject (fuel : nat) (i : nat) (project : Project) (st : state)
  : list event * state * (outcome + Project) :=
  match PopulatePrices W (cfg st) project with
  | (_, Some err) =>
      let '(st', r) := priceFailure fuel err st in
      ([EvPopulatePrices i (Some err); EvSpinnerFail; EvStderr nl], st', inl r)
  | (project1, None) =>
      ([EvPopulatePrices i None; EvCalculateCosts i; EvCalculateDiff i],
       st, inr (CalculateDiff W (CalculateCosts W project1)))
  end.

Fixpoint priceProjects (fuel : nat) (i : nat) (projects : list Project) (st : state)
  : list event * state * (outcome + list Project) :=
  match projects with
  | [] => ([], st, inr [])
  | project :: rest =>
      match priceProject fuel i project st with
      | (t, st1, inl r) => (t, st1, inl r)
      | (t, st1, inr project') =>
          match priceProjects fuel (S i) rest st1 with
          | (t', st2, inl r) => (t ++ t', st2, inl r)
          | (t', st2, inr projects') => (t ++ t', st2, inr (project' :: projects'))
          end
      end
  end.

(** *** [runMain], third loop: one iteration *)
Definition render (r : Root W) (opts : Options) (format : string)
  : string * option error :=
  let f := strings_.ToLower format in
  if bool_decide (f = "json") then
    let '(b, err) := ToJSON W r opts in (b, err)
  else if bool_decide (f = "html") then
    let '(b, err) := ToHTML W r opts in (b, err)
  else if bool_decide (f = "diff") then
    let '(b, err) := ToDiff W r opts in (nl +:+ b, err)
  else if bool_decide (f = "table_deprecated") then
    let '(b, err) := ToTableDeprecated W r opts in (nl +:+ b, err)
  else
    let '(b, err) := ToTable W r opts in (nl +:+ b, err).

(** [Some err]: the iteration returned [err] from [runMain]. *)
Definition writeOutput (r : Root W) (j : nat) (outputCfg : Output) (st : state)
  : list event * state * option error :=
  let cfg1 := withEnvironment (cfg st)
                (SetOutputEnvironment W (cfgEnvironment (cfg st)) outputCfg) in
  let opts := mkOptions (ShowSkipped outputCfg) (NoColor cfg1) in
  let '(out, err) := render r opts (Format outputCfg) in
  match err with
  | Some _ =>
      let '(h', w) := Wrap (hp st) err "Error generating output" in
      ([EvSetOutputEnvironment j; EvRender j (Format outputCfg) err],
       mkState cfg1 h', w)
  | None =>
      let t := [EvSetOutputEnvironment j; EvRender j (Format outputCfg) None] in
      if bool_decide (OutputPath outputCfg ≠ "") then
        match WriteFile W (OutputPath outputCfg) out with
        | Some err =>
            let '(h', w) := Wrap (hp st) (Some err) "Error saving output" in
            (t ++ [EvWriteFile (OutputPath outputCfg) out (Some err)],
             mkState cfg1 h', w)
        | None =>
            (t ++ [EvWriteFile (OutputPath outputCfg) out None],
             mkState cfg1 (hp st), None)
        end
      else (t ++ [EvStdout (out +:+ nl)], mkState cfg1 (hp st), None)
  end.

Fixpoint writeOutputs (r : Root W) (j : nat) (outputs : list Output) (st : state)
  : list event * state * option error :=
  match outputs with
  | [] => ([], st, None)
  | outputCfg :: rest =>
      match writeOutput r j outputCfg st with
      | (t, st1, Some err) => (t, st1, Some err)
      | (t, st1, None) =>
          let '(t', st2, res) := writeOutputs r (S j) rest st1 in
          (t ++ t', st2, res)
      end
  end.

(** *** [runMain] *)
Definition runMain (fuel : nat) (st : state) : list event * state * outcome :=
  match loadProjects 0 (Terraform (cfgProjects (cfg st))) st with
  | (t1, st1, inl err) => (t1, st1, Returned (Some err))
  | (t1, st1, inr projects) =>
      let spinnerOpts :=
        mkSpinnerOptions (IsLogging W (cfg st1)) (NoColor (cfg st1)) in
      let spin := [EvNewSpinner "Calculating cost estimate" spinnerOpts] in
      match priceProjects fuel 0 projects st1 with
      | (t2, st2, inl res) => (t1 ++ spin ++ t2, st2, res)
      | (t2, st2, inr projects') =>
          let r := ToOutputFormat W projects' in
          let '(t3, st3, res) := writeOutputs r 0 (Outputs (cfg st2)) st2 in
          (t1 ++ spin ++ t2 ++ [EvSpinnerSuccess; EvToOutputFormat] ++ t3,
           st3, Returned res)
      end
  end.

(** The trace of a run. *)
Definition trace_of (fuel : nat) (st : state) : list event :=
  (runMain fuel st).1.1.

(** The shape of a run: the loop it ended in, and the trace that loop
    leaves behind the earlier ones. *)
Definition spinnerStart (st1 : state) : list event :=
  [EvNewSpinner "Calculating cost estimate"
     (mkSpinnerOptions (IsLogging W (cfg st1)) (NoColor (cfg st1)))].

Inductive run_shape (fuel : nat) (st : state)
  : list event → state → outcome → Prop :=
| run_load_failed t1 st1 e :
    loadProjects 0 (Terraform (cfgProjects (cfg st))) st = (t1, st1, inl e) →
    run_shape fuel st t1 st1 (Returned (Some e))
| run_price_failed t1 st1 ps t2 st2 o :
    loadProjects 0 (Terraform (cfgProjects (cfg st))) st = (t1, st1, inr ps) →
    priceProjects fuel 0 ps st1 = (t2, st2, inl o) →
    run_shape fuel st (t1 ++ spinnerStart st1 ++ t2) st2 o
| run_to_output t1 st1 ps t2 st2 ps' t3 st3 res :
    loadProjects 0 (Terraform (cfgProjects (cfg st))) st = (t1, st1, inr ps) →
    priceProjects fuel 0 ps st1 = (t2, st2, inr ps') →
    writeOutputs (ToOutputFormat W ps') 0 (Outputs (cfg st2)) st2 = (t3, st3, res) →
    run_shape fuel st
      (t1 ++ spinnerStart st1 ++ t2 ++ [EvSpinnerSuccess; EvToOutputFormat] ++ t3)
      st3 (Returned res).

(** *** [addRunInputFlags], [addRunOutputFlags]: the flags declared, each
    with its name, default value and help text. *)
Record flagDecl : Type := mkFlagDecl {
  flagName : string;
  flagDefault : string;
  flagUsage : string
}.

Definition addRunInputFlags : list flagDecl :=
  [ mkFlagDecl "path" "" "Path to the code directory or file";
    mkFlagDecl "config-file" ""
      "Path to the Infracost config file. Cannot be used with other flags";
    mkFlagDecl "usage-file" ""
      "Path to Infracost usage file that specifies values for usage-based resources";
    mkFlagDecl "terraform-plan-flags" ""
      "Flags to pass to the 'terraform plan' command" ].

Definition addRunOutputFlags : list flagDecl :=
  [ mkFlagDecl "show-skipped" "false"
      "Show unsupported resources, some of which might be free. Ignored for JSON outputs" ].

(** *** [loadRunFlags]

    [cmd.Flags()] is a table of flags; a lookup of a flag that is not
    defined, or has another type, gives the zero value (the error that
    [GetString] and [GetBool] return is dropped by the code). *)
Inductive flagValue : Type :=
| StringFlag (v : string)
| BoolFlag (b : bool).

Record flag : Type := mkFlag { fvalue : flagValue; changed : bool }.

Definition Changed (fs : gmap string flag) (name : string) : bool :=
  match fs !! name with Some f => changed f | None => false end.

Definition GetString (fs : gmap string flag) (name : string) : string :=
  match fs !! name with
  | Some (mkFlag (StringFlag v) _) => v
  | _ => ""
  end.

Definition GetBool (fs : gmap string flag) (name : string) : bool :=
  match fs !! name with
  | Some (mkFlag (BoolFlag b) _) => b
  | _ => false
  end.

(** [ui.PrintUsageErrorAndExit], taken at its name (its code is in package
    [ui]): it prints the message and ends the process.  Otherwise the
    function returns with the configuration it has built. *)
Inductive flagsOutcome : Type :=
| UsageErrorExit (msg : string)
| FlagsReturned (c : Config) (err : option error).

(** The writes through [projectCfg] and [outputCfg], which point at the
    first (and only) element of the list they were put into -- as long as
    [cfg.LoadFromEnv] leaves the two objects where they are: were it to
    replace [cfg.Projects] or [cfg.Outputs], the writes would go to
    objects the configuration no longer holds. *)
Definition setFirst {A} (f : A → A) (l : list A) : list A :=
  match l with
  | [] => []
  | x :: l' => f x :: l'
  end.

Definition loadRunFlags (c : Config) (cmd : gmap string flag) : flagsOutcome :=
  let hasConfigFile := Changed cmd "config-file" in
  let hasProjectFlags :=
    Changed cmd "path" || Changed cmd "terraform-plan-flags"
    || Changed cmd "usage-file" in
  let hasOutputFlags := Changed cmd "format" || Changed cmd "show-skipped" in
  if hasConfigFile && hasProjectFlags then
    UsageErrorExit
      "--config-file flag cannot be used with other project and output flags"
  else
    match (if hasConfigFile
           then cfg_LoadFromFile W c (GetString cmd "config-file")
           else (c, None)) with
    | (c1, Some err) => FlagsReturned c1 (Some err)
    | (c1, None) =>
        let c2 :=
          if hasProjectFlags
          then withProjects c1 (mkProjects [mkTerraformProject "" false "" ""])
          else c1 in
        let c3 :=
          if hasOutputFlags then withOutputs c2 [mkOutput "" false ""] else c2 in
        match (if hasProjectFlags || hasOutputFlags
               then cfg_LoadFromEnv W c3 else (c3, None)) with
        | (c4, Some err) => FlagsReturned c4 (Some err)
        | (c4, None) =>
            let c5 :=
              if hasProjectFlags then
                withProjects c4 (mkProjects (setFirst
                  (λ _, mkTerraformProject
                          (GetString cmd "path")
                          (GetBool cmd "terraform-use-state")
                          (GetString cmd "terraform-plan-flags")
                          (GetString cmd "usage-file"))
                  (Terraform (cfgProjects c4))))
              else c4 in
            let c6 :=
              if hasOutputFlags then
                withOutputs c5 (setFirst
                  (λ o, mkOutput (GetString cmd "format")
                                 (GetBool cmd "show-skipped")
                                 (OutputPath o))
                  (Outputs c5))
              else c5 in
            FlagsReturned c6 None
        end
    end.

(** The calls a run makes, without their results: per project, per
    output, and the ones made once. *)
Inductive call : Type :=
| CallSetTerraformEnvironment (i : nat)
| CallDetect (i : nat)
| CallLoadFromFile (i : nat)
| CallLoadResources (i : nat)
| CallPopulatePrices (i : nat)
| CallCalculateCosts (i : nat)
| CallCalculateDiff (i : nat)
| CallNewSpinner
| CallSpinnerFail
| CallSpinnerSuccess
| CallToOutputFormat
| CallSetOutputEnvironment (j : nat)
| CallRender (j : nat).

#[export] Instance call_eq_dec : EqDecision call.
Proof. solve_decision. Defined.

(** The call behind an event; log lines, file writes and prints are not
    tied to a position and have none. *)
Definition call_of (ev : event) : option call :=
  match ev with
  | EvSetTerraformEnvironment i => Some (CallSetTerraformEnvironment i)
  | EvDetect i _ => Some (CallDetect i)
  | EvLoadFromFile i _ => Some (CallLoadFromFile i)
  | EvLoadResources i _ => Some (CallLoadResources i)
  | EvPopulatePrices i _ => Some (CallPopulatePrices i)
  | EvCalculateCosts i => Some (CallCalculateCosts i)
  | EvCalculateDiff i => Some (CallCalculateDiff i)
  | EvNewSpinner _ _ => Some CallNewSpinner
  | EvSpinnerFail => Some CallSpinnerFail
  | EvSpinnerSuccess => Some CallSpinnerSuccess
  | EvToOutputFormat => Some CallToOutputFormat
  | EvSetOutputEnvironment j => Some (CallSetOutputEnvironment j)
  | EvRender j _ _ => Some (CallRender j)
  | EvLogInfo _ | EvStderr _ | EvWriteFile _ _ _ | EvStdout _ => None
  end.

(** The calls of each loop, from position [lo] on. *)
Definition load_call (lo : nat) (c : call) : Prop :=
  match c with
  | CallSetTerraformEnvironment k | CallDetect k | CallLoadFromFile k
  | CallLoadResources k => (lo ≤ k)%nat
  | _ => False
  end.

Definition price_call (lo : nat) (c : call) : Prop :=
  match c with
  | CallPopulatePrices k | CallCalculateCosts k | CallCalculateDiff k =>
      (lo ≤ k)%nat
  | CallSpinnerFail => True
  | _ => False
  end.

Definition out_call (lo : nat) (c : call) : Prop :=
  match c with
  | CallSetOutputEnvironment k | CallRender k => (lo ≤ k)%nat
  | _ => False
  end.

(** The part of [runMain] a call belongs to, in the order of the code. *)
Definition phase (c : call) : nat :=
  match c with
  | CallSetTerraformEnvironment _ | CallDetect _ | CallLoadFromFile _
  | CallLoadResources _ => 0
  | CallNewSpinner => 1
  | CallPopulatePrices _ | CallCalculateCosts _ | CallCalculateDiff _
  | CallSpinnerFail => 2
  | CallSpinnerSuccess => 3
  | CallToOutputFormat => 4
  | CallSetOutputEnvironment _ | CallRender _ => 5
  end.

(** The message of the error for a path no provider recognises. *)
Definition detectMessage : string := "Could not detect path type".

(** *** [addDeprecatedRunFlags]: the flags kept for old command lines;
    each one is marked hidden. *)
Definition addDeprecatedRunFlags : list flagDecl :=
  [ mkFlagDecl "tfjson" "" "Path to Terraform plan JSON file";
    mkFlagDecl "tfplan" ""
      "Path to Terraform plan file relative to 'terraform-dir'";
    mkFlagDecl "tfflags" "" "Flags to pass to the 'terraform plan' command";
    mkFlagDecl "tfdir" ""
      "Path to the Terraform code directory. Defaults to current working directory";
    mkFlagDecl "use-tfstate" "false"
      "Use Terraform state instead of generating a plan";
    mkFlagDecl "output" "table" "Output format: json, table, html";
    mkFlagDecl "pricing-api-endpoint" ""
      "Specify an alternate Cloud Pricing API URL";
    mkFlagDecl "terraform-json-file" "" "Path to Terraform plan JSON file";
    mkFlagDecl "terraform-plan-file" ""
      "Path to Terraform plan file relative to 'terraform-dir'";
    mkFlagDecl "terraform-dir" ""
      "Path to the Terraform code directory. Defaults to current working directory" ].

(** *** [checkRunConfig]

    The loop leaves at the first output that asks for JSON together with
    the skipped resources; what [ui.PrintWarning] prints is returned as
    the list of warnings, beside the error (always nil). *)
Definition skippedWarning : string :=
  "The show skipped option is not needed with JSON output as that always includes them.".

Fixpoint checkOutputs (outputs : list Output) : list string :=
  match outputs with
  | [] => []
  | output :: rest =>
      if bool_decide (Format output = "json") && ShowSkipped output
      then [skippedWarning]
      else checkOutputs rest
  end.

Definition checkRunConfig (c : Config) : list string * option error :=
  (checkOutputs (Outputs c), None).

End Run.
End main.

(** ** The Cost Calculator *)
Module calculator.
Import decimal schema.

Definition HOURS_PER_MONTH : Decimal := NewFromInt 730.

(** Digits kept after the decimal point by a division. *)
Definition DivisionPrecision : Z := 16.

Definition Zero : Decimal := NewFromInt 0.

(** [d.Add(d2)]: exact, at the smaller exponent. *)
Definition Add (d d2 : Decimal) : Decimal :=
  let e := Z.min (exp d) (exp d2) in
  mk (rescale d e + rescale d2 e) e.

Inductive CalcError : Type :=
| InternalInvariantViolation (component : string).

Definition withCosts (c : CostComponent) (h m : Cost) : CostComponent :=
  mkCostComponent (Name c) (Unit c) (UnitMultiplier c) (HourlyQuantity c)
    (MonthlyQuantity c) (ProductFilter_ c) (PriceFilter_ c) (price c) h m.

(** Modelled from the spec: the Cost Calculator ([schema.CalculateCosts],
    which [runMain] calls) is not among the sources; this is section 4.2.
    With the hourly quantity set, the hourly cost is
    price * unit multiplier * hourly quantity and the monthly cost is the
    hourly cost * HOURS_PER_MONTH; with the monthly quantity set, the
    monthly cost is price * unit multiplier * monthly quantity and the
    hourly cost is the monthly cost / HOURS_PER_MONTH; with neither, both
    costs are the "no usage data" state; with an unresolved price, both are
    the "unresolved" state; with both quantities set the component violates
    the data model, which is an internal invariant violation. *)
Definition CalculateComponent (c : CostComponent) : CalcError + CostComponent :=
  match HourlyQuantity c, MonthlyQuantity c with
  | Some _, Some _ => inl (InternalInvariantViolation (Name c))
  | None, None => inr (withCosts c NoUsageData NoUsageData)
  | Some q, None =>
      match price c with
      | Resolved p =>
          let h := Mul (Mul p (UnitMultiplier c)) q in
          inr (withCosts c (CostOf h) (CostOf (Mul h HOURS_PER_MONTH)))
      | _ => inr (withCosts c CostUnresolved CostUnresolved)
      end
  | None, Some q =>
      match price c with
      | Resolved p =>
          let m := Mul (Mul p (UnitMultiplier c)) q in
          inr (withCosts c
                 (CostOf (DivRound m HOURS_PER_MONTH DivisionPrecision))
                 (CostOf m))
      | _ => inr (withCosts c CostUnresolved CostUnresolved)
      end
  end.

(** Apply a fallible function along a list, stopping at the first error. *)
Definition mapE {E A B : Type} (f : A → E + B) : list A → E + list B :=
  fix go (l : list A) : E + list B :=
    match l with
    | [] => inr []
    | x :: l' =>
        match f x with
        | inl e => inl e
        | inr y => match go l' with
                   | inl e => inl e
                   | inr ys => inr (y :: ys)
                   end
        end
    end.

(** Modelled from the spec: the calculator on a resource tree (section
    4.2), every cost component of the resource and of its sub-resources. *)
Fixpoint CalculateResource (r : Resource) : CalcError + Resource :=
  match r with
  | mkResource name ccs subs noPrice skipped usage =>
      match mapE CalculateComponent ccs with
      | inl e => inl e
      | inr ccs' =>
          match mapE CalculateResource subs with
          | inl e => inl e
          | inr subs' => inr (mkResource name ccs' subs' noPrice skipped usage)
          end
      end
  end.

(** Modelled from the spec: [Calculate(project)] of section 4.2. *)
Definition Calculate (p : Project) : CalcError + Project :=
  match mapE CalculateResource (Resources p) with
  | inl e => inl e
  | inr rs => inr (mkProject (ProjectName p) rs)
  end.

(** What a cost adds to a sum: unresolved and no-usage costs add nothing. *)
Definition contribution (c : Cost) : Decimal :=
  match c with CostOf d => d | _ => Zero end.

Definition sum (l : list Decimal) : Decimal := foldr Add Zero l.

(** Modelled from the spec: the aggregate monthly cost of a resource, the
    sum over its cost components and, recursively, its sub-resources. *)
Fixpoint ResourceMonthlyCost (r : Resource) : Decimal :=
  match r with
  | mkResource _ ccs subs _ _ _ =>
      Add (sum (map (λ c, contribution (MonthlyCost c)) ccs))
          (sum (map ResourceMonthlyCost subs))
  end.

(** Modelled from the spec: the aggregate monthly cost of a project, over
    the resources that are neither skipped nor priceless. *)
Definition ProjectMonthlyCost (p : Project) : Decimal :=
  sum (map ResourceMonthlyCost
         (filter (λ r, IsSkipped r = false ∧ NoPrice r = false) (Resources p))).

End calculator.

(** ** The Price Resolver *)
Module prices.
Import decimal schema.

(** The Filter Key of a cost component: its pair of filters, compared
    structurally. *)
Abbreviation FilterKey := (option ProductFilter * option PriceFilter)%type.

Definition filterKey (c : CostComponent) : FilterKey :=
  (ProductFilter_ c, PriceFilter_ c).

(** A price row of the catalog: the unit price, its currency, and the
    attributes a price filter selects on. *)
Record PriceRow : Type := mkPriceRow {
  unitPrice : Decimal;
  currency : string;
  rowPurchaseOption : option string;
  rowStartUsageAmount : option string;
  rowTermLength : option string
}.

(** The answer to one batched query: per key of the batch its matching
    rows (none for "no match"), or a failure of the whole batch. *)
Inductive Response : Type :=
| Rows (answers : list (list PriceRow))
| InvalidCredentialResponse
| TransientFailure.

(** The catalog, as the resolver meets it: the answer may depend on the
    batch and on which network call of the resolution it is (the catalog
    may fail at one attempt and answer at the next). *)
Abbreviation Catalog := (nat → list FilterKey → Response).

Inductive ResolveError : Type :=
| InvalidCredential.

Record Params : Type := mkParams {
  maxBatch : nat;        (* maximum number of keys in a batch *)
  maxAttempts : nat      (* attempt ceiling for a batch *)
}.

(** A component whose price is still to be resolved. *)
Definition needsPrice (c : CostComponent) : bool :=
  match price c with Resolved _ => false | _ => true end.

Definition withPrice (c : CostComponent) (s : PriceState) : CostComponent :=
  mkCostComponent (Name c) (Unit c) (UnitMultiplier c) (HourlyQuantity c)
    (MonthlyQuantity c) (ProductFilter_ c) (PriceFilter_ c) s
    (HourlyCost c) (MonthlyCost c).

(** Step 1: the walk over the resource tree, sub-resources included. *)
Fixpoint resourceComponents (r : Resource) : list CostComponent :=
  match r with
  | mkResource _ ccs subs _ _ _ => ccs ++ mjoin (resourceComponents <$> subs)
  end.

Definition allComponents (p : Project) : list CostComponent :=
  mjoin (resourceComponents <$> Resources p).

(** The write to every cost component of the tree, in place. *)
Fixpoint mapResource (f : CostComponent → CostComponent) (r : Resource) : Resource :=
  match r with
  | mkResource name ccs subs noPrice skipped usage =>
      mkResource name (f <$> ccs) (mapResource f <$> subs) noPrice skipped usage
  end.

Definition mapProject (f : CostComponent → CostComponent) (p : Project) : Project :=
  mkProject (ProjectName p) (mapResource f <$> Resources p).


(** Step 3: consecutive batches of at most [size] keys ([cur] is the batch
    being filled, in reverse, and [room] the room left in it). *)
Fixpoint chunk_go {A : Type} (size room : nat) (cur : list A) (l : list A)
  : list (list A) :=
  match l with
  | [] => match cur with [] => [] | _ => [reverse cur] end
  | x :: l' =>
      match room with
      | O | 1%nat => reverse (x :: cur) :: chunk_go size size [] l'
      | S room' => chunk_go size room' (x :: cur) l'
      end
  end.

Definition chunks {A : Type} (size : nat) (l : list A) : list (list A) :=
  chunk_go size size [] l.

(** Step 6: the tie-break among the rows of one key.  Rows that meet the
    explicit constraints of the price filter come first; of the
    candidates the first one is taken, and the flag records that it was
    not the only one. *)
Definition meets (want have : option string) : bool :=
  match want with
  | None => true
  | Some w => bool_decide (have = Some w)
  end.

Definition rowMatches (pf : option PriceFilter) (row : PriceRow) : bool :=
  match pf with
  | None => true
  | Some f =>
      meets (PurchaseOption f) (rowPurchaseOption row)
      && meets (StartUsageAmount f) (rowStartUsageAmount row)
      && meets (TermLength f) (rowTermLength row)
  end.

Definition selectRow (k : FilterKey) (rows : list PriceRow) : PriceState * bool :=
  let narrowed := filter (λ row, rowMatches k.2 row = true) rows in
  let candidates := match narrowed with [] => rows | _ => narrowed end in
  match candidates with
  | [] => (Unresolved NoMatch, false)
  | [row] => (Resolved (unitPrice row), false)
  | row :: _ => (Resolved (unitPrice row), true)
  end.

(** How the lookup of one batch ends. *)
Inductive Fetched : Type :=
| Answered (answers : list (list PriceRow))
| AuthFailed
| Exhausted.

(** Step 4, one batch: up to [attempts] network calls, a transient failure
    being retried.  [n] numbers the calls; the log lists each call made,
    with the keys it carried. *)
Fixpoint fetch (cat : Catalog) (attempts : nat) (n : nat) (batch : list FilterKey)
  : Fetched * nat * list (nat * list FilterKey) :=
  match attempts with
  | O => (Exhausted, n, [])
  | S attempts' =>
      match cat n batch with
      | Rows answers => (Answered answers, S n, [(n, batch)])
      | InvalidCredentialResponse => (AuthFailed, S n, [(n, batch)])
      | TransientFailure =>
          let '(o, n', log) := fetch cat attempts' (S n) batch in
          (o, n', (n, batch) :: log)
      end
  end.

(** Step 5 for one batch: the resolved state of each of its keys. *)
Definition settle (batch : list FilterKey) (o : Fetched)
  : list (FilterKey * (PriceState * bool)) :=
  match o with
  | Answered answers =>
      imap (λ i k, (k, selectRow k (default [] (answers !! i)))) batch
  | _ => (λ k, (k, (Unresolved CatalogUnavailable, false))) <$> batch
  end.

(** Steps 4 and 5 over all batches.  An authentication failure ends the
    whole operation: nothing is kept of the batches already answered. *)
Fixpoint resolveBatches (cat : Catalog) (attempts : nat) (n : nat)
    (batches : list (list FilterKey))
  : (ResolveError + list (FilterKey * (PriceState * bool)))
    * list (nat * list FilterKey) :=
  match batches with
  | [] => (inr [], [])
  | batch :: rest =>
      let '(o, n', log) := fetch cat attempts n batch in
      match o with
      | AuthFailed => (inl InvalidCredential, log)
      | _ =>
          let '(r, log') := resolveBatches cat attempts n' rest in
          (match r with
           | inl e => inl e
           | inr table => inr (settle batch o ++ table)
           end, log ++ log')
      end
  end.

Fixpoint lookupKey (k : FilterKey) (table : list (FilterKey * (PriceState * bool)))
  : option (PriceState * bool) :=
  match table with
  | [] => None
  | (k', v) :: table' => if decide (k' = k) then Some v else lookupKey k table'
  end.

(** The write-back: a component that needed a price takes the state its
    key resolved to. *)
Definition writeBack (table : list (FilterKey * (PriceState * bool)))
    (c : CostComponent) : CostComponent :=
  if needsPrice c then
    match lookupKey (filterKey c) table with
    | Some (s, _) => withPrice c s
    | None => c
    end
  else c.

Record Resolution : Type := mkResolution {
  resolved : Project;                        (* the project after the call *)
  failure : option ResolveError;             (* the error returned *)
  calls : list (nat * list FilterKey);       (* the network calls made *)
  nonUnique : list FilterKey                 (* keys resolved by tie-break *)
}.

(** Modelled from the spec: the Price Resolver ([prices.PopulatePrices],
    which [runMain] calls) is not among the sources; this is
    [Resolve(project)] of section 4.1.  Collect the components without a
    resolved price, take their distinct Filter Keys, cut them into batches
    of at most [maxBatch] keys, look each batch up (retrying a transient
    failure up to the attempt ceiling, after which the keys of the batch
    are unresolved), and write the state of each key back to every
    component that shares it.  An invalid credential aborts the call and
    leaves the project as it was.  The batches are looked up one after
    the other: the worker pool, the back-off delays and the overall
    deadline of section 5 are matters of real time and are not part of
    the model. *)
Definition Resolve (cat : Catalog) (P : Params) (p : Project) : Resolution :=
  let pending := filter (λ c, needsPrice c = true) (allComponents p) in
  let keys := remove_dups (filterKey <$> pending) in
  let batches := chunks (maxBatch P) keys in
  match resolveBatches cat (maxAttempts P) 0 batches with
  | (inl e, log) => mkResolution p (Some e) log []
  | (inr table, log) =>
      mkResolution (mapProject (writeBack table) p) None log
        (fst <$> filter (λ e, e.2.2 = true) table)
  end.

(** The number of network calls of a log that carried the key [k]: every
    attempt counts, answered or not. *)
Definition sends (k : FilterKey) (log : list (nat * list FilterKey)) : nat :=
  length (filter (λ e, k ∈ e.2) log).

(** A network call that the catalog answered (with rows, or by refusing
    the credential).  A call lost to a transient failure has no answer:
    the retry rule repeats it, as a further attempt of the same query. *)
Definition answered (cat : Catalog) (e : nat * list FilterKey) : bool :=
  match cat e.1 e.2 with
  | TransientFailure => false
  | _ => true
  end.

(** The number of queries for the key [k] that the catalog answered. *)
Definition queries (cat : Catalog) (k : FilterKey)
    (log : list (nat * list FilterKey)) : nat :=
  length (filter (λ e, k ∈ e.2 ∧ answered cat e = true) log).



(** Modelled from the spec: [prices.PopulatePrices(cfg, project)], the
    call [runMain] makes, is not among the sources; it is the resolver of
    section 4.1 at work on the catalog [cat].  The project is resolved in
    place; the error returned is nil, or [prices.ErrInvalidAPIKey] (here
    [invalidKey]) for the one whole-operation failure the resolver has. *)
Definition PopulatePrices (invalidKey : errors.error) (cat : Catalog) (P : Params)
    (p : Project) : Project * option errors.error :=
  let R := Resolve cat P p in
  (resolved R,
   match failure R with
   | Some InvalidCredential => Some invalidKey
   | None => None
   end).

End prices.

(** ** Sample data *)
Module samples.
Import errors config schema main.

(** A chain of three errors: an API failure wrapped twice. *)
Definition chain3 : heap :=
  [ mkObject fundamental "Invalid API key" None [];
    mkObject withMessage "query failed: Invalid API key" (Some 0%nat) [];
    mkObject withStack "query failed: Invalid API key" (Some 1%nat) [] ].

(** An error that is its own cause. *)
Definition selfCause : heap := [ mkObject otherType "loop" (Some 0%nat) [] ].

(** The heap of a run: the chain above and an error of the pricing API. *)
Definition sampleHeap : heap :=
  chain3 ++
  [ mkObject PricingAPIError "Received error from API: Internal server error"
      None [] ].

Definition esc : string := String (ascii_of_nat 27) EmptyString.

(** A world in which everything succeeds except, possibly, the price
    lookup: [answer] gives the error [prices.PopulatePrices] returns for
    the project of a given name. *)
Definition sampleWorld (answer : string → option error) : World :=
  {| Root := list Project;
     SetTerraformEnvironment := λ e _, e;
     SetOutputEnvironment := λ e _, e;
     IsLogging := λ _, false;
     Detect := λ _ pc,
       Some (mkProvider "terraform_dir"
               (λ _, (mkProject (Path pc)
                        [aws.BuildResource (aws.mkEIP "aws_eip.ip" "us-east-1" "" "" "")],
                      None)));
     usage_LoadFromFile := λ _, (∅, None);
     PopulatePrices := λ _ p, (p, answer (ProjectName p));
     CalculateCosts := λ p, p;
     CalculateDiff := λ p, p;
     ToOutputFormat := λ ps, ps;
     ToJSON := λ _ _, ("{}", None);
     ToHTML := λ _ _, ("<html></html>", None);
     ToDiff := λ _ _, ("diff", None);
     ToTableDeprecated := λ _ _, ("table", None);
     ToTable := λ _ _, ("table", None);
     WriteFile := λ _ _, None;
     PrimaryString := λ s, esc +:+ "[96m" +:+ s +:+ esc +:+ "[0m";
     CredentialsFilePath := "/home/user/.config/infracost/credentials.yml";
     ErrInvalidAPIKey := 0%nat;
     cfg_LoadFromFile := λ c _, (c, None);
     cfg_LoadFromEnv := λ c, (c, None) |}.

(** Two projects, [a] and [b], and one table printed to the standard
    output. *)
Definition sampleConfig : Config :=
  {| cfgProjects := mkProjects [ mkTerraformProject "a" false "" "";
                                 mkTerraformProject "b" false "" "" ];
     Outputs := [ mkOutput "table" false "" ];
     NoColor := false;
     LogLevel := "";
     cfgEnvironment := mkEnvironment false ∅ |}.

Definition sampleState : state := mkState sampleConfig sampleHeap.

(** The price lookup of project [b] fails, with error [e]. *)
Definition failsOnB (e : error) (name : string) : option error :=
  if bool_decide (name = "b") then Some e else None.

(** An idle Elastic IP priced at 0.005 per hour. *)
Definition pricedIP : schema.CostComponent :=
  schema.mkCostComponent "IP address (if unused)" "hours"
    (decimal.NewFromInt 1) (Some (decimal.NewFromInt 1)) None None None
    (schema.Resolved (decimal.mk 5 (-3))) schema.NotComputed schema.NotComputed.

(** Two idle Elastic IPs of one region (their cost components have equal
    filters) and one of another region. *)
Definition threeIPs : Project :=
  mkProject "ips"
    [ aws.BuildResource (aws.mkEIP "aws_eip.a" "us-east-1" "" "" "");
      aws.BuildResource (aws.mkEIP "aws_eip.b" "us-east-1" "" "" "");
      aws.BuildResource (aws.mkEIP "aws_eip.c" "eu-west-1" "" "" "") ].

Definition idleRow : prices.PriceRow :=
  prices.mkPriceRow (decimal.mk 5 (-3)) "USD" None (Some "1") None.

(** A catalog that fails at the first network call and answers every
    later one, each key with the one row. *)
Definition flaky : prices.Catalog :=
  λ n batch,
    match n with
    | O => prices.TransientFailure
    | S _ => prices.Rows ((λ _, [idleRow]) <$> batch)
    end.

Definition steady : prices.Catalog :=
  λ _ batch, prices.Rows ((λ _, [idleRow]) <$> batch).

Definition sampleParams : prices.Params := prices.mkParams 10 3.

(** The Filter Key of an idle Elastic IP of a region. *)
Definition idleKey (region : string) : prices.FilterKey :=
  (Some (schema.mkProductFilter (Some "aws") (Some "AmazonEC2") (Some "IP Address")
           (Some region)
           [schema.mkAttributeFilter "usagetype" None
              (Some "/ElasticIP:IdleAddress/")]),
   Some (schema.mkPriceFilter None (Some "1") None)).

(** A world like [W] in which a path is detected only if [detect] says
    so, and the usage file [f] loads with the error [usage f]. *)
Definition withLoading (W : World) (detect : string → bool)
    (usage : string → option error) : World :=
  {| Root := Root W;
     SetTerraformEnvironment := SetTerraformEnvironment W;
     SetOutputEnvironment := SetOutputEnvironment W;
     IsLogging := IsLogging W;
     Detect := λ c pc, if detect (Path pc) then Detect W c pc else None;
     usage_LoadFromFile := λ f, (∅, usage f);
     PopulatePrices := PopulatePrices W;
     CalculateCosts := CalculateCosts W;
     CalculateDiff := CalculateDiff W;
     ToOutputFormat := ToOutputFormat W;
     ToJSON := ToJSON W;
     ToHTML := ToHTML W;
     ToDiff := ToDiff W;
     ToTableDeprecated := ToTableDeprecated W;
     ToTable := ToTable W;
     WriteFile := WriteFile W;
     PrimaryString := PrimaryString W;
     CredentialsFilePath := CredentialsFilePath W;
     ErrInvalidAPIKey := ErrInvalidAPIKey W;
     cfg_LoadFromFile := cfg_LoadFromFile W;
     cfg_LoadFromEnv := cfg_LoadFromEnv W |}.

(** A world like [W] in which the table renderer returns [table] and the
    write of the file [p] returns [write p]. *)
Definition withOutput (W : World) (table : option error)
    (write : string → option error) : World :=
  {| Root := Root W;
     SetTerraformEnvironment := SetTerraformEnvironment W;
     SetOutputEnvironment := SetOutputEnvironment W;
     IsLogging := IsLogging W;
     Detect := Detect W;
     usage_LoadFromFile := usage_LoadFromFile W;
     PopulatePrices := PopulatePrices W;
     CalculateCosts := CalculateCosts W;
     CalculateDiff := CalculateDiff W;
     ToOutputFormat := ToOutputFormat W;
     ToJSON := ToJSON W;
     ToHTML := ToHTML W;
     ToDiff := ToDiff W;
     ToTableDeprecated := ToTableDeprecated W;
     ToTable := λ _ _, ("table", table);
     WriteFile := λ p _, write p;
     PrimaryString := PrimaryString W;
     CredentialsFilePath := CredentialsFilePath W;
     ErrInvalidAPIKey := ErrInvalidAPIKey W;
     cfg_LoadFromFile := cfg_LoadFromFile W;
     cfg_LoadFromEnv := cfg_LoadFromEnv W |}.

(** A world like [W] in which the config file [f] loads with the error
    [load f]. *)
Definition withConfigFile (W : World) (load : string → option error) : World :=
  {| Root := Root W;
     SetTerraformEnvironment := SetTerraformEnvironment W;
     SetOutputEnvironment := SetOutputEnvironment W;
     IsLogging := IsLogging W;
     Detect := Detect W;
     usage_LoadFromFile := usage_LoadFromFile W;
     PopulatePrices := PopulatePrices W;
     CalculateCosts := CalculateCosts W;
     CalculateDiff := CalculateDiff W;
     ToOutputFormat := ToOutputFormat W;
     ToJSON := ToJSON W;
     ToHTML := ToHTML W;
     ToDiff := ToDiff W;
     ToTableDeprecated := ToTableDeprecated W;
     ToTable := ToTable W;
     WriteFile := WriteFile W;
     PrimaryString := PrimaryString W;
     CredentialsFilePath := CredentialsFilePath W;
     ErrInvalidAPIKey := ErrInvalidAPIKey W;
     cfg_LoadFromFile := λ c f, (c, load f);
     cfg_LoadFromEnv := cfg_LoadFromEnv W |}.

(** The world in which every call succeeds. *)
Definition fairWorld : World := sampleWorld (λ _, None).

(** Project [b] with a usage file, and an estimate written to a file. *)
Definition usageConfig : Config :=
  {| cfgProjects := mkProjects [ mkTerraformProject "a" false "" "";
                                 mkTerraformProject "b" false "" "usage.yml" ];
     Outputs := [ mkOutput "table" false ""; mkOutput "JSON" true "out.json" ];
     NoColor := false;
     LogLevel := "";
     cfgEnvironment := mkEnvironment false ∅ |}.

Definition usageState : state := mkState usageConfig sampleHeap.

(** The flags of [infracost --config-file infracost.yml]. *)
Definition configFileFlags : gmap string flag :=
  {[ "config-file" := mkFlag (StringFlag "infracost.yml") true ]}.




End samples.

(** * Properties *)

(** ** The Elastic IP resource *)
Section EIP.
Import decimal schema aws.

Lemma nonempty_false (s : string) : nonempty s = false ↔ s = "".
Proof.
  unfold nonempty. rewrite bool_decide_eq_false. split.
  - intros H. destruct (decide (s = "")) as [->|Hne]; [done | by destruct H].
  - intros -> H. by apply H.
Qed.

Lemma nonempty_true (s : string) : nonempty s = true ↔ s ≠ "".
Proof. unfold nonempty. by rewrite bool_decide_eq_true. Qed.

(** C3. Every resource [EIP.BuildResource] returns satisfies the
    data-model invariant: if [NoPrice] is false, the resource has at least
    one cost component or is marked skipped. *)
Theorem BuildResource_priced_or_skipped (r : EIP) :
  priced_or_skipped (BuildResource r).
Proof.
  unfold priced_or_skipped, BuildResource.
  destruct (nonempty (CustomerOwnedIPv4Pool r) || nonempty (Instance_ r)
            || nonempty (NetworkInterface r)); simpl.
  - intros Hnp. discriminate Hnp.
  - intros _. left. discriminate.
Qed.

(** C4. For an Elastic IP whose [CustomerOwnedIPv4Pool], [Instance] and
    [NetworkInterface] are all empty strings, [BuildResource] returns a
    resource with exactly one cost component: it is named
    "IP address (if unused)", its unit is "hours", its unit multiplier is 1,
    its hourly quantity is set to 1 and its monthly quantity is not set. *)
Theorem BuildResource_unattached (r : EIP) :
  CustomerOwnedIPv4Pool r = "" →
  Instance_ r = "" →
  NetworkInterface r = "" →
  ∃ c, CostComponents (BuildResource r) = [c]
       ∧ Name c = "IP address (if unused)"
       ∧ Unit c = "hours"
       ∧ UnitMultiplier c = NewFromInt 1
       ∧ HourlyQuantity c = Some (NewFromInt 1)
       ∧ MonthlyQuantity c = None.
Proof.
  intros Hp Hi Hn. unfold BuildResource.
  rewrite Hp, Hi, Hn. simpl.
  eexists. split; [reflexivity |]. simpl. repeat split.
Qed.

Lemma BuildResource_unattached_witness :
  ∃ c, CostComponents (BuildResource (mkEIP "eip-1" "us-east-1" "" "" "")) = [c]
       ∧ Name c = "IP address (if unused)"
       ∧ Unit c = "hours"
       ∧ UnitMultiplier c = NewFromInt 1
       ∧ HourlyQuantity c = Some (NewFromInt 1)
       ∧ MonthlyQuantity c = None.
Proof.
  apply (BuildResource_unattached (mkEIP "eip-1" "us-east-1" "" "" ""));
    reflexivity.
Defined.

(** C5. For an Elastic IP with at least one of [CustomerOwnedIPv4Pool],
    [Instance], [NetworkInterface] non-empty, [BuildResource] returns a
    resource with [NoPrice] true, [IsSkipped] true and no cost component. *)
Theorem BuildResource_attached (r : EIP) :
  CustomerOwnedIPv4Pool r ≠ "" ∨ Instance_ r ≠ "" ∨ NetworkInterface r ≠ "" →
  NoPrice (BuildResource r) = true
  ∧ IsSkipped (BuildResource r) = true
  ∧ CostComponents (BuildResource r) = [].
Proof.
  intros H. unfold BuildResource.
  assert (Hb : nonempty (CustomerOwnedIPv4Pool r) || nonempty (Instance_ r)
               || nonempty (NetworkInterface r) = true).
  { destruct H as [H | [H | H]]; apply nonempty_true in H; rewrite H;
      rewrite ?orb_true_r; reflexivity. }
  rewrite Hb. simpl. repeat split.
Qed.

Lemma BuildResource_attached_witness :
  NoPrice (BuildResource (mkEIP "eip-2" "us-east-1" "" "i-0abc" "")) = true
  ∧ IsSkipped (BuildResource (mkEIP "eip-2" "us-east-1" "" "i-0abc" "")) = true
  ∧ CostComponents (BuildResource (mkEIP "eip-2" "us-east-1" "" "i-0abc" "")) = [].
Proof.
  apply (BuildResource_attached (mkEIP "eip-2" "us-east-1" "" "i-0abc" "")).
  right. left. simpl. discriminate.
Defined.

End EIP.

(** ** [unwrapped]: the root cause of an error *)
Section Unwrapped.
Import errors main samples.

Lemma unwrap_n_nil (h : heap) (n : nat) : unwrap_n h n None = None.
Proof. induction n as [|n IH]; simpl; [reflexivity | exact IH]. Qed.

Lemma unwrap_n_add (h : heap) (a b : nat) (e : option error) :
  unwrap_n h (a + b) e = unwrap_n h b (unwrap_n h a e).
Proof.
  revert e. induction a as [|a IH]; intros e; simpl; [reflexivity | apply IH].
Qed.

Lemma root_cause_step (h : heap) (e e' r : error) :
  Unwrap h (Some e) = Some e' → root_cause h e' r → root_cause h e r.
Proof.
  intros He [[n Hn] Hr]. split; [| exact Hr].
  exists (S n). cbn [unwrap_n]. by rewrite He.
Qed.

Lemma root_cause_unique (h : heap) (e r1 r2 : error) :
  root_cause h e r1 → root_cause h e r2 → r1 = r2.
Proof.
  assert (Hle : ∀ n1 n2 a b, (n1 ≤ n2)%nat →
            unwrap_n h n1 (Some e) = Some a → Unwrap h (Some a) = None →
            unwrap_n h n2 (Some e) = Some b → a = b).
  { intros n1 n2 a b Hle Ha Hua Hb.
    replace n2 with (n1 + (n2 - n1))%nat in Hb by lia.
    rewrite unwrap_n_add, Ha in Hb.
    destruct (n2 - n1)%nat as [|k]; cbn [unwrap_n] in Hb.
    - congruence.
    - rewrite Hua, unwrap_n_nil in Hb. discriminate. }
  intros [[n1 H1] Hu1] [[n2 H2] Hu2].
  destruct (Nat.le_ge_cases n1 n2) as [Hc|Hc].
  - exact (Hle n1 n2 r1 r2 Hc H1 Hu1 H2).
  - symmetry. exact (Hle n2 n1 r2 r1 Hc H2 Hu2 H1).
Qed.

Lemma unwrapped_eq (fuel : nat) (h : heap) (err : option error) :
  unwrapped fuel h err =
  match Unwrap h err with
  | None => Some err
  | Some e' => match fuel with
               | O => None
               | S fuel' => unwrapped fuel' h (Some e')
               end
  end.
Proof. destruct fuel; reflexivity. Qed.

(** Whatever [unwrapped] returns is a root cause: in particular not [nil]. *)
Lemma unwrapped_sound (h : heap) (fuel : nat) (e : error) (x : option error) :
  unwrapped fuel h (Some e) = Some x → ∃ r, x = Some r ∧ root_cause h e r.
Proof.
  revert e. induction fuel as [|fuel IH]; intros e; rewrite unwrapped_eq;
    destruct (Unwrap h (Some e)) as [e'|] eqn:He; intros Hx.
  - discriminate.
  - injection Hx as <-. exists e. split; [reflexivity|]. split; [by exists 0%nat | exact He].
  - destruct (IH e' Hx) as (r & -> & Hr). exists r. split; [reflexivity|].
    by eapply root_cause_step.
  - injection Hx as <-. exists e. split; [reflexivity|]. split; [by exists 0%nat | exact He].
Qed.

(** A chain that ends after [n] steps is walked to its end by any fuel of
    at least [n]. *)
Lemma unwrapped_complete (h : heap) (n : nat) (e : error) :
  unwrap_n h n (Some e) = None →
  ∃ r, root_cause h e r
       ∧ ∀ fuel, (n ≤ fuel)%nat → unwrapped fuel h (Some e) = Some (Some r).
Proof.
  revert e. induction n as [|n IH]; intros e Hn; cbn [unwrap_n] in Hn; [discriminate|].
  destruct (Unwrap h (Some e)) as [e'|] eqn:He.
  - destruct (IH e' Hn) as (r & Hr & Hrun). exists r. split.
    + by eapply root_cause_step.
    + intros [|fuel] Hle; [lia|]. rewrite unwrapped_eq, He. apply Hrun. lia.
  - exists e. split.
    + split; [by exists 0%nat | exact He].
    + intros fuel _. by rewrite unwrapped_eq, He.
Qed.

(** C9. For a non-nil error whose chain of [errors.Unwrap] causes is
    finite (hence acyclic), [unwrapped] returns the deepest error of the
    chain: the unique error [r] reachable by repeated [Unwrap] whose own
    [Unwrap] is nil.  The loop ends with that result for every sufficient
    number of iterations, no run of the loop returns anything else (never
    nil), and the result is [err] itself when [err] wraps nothing. *)
Theorem unwrapped_deepest (h : heap) (err : error) :
  finite_chain h err →
  ∃ r, root_cause h err r
       ∧ (∀ r', root_cause h err r' → r' = r)
       ∧ (∃ n, ∀ fuel, (n ≤ fuel)%nat →
                 unwrapped fuel h (Some err) = Some (Some r))
       ∧ (∀ fuel x, unwrapped fuel h (Some err) = Some x → x = Some r)
       ∧ (Unwrap h (Some err) = None → r = err).
Proof.
  intros [n Hn]. destruct (unwrapped_complete h n err Hn) as (r & Hr & Hrun).
  exists r. split; [exact Hr|]. split; [|split; [|split]].
  - intros r' Hr'. exact (root_cause_unique h err r' r Hr' Hr).
  - exists n. exact Hrun.
  - intros fuel x Hx. destruct (unwrapped_sound h fuel err x Hx) as (r' & -> & Hr').
    f_equal. exact (root_cause_unique h err r' r Hr' Hr).
  - intros Hnone. apply (root_cause_unique h err r err Hr).
    split; [by exists 0%nat | exact Hnone].
Qed.

Lemma unwrapped_deepest_witness :
  ∃ r, root_cause chain3 2%nat r
       ∧ (∀ r', root_cause chain3 2%nat r' → r' = r)
       ∧ (∃ n, ∀ fuel, (n ≤ fuel)%nat →
                 unwrapped fuel chain3 (Some 2%nat) = Some (Some r))
       ∧ (∀ fuel x, unwrapped fuel chain3 (Some 2%nat) = Some x → x = Some r)
       ∧ (Unwrap chain3 (Some 2%nat) = None → r = 2%nat).
Proof.
  apply (unwrapped_deepest chain3 2%nat). exists 3%nat. reflexivity.
Defined.

Example unwrapped_chain3 : unwrapped 2 chain3 (Some 2%nat) = Some (Some 0%nat).
Proof. reflexivity. Qed.

(** Without the finiteness premise the loop need not end: on an error that
    is its own cause no amount of fuel is enough. *)
Lemma unwrapped_cycle_diverges (fuel : nat) :
  unwrapped fuel selfCause (Some 0%nat) = None.
Proof. induction fuel as [|fuel IH]; simpl; [reflexivity | exact IH]. Qed.

End Unwrapped.

(** ** [loadRunFlags]: when the flags are rejected *)
Section LoadRunFlags.
Import errors config main.

Lemma loadRunFlags_exit_iff (W : World) (c : Config) (cmd : gmap string flag) :
  (∃ msg, loadRunFlags W c cmd = UsageErrorExit msg)
  ↔ Changed cmd "config-file"
    && (Changed cmd "path" || Changed cmd "terraform-plan-flags"
        || Changed cmd "usage-file") = true.
Proof.
  unfold loadRunFlags.
  destruct (Changed cmd "config-file"
            && (Changed cmd "path" || Changed cmd "terraform-plan-flags"
                || Changed cmd "usage-file")) eqn:Hrej.
  - split; [reflexivity | intros _; eexists; reflexivity].
  - split; [| discriminate]. intros [msg Hmsg]. exfalso. revert Hmsg.
    repeat match goal with
           | |- context [match ?x with _ => _ end] => destruct x
           end; discriminate.
Qed.

(** C10. [loadRunFlags] prints the usage error and exits exactly when the
    [config-file] flag is set together with one of the project flags
    [path], [terraform-plan-flags] or [usage-file].  With [config-file] and
    none of these, the call returns, whether or not the output flags
    [format] and [show-skipped] are set, although the help text of
    [config-file] says it cannot be used with other flags. *)
Theorem loadRunFlags_rejects (W : World) (c : Config) (cmd : gmap string flag) :
  ((∃ msg, loadRunFlags W c cmd = UsageErrorExit msg)
   ↔ Changed cmd "config-file" = true
     ∧ (Changed cmd "path" = true
        ∨ Changed cmd "terraform-plan-flags" = true
        ∨ Changed cmd "usage-file" = true))
  ∧ (Changed cmd "config-file" = true →
     Changed cmd "path" = false →
     Changed cmd "terraform-plan-flags" = false →
     Changed cmd "usage-file" = false →
     ∃ c' err, loadRunFlags W c cmd = FlagsReturned c' err)
  ∧ mkFlagDecl "config-file" ""
      "Path to the Infracost config file. Cannot be used with other flags"
    ∈ addRunInputFlags.
Proof.
  split; [| split].
  - rewrite loadRunFlags_exit_iff.
    rewrite andb_true_iff, !orb_true_iff. tauto.
  - intros Hc Hp Ht Hu.
    destruct (loadRunFlags W c cmd) as [msg | c' err] eqn:Hrun.
    + assert (Hex : ∃ m, loadRunFlags W c cmd = UsageErrorExit m) by eauto.
      apply loadRunFlags_exit_iff in Hex.
      rewrite Hc, Hp, Ht, Hu in Hex. discriminate.
    + eauto.
  - unfold addRunInputFlags. set_solver.
Qed.

End LoadRunFlags.

(** ** Traces *)
Section Traces.
Import errors config main.

Lemma precedes_nil (a b : event) : precedes a b [].
Proof. intros j Hj. by rewrite lookup_nil in Hj. Qed.

Lemma precedes_notin (a b : event) (t : list event) : b ∉ t → precedes a b t.
Proof. intros Hb j Hj. destruct Hb. by eapply list_elem_of_lookup_2. Qed.

Lemma precedes_cons_hit (a b : event) (t : list event) :
  a ≠ b → precedes a b (a :: t).
Proof.
  intros Hab [|j] Hj; simpl in Hj.
  - congruence.
  - exists 0%nat. split; [lia | reflexivity].
Qed.

Lemma precedes_cons_skip (a b x : event) (t : list event) :
  x ≠ b → precedes a b t → precedes a b (x :: t).
Proof.
  intros Hx Ht [|j] Hj; simpl in Hj.
  - congruence.
  - destruct (Ht j Hj) as (k & Hk & Hka). exists (S k). split; [lia | exact Hka].
Qed.

(** Every [b] of [t1 ++ t2] has its [a] if those of [t1] have, and those of
    [t2] have theirs in [t2] or [a] occurs in [t1]. *)
Lemma precedes_app (a b : event) (t1 t2 : list event) :
  precedes a b t1 → precedes a b t2 ∨ a ∈ t1 → precedes a b (t1 ++ t2).
Proof.
  intros H1 H2 j Hj. destruct (decide (j < length t1)%nat) as [Hlt|Hge].
  - rewrite lookup_app_l in Hj by exact Hlt.
    destruct (H1 j Hj) as (k & Hk & Hka). exists k. split; [exact Hk|].
    rewrite lookup_app_l by lia. exact Hka.
  - rewrite lookup_app_r in Hj by lia. destruct H2 as [H2|Hin].
    + destruct (H2 _ Hj) as (k & Hk & Hka). exists (length t1 + k)%nat.
      split; [lia|]. rewrite lookup_app_r by lia.
      replace (length t1 + k - length t1)%nat with k by lia. exact Hka.
    + apply list_elem_of_lookup_1 in Hin as [k Hk]. exists k.
      pose proof (lookup_lt_Some _ _ _ Hk). split; [lia|].
      rewrite lookup_app_l by lia. exact Hk.
Qed.

Lemma quiet_nil : quiet_after_failure [].
Proof. intros j k ev ev' Hj. by rewrite lookup_nil in Hj. Qed.

Lemma quiet_no_stage (t : list event) :
  Forall (λ ev, is_stage ev = false) t → quiet_after_failure t.
Proof.
  intros Ht j k ev ev' _ _ _ Hk. rewrite Forall_lookup in Ht. by eapply Ht.
Qed.

Lemma quiet_no_failure (t : list event) :
  Forall (λ ev, failed ev = false) t → quiet_after_failure t.
Proof.
  intros Ht j k ev ev' Hj Hf. rewrite Forall_lookup in Ht.
  rewrite (Ht j ev Hj) in Hf. discriminate.
Qed.

(** A trace stays quiet when extended in front by calls that succeeded. *)
Lemma quiet_app (t1 t2 : list event) :
  Forall (λ ev, failed ev = false) t1 → quiet_after_failure t2 →
  quiet_after_failure (t1 ++ t2).
Proof.
  intros H1 H2 j k ev ev' Hj Hf Hjk Hk. rewrite Forall_lookup in H1.
  destruct (decide (j < length t1)%nat) as [Hlt|Hge].
  - rewrite lookup_app_l in Hj by exact Hlt. rewrite (H1 j ev Hj) in Hf. discriminate.
  - rewrite lookup_app_r in Hj by lia. rewrite lookup_app_r in Hk by lia.
    eapply (H2 (j - length t1)%nat (k - length t1)%nat); eauto. lia.
Qed.

(** A trace stays quiet when only diagnostics are appended. *)
Lemma quiet_app_diag (t1 t2 : list event) :
  quiet_after_failure t1 → Forall (λ ev, is_stage ev = false) t2 →
  quiet_after_failure (t1 ++ t2).
Proof.
  intros H1 H2 j k ev ev' Hj Hf Hjk Hk. rewrite Forall_lookup in H2.
  destruct (decide (k < length t1)%nat) as [Hlt|Hge].
  - rewrite lookup_app_l in Hk by exact Hlt. rewrite lookup_app_l in Hj by lia.
    by eapply (H1 j k).
  - rewrite lookup_app_r in Hk by lia. by eapply H2.
Qed.

Lemma load_ev_mono (lo hi lo' hi' : nat) (ev : event) :
  (lo' ≤ lo)%nat → (hi ≤ hi')%nat → load_ev lo hi ev → load_ev lo' hi' ev.
Proof. intros Hlo Hhi. destruct ev; simpl; try done; lia. Qed.

Lemma price_ev_mono (lo hi lo' hi' : nat) (ev : event) :
  (lo' ≤ lo)%nat → (hi ≤ hi')%nat → price_ev lo hi ev → price_ev lo' hi' ev.
Proof. intros Hlo Hhi. destruct ev; simpl; try done; lia. Qed.

Lemma quiet_cons_ok (x : event) (t : list event) :
  failed x = false → quiet_after_failure t → quiet_after_failure (x :: t).
Proof. intros Hx Ht. apply (quiet_app [x] t); [by constructor | exact Ht]. Qed.

Lemma quiet_cons_tail (x : event) (t : list event) :
  Forall (λ ev, is_stage ev = false) t → quiet_after_failure (x :: t).
Proof.
  intros Ht j k ev ev' _ _ Hjk Hk. destruct k as [|k]; [lia|].
  simpl in Hk. rewrite Forall_lookup in Ht. by eapply Ht.
Qed.

Ltac solve_precedes :=
  repeat first
    [ apply precedes_nil
    | apply precedes_cons_hit; congruence
    | apply precedes_cons_skip; [congruence|] ].

Ltac solve_Forall :=
  repeat first [ apply Forall_nil_2 | apply Forall_cons_2 ];
  simpl; try done; try lia.

Ltac solve_quiet :=
  repeat first
    [ apply quiet_nil
    | apply quiet_cons_ok; [reflexivity|]
    | apply quiet_cons_tail; solve_Forall ].

(** *** Membership in a trace, by the loop the event belongs to *)
Ltac kill_in H :=
  lazymatch type of H with
  | _ ∈ _ ++ _ => rewrite elem_of_app in H; destruct H as [H|H]; kill_in H
  | _ ∈ _ :: _ =>
      rewrite elem_of_cons in H; destruct H as [H|H];
        [try discriminate H; try congruence | kill_in H]
  | _ ∈ [] => by apply elem_of_nil in H
  | _ ∈ spinnerStart _ _ => unfold spinnerStart in H; kill_in H
  | _ ∈ ?t =>
      match goal with
      | Hc : Forall _ t |- _ =>
          let Hc' := fresh in
          pose proof (proj1 (Forall_forall _ _) Hc _ H) as Hc';
          simpl in Hc'; solve [done | lia]
      end
  end.

Ltac solve_notin := let Hin := fresh "Hin" in intros Hin; kill_in Hin.

Ltac solve_prec :=
  first
    [ match goal with
      | H : ∀ k e, precedes _ _ ?t |- precedes _ _ ?t => apply H
      | H : ∀ k, precedes _ _ ?t ∧ _ |- precedes _ _ ?t => apply (proj1 (H _))
      | H : ∀ k, _ ∧ precedes _ _ ?t |- precedes _ _ ?t => apply (proj2 (H _))
      end
    | apply precedes_app; [solve_prec | left; solve_prec]
    | apply precedes_notin; solve_notin ].

Section WithWorld.
Variable W : World.

(** *** The first loop *)
Lemma loadProject_spec i pc st t st' r :
  loadProject W i pc st = (t, st', r) →
  Forall (load_ev i (S i)) t
  ∧ quiet_after_failure t
  ∧ (∀ k e, precedes (EvLoadFromFile k None) (EvLoadResources k e) t)
  ∧ (∀ p, r = inr p →
       Forall (λ ev, failed ev = false) t
       ∧ EvLoadResources i None ∈ t ∧ hp st' = hp st).
Proof.
  unfold loadProject.
  destruct (Detect W _ pc) as [provider|].
  - destruct (IsLogging W _);
      (destruct (usage_LoadFromFile W (UsageFile pc)) as [u [e1|]];
       [| destruct (LoadResources provider u) as [p0 [e2|]]]);
      intros [= <- <- <-]; simpl;
      (split; [solve_Forall|]); (split; [solve_quiet|]);
      (split; [intros k e; destruct (decide (k = i)) as [->|Hk]; solve_precedes|]);
      intros p [= <-]; (split; [solve_Forall|]); (split; [set_solver | reflexivity]).
  - intros [= <- <- <-]. simpl.
    (split; [solve_Forall|]); (split; [solve_quiet|]);
      (split; [intros k e; solve_precedes|]). intros p Hp. discriminate Hp.
Qed.

Lemma loadProjects_spec cfgs : ∀ i st t st' r,
  loadProjects W i cfgs st = (t, st', r) →
  Forall (load_ev i (i + length cfgs)) t
  ∧ quiet_after_failure t
  ∧ (∀ k e, precedes (EvLoadFromFile k None) (EvLoadResources k e) t)
  ∧ (∀ ps, r = inr ps →
       length ps = length cfgs
       ∧ Forall (λ ev, failed ev = false) t
       ∧ (∀ k, (i ≤ k < i + length cfgs)%nat → EvLoadResources k None ∈ t)
       ∧ hp st' = hp st).
Proof.
  induction cfgs as [|pc rest IH]; intros i st t st' r; cbn [loadProjects].
  - intros [= <- <- <-]. split; [solve_Forall|]. split; [solve_quiet|].
    split; [intros k e; solve_precedes|]. intros ps [= <-]. simpl.
    repeat split; [solve_Forall | lia].
  - destruct (loadProject W i pc st) as [[t0 st1] [e|p]] eqn:Hbody.
    + intros [= <- <- <-].
      destruct (loadProject_spec _ _ _ _ _ _ Hbody) as (Hev & Hq & Hp & _).
      split; [| split; [exact Hq | split; [exact Hp | intros ps Hps; discriminate Hps]]].
      eapply Forall_impl; [exact Hev|]. intros ev. apply load_ev_mono; simpl; lia.
    + destruct (loadProject_spec _ _ _ _ _ _ Hbody) as (Hev & Hq & Hp & Hok).
      destruct (Hok p eq_refl) as (Hnf & Hin & Hhp).
      destruct (loadProjects W (S i) rest st1) as [[t1 st2] r1] eqn:Hrest.
      destruct (IH _ _ _ _ _ Hrest) as (Hev' & Hq' & Hp' & Hok').
      assert (HEV : Forall (load_ev i (i + length (pc :: rest))) (t0 ++ t1)).
      { apply Forall_app. split.
        - eapply Forall_impl; [exact Hev|]. intros ev. apply load_ev_mono; simpl; lia.
        - eapply Forall_impl; [exact Hev'|]. intros ev. apply load_ev_mono; simpl; lia. }
      assert (HQ : quiet_after_failure (t0 ++ t1)) by (by apply quiet_app).
      assert (HP : ∀ k e, precedes (EvLoadFromFile k None) (EvLoadResources k e) (t0 ++ t1)).
      { intros k e. apply precedes_app; [apply Hp | left; apply Hp']. }
      destruct r1 as [e|ps]; intros [= <- <- <-];
        (split; [exact HEV | split; [exact HQ | split; [exact HP|]]]);
        intros ps' Hps'; [discriminate Hps'|]. injection Hps' as <-.
      destruct (Hok' ps eq_refl) as (Hlen & Hnf' & Hin' & Hhp').
      split; [simpl; lia|]. split; [by apply Forall_app|]. split; [|congruence].
      intros k Hk. apply elem_of_app. destruct (decide (k = i)) as [->|Hne].
      * by left.
      * right. apply Hin'. simpl in Hk. lia.
Qed.

(** *** The second loop *)
Lemma priceProject_spec fuel i project st t st' r :
  priceProject W fuel i project st = (t, st', r) →
  Forall (price_ev i (S i)) t
  ∧ quiet_after_failure t
  ∧ (∀ k, precedes (EvPopulatePrices k None) (EvCalculateCosts k) t
          ∧ precedes (EvCalculateCosts k) (EvCalculateDiff k) t)
  ∧ (∀ p, r = inr p →
       Forall (λ ev, failed ev = false) t
       ∧ EvCalculateDiff i ∈ t ∧ st' = st)
  ∧ (∀ k err, EvPopulatePrices k (Some err) ∈ t →
       (∃ o, priceFailure W fuel err st = (st', o) ∧ r = inl o)
       ∧ ∀ k', (EvCalculateCosts k' ∉ t) ∧ (EvCalculateDiff k' ∉ t))
  ∧ (∀ o, r = inl o → ∃ k err, EvPopulatePrices k (Some err) ∈ t).
Proof.
  unfold priceProject.
  destruct (PopulatePrices W (cfg st) project) as [p1 [err|]].
  - destruct (priceFailure W fuel err st) as [s o] eqn:Hpf.
    intros [= <- <- <-].
    split; [solve_Forall|]. split; [solve_quiet|].
    split; [intros k; split; solve_precedes|].
    split; [intros p Hp; discriminate Hp|].
    split; [|intros o' _; exists i, err; set_solver].
    intros k err' Hin. split.
    + exists o. split; [|reflexivity].
      rewrite !elem_of_cons, elem_of_nil in Hin.
      destruct Hin as [Hin|[Hin|[Hin|[]]]]; try discriminate Hin.
      injection Hin as _ ->. exact Hpf.
    + intros k'. split; rewrite !elem_of_cons, elem_of_nil;
        intros [H|[H|[H|[]]]]; discriminate H.
  - intros [= <- <- <-].
    split; [solve_Forall|]. split; [solve_quiet|].
    split; [intros k; destruct (decide (k = i)) as [->|Hk]; split; solve_precedes|].
    split; [intros p _; split; [solve_Forall | split; [set_solver | reflexivity]]|].
    split; [|intros o Ho; discriminate Ho].
    intros k err Hin. rewrite !elem_of_cons, elem_of_nil in Hin.
    destruct Hin as [Hin|[Hin|[Hin|[]]]]; discriminate Hin.
Qed.

Lemma priceProjects_spec fuel ps : ∀ i st t st' r,
  priceProjects W fuel i ps st = (t, st', r) →
  Forall (price_ev i (i + length ps)) t
  ∧ quiet_after_failure t
  ∧ (∀ k, precedes (EvPopulatePrices k None) (EvCalculateCosts k) t
          ∧ precedes (EvCalculateCosts k) (EvCalculateDiff k) t)
  ∧ (∀ ps', r = inr ps' →
       Forall (λ ev, failed ev = false) t
       ∧ (∀ k, (i ≤ k < i + length ps)%nat → EvCalculateDiff k ∈ t)
       ∧ st' = st)
  ∧ (∀ k err, EvPopulatePrices k (Some err) ∈ t →
       (∃ o, priceFailure W fuel err st = (st', o) ∧ r = inl o)
       ∧ ∀ k', (k ≤ k')%nat → (EvCalculateCosts k' ∉ t) ∧ (EvCalculateDiff k' ∉ t))
  ∧ (∀ o, r = inl o → ∃ k err, EvPopulatePrices k (Some err) ∈ t).
Proof.
  induction ps as [|project rest IH]; intros i st t st' r; cbn [priceProjects].
  - intros [= <- <- <-]. split; [solve_Forall|]. split; [solve_quiet|].
    split; [intros k; split; solve_precedes|].
    split; [intros ps' _; split; [solve_Forall | split; [simpl; lia | reflexivity]]|].
    split; [|intros o Ho; discriminate Ho].
    intros k err Hin. by apply elem_of_nil in Hin.
  - destruct (priceProject W fuel i project st) as [[t0 st1] [o|p]] eqn:Hbody.
    + intros [= <- <- <-].
      destruct (priceProject_spec _ _ _ _ _ _ _ Hbody) as (Hev & Hq & Hp & _ & Hf & Hx).
      split; [| split; [exact Hq | split; [exact Hp |
                split; [intros ps' Hps; discriminate Hps|
                split; [|intros o' _; exact (Hx o eq_refl)]]]]].
      * eapply Forall_impl; [exact Hev|]. intros ev. apply price_ev_mono; simpl; lia.
      * intros k err Hin. destruct (Hf k err Hin) as ((o' & Hpf & Ho) & Hno).
        split; [exists o'; split; [exact Hpf | congruence]|].
        intros k' _. apply Hno.
    + destruct (priceProject_spec _ _ _ _ _ _ _ Hbody) as (Hev & Hq & Hp & Hok & Hf & _).
      destruct (Hok p eq_refl) as (Hnf & Hin & ->).
      destruct (priceProjects W fuel (S i) rest st) as [[t1 st2] r1] eqn:Hrest.
      destruct (IH _ _ _ _ _ Hrest) as (Hev' & Hq' & Hp' & Hok' & Hf' & Hx').
      assert (HEV : Forall (price_ev i (i + length (project :: rest))) (t0 ++ t1)).
      { apply Forall_app. split.
        - eapply Forall_impl; [exact Hev|]. intros ev. apply price_ev_mono; simpl; lia.
        - eapply Forall_impl; [exact Hev'|]. intros ev. apply price_ev_mono; simpl; lia. }
      assert (HQ : quiet_after_failure (t0 ++ t1)) by (by apply quiet_app).
      assert (HP : ∀ k, precedes (EvPopulatePrices k None) (EvCalculateCosts k) (t0 ++ t1)
                        ∧ precedes (EvCalculateCosts k) (EvCalculateDiff k) (t0 ++ t1)).
      { intros k. split; (apply precedes_app; [apply Hp | left; apply Hp']). }
      assert (HF : ∀ k err, EvPopulatePrices k (Some err) ∈ (t0 ++ t1) →
                 (∃ o, priceFailure W fuel err st = (st2, o) ∧ r1 = inl o)
                 ∧ ∀ k', (k ≤ k')%nat →
                     (EvCalculateCosts k' ∉ (t0 ++ t1)) ∧ (EvCalculateDiff k' ∉ (t0 ++ t1))).
      { intros k err Hk. apply elem_of_app in Hk as [Hk|Hk].
        - rewrite Forall_forall in Hnf. specialize (Hnf _ Hk). discriminate Hnf.
        - destruct (Hf' k err Hk) as (Hres & Hno). split; [exact Hres|].
          assert (Hki : (S i ≤ k)%nat).
          { rewrite Forall_forall in Hev'. specialize (Hev' _ Hk). simpl in Hev'. lia. }
          intros k' Hk'. destruct (Hno k' Hk') as [Hc Hd].
          rewrite Forall_forall in Hev.
          split; rewrite elem_of_app; intros [H|H]; try done;
            specialize (Hev _ H); simpl in Hev; lia. }
      destruct r1 as [o|ps1]; intros [= <- <- <-];
        (split; [exact HEV | split; [exact HQ | split; [exact HP|]]]).
      * split; [intros ps' Hps; discriminate Hps|]. split.
        -- intros k err Hk. destruct (HF k err Hk) as ((o' & Hpf & Ho) & Hno).
           split; [exists o'; split; [exact Hpf | congruence] | exact Hno].
        -- intros o' _. destruct (Hx' o eq_refl) as (k & err & Hk).
           exists k, err. apply elem_of_app. by right.
      * split; [|split; [|intros o Ho; discriminate Ho]].
        -- intros ps' _. destruct (Hok' ps1 eq_refl) as (Hnf' & Hin' & ->).
           split; [by apply Forall_app|]. split; [|reflexivity].
           intros k Hk. apply elem_of_app. destruct (decide (k = i)) as [->|Hne].
           ++ by left.
           ++ right. apply Hin'. simpl in Hk. lia.
        -- intros k err Hk. destruct (HF k err Hk) as ((o' & _ & Ho) & _).
           discriminate Ho.
Qed.

(** *** The third loop *)
Lemma writeOutput_spec r j outputCfg st t st' res :
  writeOutput W r j outputCfg st = (t, st', res) →
  Forall out_ev t
  ∧ quiet_after_failure t
  ∧ (res = None → Forall (λ ev, failed ev = false) t).
Proof.
  unfold writeOutput.
  destruct (render W r _ (Format outputCfg)) as [out [e|]]; cbn [Wrap].
  - intros [= <- <- <-]. split; [solve_Forall|]. split; [solve_quiet|].
    intros Hres. discriminate Hres.
  - destruct (bool_decide (OutputPath outputCfg ≠ "")).
    + destruct (WriteFile W (OutputPath outputCfg) out) as [e|]; cbn [Wrap];
        intros [= <- <- <-]; simpl;
        (split; [solve_Forall|]); (split; [solve_quiet|]);
        intros Hres; [discriminate Hres | solve_Forall].
    + intros [= <- <- <-]; simpl.
      split; [solve_Forall|]. split; [solve_quiet|]. intros _. solve_Forall.
Qed.

Lemma writeOutputs_spec r outputs : ∀ j st t st' res,
  writeOutputs W r j outputs st = (t, st', res) →
  Forall out_ev t
  ∧ quiet_after_failure t
  ∧ (res = None → Forall (λ ev, failed ev = false) t).
Proof.
  induction outputs as [|outputCfg rest IH]; intros j st t st' res;
    cbn [writeOutputs].
  - intros [= <- <- <-]. split; [solve_Forall|]. split; [solve_quiet|].
    intros _. solve_Forall.
  - destruct (writeOutput W r j outputCfg st) as [[t0 st1] [e|]] eqn:Hbody;
      destruct (writeOutput_spec _ _ _ _ _ _ _ Hbody) as (Hev & Hq & Hok).
    + intros [= <- <- <-]. split; [exact Hev|]. split; [exact Hq|].
      intros Hres. discriminate Hres.
    + destruct (writeOutputs W r (S j) rest st1) as [[t1 st2] res1] eqn:Hrest.
      destruct (IH _ _ _ _ _ Hrest) as (Hev' & Hq' & Hok').
      intros [= <- <- <-]. split; [by apply Forall_app|].
      split; [apply quiet_app; [by apply Hok | exact Hq']|].
      intros Hres. apply Forall_app. split; [by apply Hok | by apply Hok'].
Qed.

(** *** The shape of a run: which loop it ended in *)
Lemma runMain_shape fuel st tr st' res :
  runMain W fuel st = (tr, st', res) → run_shape W fuel st tr st' res.
Proof.
  unfold runMain.
  destruct (loadProjects W 0 _ st) as [[t1 st1] [e|ps]] eqn:H1.
  - intros [= <- <- <-]. by constructor.
  - destruct (priceProjects W fuel 0 ps st1) as [[t2 st2] [o|ps']] eqn:H2.
    + intros [= <- <- <-]. by econstructor.
    + destruct (writeOutputs W _ 0 _ st2) as [[t3 st3] r3] eqn:H3.
      intros [= <- <- <-]. by econstructor.
Qed.

Lemma run_shape_order fuel st tr st' res :
  run_shape W fuel st tr st' res →
  (∀ i e, precedes (EvLoadFromFile i None) (EvLoadResources i e) tr)
  ∧ (∀ i e, precedes (EvLoadResources i None) (EvPopulatePrices i e) tr)
  ∧ (∀ i, precedes (EvPopulatePrices i None) (EvCalculateCosts i) tr)
  ∧ (∀ i, precedes (EvCalculateCosts i) (EvCalculateDiff i) tr)
  ∧ (∀ i, (i < length (Terraform (cfgProjects (cfg st))))%nat →
          precedes (EvCalculateDiff i) EvToOutputFormat tr).
Proof.
  intros [t1 st1 e H1 | t1 st1 ps t2 st2 o H1 H2
          | t1 st1 ps t2 st2 ps' t3 st3 r3 H1 H2 H3].
  - destruct (loadProjects_spec _ _ _ _ _ _ H1) as (Hev1 & Hq1 & Hp1 & _).
    repeat split; intros; solve_prec.
  - destruct (loadProjects_spec _ _ _ _ _ _ H1) as (Hev1 & Hq1 & Hp1 & Hok1).
    destruct (Hok1 ps eq_refl) as (Hlen & Hnf1 & Hin1 & Hhp1).
    destruct (priceProjects_spec _ _ _ _ _ _ _ H2) as (Hev2 & Hq2 & Hp2 & _ & _ & _).
    split; [intros; solve_prec|]. split; [|repeat split; intros; solve_prec].
    intros i e. apply precedes_app; [solve_prec|].
    destruct (decide (EvPopulatePrices i e ∈ spinnerStart W st1 ++ t2)) as [Hin|Hnin].
    + right. apply Hin1. kill_in Hin.
    + left. by apply precedes_notin.
  - destruct (loadProjects_spec _ _ _ _ _ _ H1) as (Hev1 & Hq1 & Hp1 & Hok1).
    destruct (Hok1 ps eq_refl) as (Hlen & Hnf1 & Hin1 & Hhp1).
    destruct (priceProjects_spec _ _ _ _ _ _ _ H2) as (Hev2 & Hq2 & Hp2 & Hok2 & _ & _).
    destruct (Hok2 ps' eq_refl) as (Hnf2 & Hin2 & ->).
    destruct (writeOutputs_spec _ _ _ _ _ _ _ H3) as (Hev3 & Hq3 & _).
    split; [intros; solve_prec|]. split; [|split; [|split]].
    + intros i e. apply precedes_app; [solve_prec|].
      destruct (decide (EvPopulatePrices i e
                        ∈ spinnerStart W st1 ++ t2
                          ++ [EvSpinnerSuccess; EvToOutputFormat] ++ t3)) as [Hin|Hnin].
      * right. apply Hin1. kill_in Hin.
      * left. by apply precedes_notin.
    + intros; solve_prec.
    + intros; solve_prec.
    + intros i Hi. rewrite !app_assoc. rewrite <- (app_assoc _ [_; _] t3).
      apply precedes_app; [apply precedes_notin; solve_notin|].
      right. apply elem_of_app. right. apply Hin2. lia.
Qed.

Lemma out_ev_not_project (ev : event) : out_ev ev → project_stage ev = false.
Proof. destruct ev; simpl; done. Qed.

Lemma spinnerStart_ok (st1 : state) :
  Forall (λ ev, failed ev = false) (spinnerStart W st1).
Proof. unfold spinnerStart. solve_Forall. Qed.

Lemma run_shape_output fuel st tr st' res :
  run_shape W fuel st tr st' res →
  (∀ j k ev, tr !! j = Some EvToOutputFormat → (j < k)%nat →
             tr !! k = Some ev → project_stage ev = false)
  ∧ (∀ ev, is_output ev = true → ev ≠ EvToOutputFormat →
           precedes EvToOutputFormat ev tr)
  ∧ quiet_after_failure tr.
Proof.
  intros [t1 st1 e H1 | t1 st1 ps t2 st2 o H1 H2
          | t1 st1 ps t2 st2 ps' t3 st3 r3 H1 H2 H3].
  - destruct (loadProjects_spec _ _ _ _ _ _ H1) as (Hev1 & Hq1 & _ & _).
    split; [|split; [|exact Hq1]].
    + intros j k ev Hj. apply list_elem_of_lookup_2 in Hj. kill_in Hj.
    + intros ev Hout _. apply precedes_notin.
      destruct ev; try discriminate Hout; solve_notin.
  - destruct (loadProjects_spec _ _ _ _ _ _ H1) as (Hev1 & Hq1 & _ & Hok1).
    destruct (Hok1 ps eq_refl) as (_ & Hnf1 & _ & _).
    destruct (priceProjects_spec _ _ _ _ _ _ _ H2) as (Hev2 & Hq2 & _ & _ & _ & _).
    split; [|split].
    + intros j k ev Hj. apply list_elem_of_lookup_2 in Hj. kill_in Hj.
    + intros ev Hout _. apply precedes_notin.
      destruct ev; try discriminate Hout; solve_notin.
    + apply quiet_app; [exact Hnf1|].
      apply quiet_app; [apply spinnerStart_ok | exact Hq2].
  - destruct (loadProjects_spec _ _ _ _ _ _ H1) as (Hev1 & Hq1 & _ & Hok1).
    destruct (Hok1 ps eq_refl) as (_ & Hnf1 & _ & _).
    destruct (priceProjects_spec _ _ _ _ _ _ _ H2) as (Hev2 & Hq2 & _ & Hok2 & _ & _).
    destruct (Hok2 ps' eq_refl) as (Hnf2 & _ & ->).
    destruct (writeOutputs_spec _ _ _ _ _ _ _ H3) as (Hev3 & Hq3 & _).
    split; [|split].
    + intros j k ev Hj Hjk Hk.
      rewrite !app_assoc in Hj, Hk.
      rewrite <- (app_assoc _ [_; _] t3) in Hj, Hk.
      set (pre := (t1 ++ spinnerStart W st1) ++ t2) in *.
      assert (Hpre : EvToOutputFormat ∉ pre) by (subst pre; solve_notin).
      assert (Hj' : (length pre < j)%nat).
      { destruct (decide (j < length pre)%nat) as [Hlt|Hge].
        - rewrite lookup_app_l in Hj by exact Hlt.
          destruct Hpre. by eapply list_elem_of_lookup_2.
        - destruct (decide (j = length pre)) as [->|Hne]; [|lia].
          rewrite lookup_app_r in Hj by lia.
          rewrite Nat.sub_diag in Hj. discriminate Hj. }
      rewrite lookup_app_r in Hk by lia.
      destruct (k - length pre)%nat as [|[|k']] eqn:Hkk; [lia | lia |].
      simpl in Hk. apply out_ev_not_project.
      rewrite Forall_lookup in Hev3. by eapply Hev3.
    + intros ev Hout Hne.
      apply precedes_app; [apply precedes_notin; destruct ev;
                           try discriminate Hout; solve_notin|].
      left. apply precedes_app; [apply precedes_notin; destruct ev;
                                 try discriminate Hout; solve_notin|].
      left. apply precedes_app; [apply precedes_notin; destruct ev;
                                 try discriminate Hout; solve_notin|].
      left. cbn [app]. apply precedes_cons_skip; [by destruct ev|].
      apply precedes_cons_hit. congruence.
    + apply quiet_app; [exact Hnf1|].
      apply quiet_app; [apply spinnerStart_ok|].
      apply quiet_app; [exact Hnf2|].
      apply quiet_app; [solve_Forall | exact Hq3].
Qed.

End WithWorld.

(** C6. In every run of [runMain] the stages run in the order of the
    pipeline.  For every project (position [i]): its usage file is loaded
    before its resources are loaded, its resources are loaded before its
    prices are populated, its prices are populated before its costs are
    calculated, and its costs are calculated before its diff.  The output
    conversion runs only after the diff of every project, no stage of a
    project runs after it, and every renderer, file write and print comes
    after it.  After a call that returned an error nothing but diagnostics
    (the spinner, a line on stderr) follows. *)
Theorem runMain_stage_order (W : World) (fuel : nat) (st : state) :
  let tr := trace_of W fuel st in
  (∀ i e, precedes (EvLoadFromFile i None) (EvLoadResources i e) tr)
  ∧ (∀ i e, precedes (EvLoadResources i None) (EvPopulatePrices i e) tr)
  ∧ (∀ i, precedes (EvPopulatePrices i None) (EvCalculateCosts i) tr)
  ∧ (∀ i, precedes (EvCalculateCosts i) (EvCalculateDiff i) tr)
  ∧ (∀ i, (i < length (Terraform (cfgProjects (cfg st))))%nat →
          precedes (EvCalculateDiff i) EvToOutputFormat tr)
  ∧ (∀ j k ev, tr !! j = Some EvToOutputFormat → (j < k)%nat →
               tr !! k = Some ev → project_stage ev = false)
  ∧ (∀ ev, is_output ev = true → ev ≠ EvToOutputFormat →
           precedes EvToOutputFormat ev tr)
  ∧ quiet_after_failure tr.
Proof.
  unfold trace_of.
  destruct (runMain W fuel st) as [[tr st'] res] eqn:Hrun. simpl.
  apply runMain_shape in Hrun.
  destruct (run_shape_order W _ _ _ _ _ Hrun) as (Ha & Hb & Hc & Hd & He).
  destruct (run_shape_output W _ _ _ _ _ Hrun) as (Hf & Hg & Hh).
  repeat split; assumption.
Qed.

(** *** Strings *)
Lemma append_assoc (s1 s2 s3 : string) : (s1 +:+ s2) +:+ s3 = s1 +:+ s2 +:+ s3.
Proof.
  induction s1 as [|c s1 IH]; [reflexivity | exact (f_equal (String c) IH)].
Qed.

Lemma substring_here (s q : string) : substring s (s +:+ q).
Proof. by exists "", q. Qed.

Lemma substring_app_r (s p t : string) : substring s t → substring s (p +:+ t).
Proof.
  intros (pre & post & ->). exists (p +:+ pre), post. by rewrite append_assoc.
Qed.

Lemma substring_trans (s t u : string) :
  substring s t → substring t u → substring s u.
Proof.
  intros (p1 & q1 & ->) (p2 & q2 & ->). exists (p2 +:+ p1), (q1 +:+ q2).
  by rewrite !append_assoc.
Qed.

(** *** What [runMain] does with an error of [prices.PopulatePrices] *)
Lemma Is_loop_root (fuel : nat) (h : heap) (r target : error) :
  Unwrap h (Some r) = None →
  Is_loop fuel h r target = Some (bool_decide (r = target) || IsMethod h r target).
Proof.
  intros Hr. destruct fuel; cbn [Is_loop]; rewrite Hr;
    destruct (bool_decide (r = target)), (IsMethod h r target); reflexivity.
Qed.

Lemma Error_New (h : heap) (message : string) :
  Error (New h message).1 (New h message).2 = message.
Proof.
  unfold New, Error. cbn [fst snd]. by rewrite list_lookup_middle.
Qed.

Lemma unwrapped_exact (h : heap) (n : nat) : ∀ (e root : error) (fuel : nat),
  unwrap_n h n (Some e) = Some root → Unwrap h (Some root) = None →
  (n ≤ fuel)%nat → unwrapped fuel h (Some e) = Some (Some root).
Proof.
  induction n as [|n IH]; intros e root fuel Hn Hroot Hfuel; cbn [unwrap_n] in Hn.
  - injection Hn as ->. by rewrite unwrapped_eq, Hroot.
  - destruct (Unwrap h (Some e)) as [e'|] eqn:He.
    + destruct fuel as [|fuel]; [lia|]. rewrite unwrapped_eq, He.
      apply IH; [exact Hn | exact Hroot | lia].
    + by rewrite unwrap_n_nil in Hn.
Qed.

Lemma priceFailure_spec (W : World) (fuel n : nat) (err root : error) (st : state) :
  unwrap_n (hp st) n (Some err) = Some root →
  Unwrap (hp st) (Some root) = None → (n ≤ fuel)%nat →
  priceFailure W fuel err st = surfaced W st err root.
Proof.
  intros Hn Hroot Hfuel.
  unfold priceFailure, surfaced.
  rewrite (unwrapped_exact _ _ _ _ _ Hn Hroot Hfuel). cbn [Is].
  rewrite (Is_loop_root fuel (hp st) root _ Hroot).
  destruct (bool_decide (root = ErrInvalidAPIKey W)
            || IsMethod (hp st) root (ErrInvalidAPIKey W)); reflexivity.
Qed.

Lemma priceFailure_not_nil (W : World) (fuel : nat) (err : error) (st st' : state) :
  priceFailure W fuel err st ≠ (st', Returned None).
Proof.
  unfold priceFailure.
  destruct (unwrapped fuel (hp st) (Some err)) as [e|]; [|congruence].
  destruct (Is fuel (hp st) e (ErrInvalidAPIKey W)) as [[|]|]; [| |congruence].
  - destruct (New _ _). congruence.
  - destruct (bool_decide _); [destruct (New _ _)|]; congruence.
Qed.

Lemma load_ev_not_output lo hi ev : load_ev lo hi ev → is_output ev = false.
Proof. destruct ev; simpl; done. Qed.

Lemma price_ev_not_output lo hi ev : price_ev lo hi ev → is_output ev = false.
Proof. destruct ev; simpl; done. Qed.

(** A run in which [prices.PopulatePrices] returned [err] for project [i]
    ended in the handling of [err]; nothing was calculated for project [i]
    or a later one, and no output was produced. *)
Lemma run_shape_price_failure W fuel st tr st' res i err :
  run_shape W fuel st tr st' res →
  EvPopulatePrices i (Some err) ∈ tr →
  (∃ st1, hp st1 = hp st ∧ cfg st' = cfg st1 ∧ priceFailure W fuel err st1 = (st', res))
  ∧ (∀ k, (i ≤ k)%nat → (EvCalculateCosts k ∉ tr) ∧ (EvCalculateDiff k ∉ tr))
  ∧ (∀ ev, ev ∈ tr → is_output ev = false).
Proof.
  intros [t1 st1 e H1 | t1 st1 ps t2 st2 o H1 H2
          | t1 st1 ps t2 st2 ps' t3 st3 r3 H1 H2 H3] Hin.
  - destruct (loadProjects_spec _ _ _ _ _ _ _ H1) as (Hev1 & _). kill_in Hin.
  - destruct (loadProjects_spec _ _ _ _ _ _ _ H1) as (Hev1 & _ & _ & Hok1).
    destruct (Hok1 ps eq_refl) as (_ & _ & _ & Hhp1).
    destruct (priceProjects_spec _ _ _ _ _ _ _ _ H2) as (Hev2 & _ & _ & _ & Hf & _).
    assert (Hin2 : EvPopulatePrices i (Some err) ∈ t2).
    { rewrite !elem_of_app in Hin. destruct Hin as [Hin|[Hin|Hin]];
        [kill_in Hin | kill_in Hin | exact Hin]. }
    destruct (Hf i err Hin2) as ((o' & Hpf & Ho) & Hno). injection Ho as <-.
    split; [|split].
    + exists st1. split; [exact Hhp1|]. split; [|exact Hpf].
      revert Hpf. unfold priceFailure.
      destruct (unwrapped _ _ _) as [x|]; [|by intros [= <- _]].
      destruct (Is _ _ _ _) as [[|]|]; [| |by intros [= <- _]].
      * destruct (New _ _). by intros [= <- _].
      * destruct (bool_decide _); [destruct (New _ _)|]; by intros [= <- _].
    + intros k Hk. destruct (Hno k Hk) as [Hc Hd].
      split; intros Hx; rewrite !elem_of_app in Hx;
        destruct Hx as [Hx|[Hx|Hx]]; try done; kill_in Hx.
    + intros ev Hev. rewrite !elem_of_app in Hev. destruct Hev as [Hev|[Hev|Hev]].
      * rewrite Forall_forall in Hev1. by eapply load_ev_not_output, Hev1.
      * unfold spinnerStart in Hev. apply list_elem_of_singleton in Hev. by subst ev.
      * rewrite Forall_forall in Hev2. by eapply price_ev_not_output, Hev2.
  - destruct (loadProjects_spec _ _ _ _ _ _ _ H1) as (Hev1 & _ & _ & Hok1).
    destruct (priceProjects_spec _ _ _ _ _ _ _ _ H2) as (Hev2 & _ & _ & Hok2 & _ & _).
    destruct (Hok2 ps' eq_refl) as (Hnf2 & _ & _).
    destruct (writeOutputs_spec _ _ _ _ _ _ _ _ H3) as (Hev3 & _ & _).
    exfalso. kill_in Hin.
Qed.

Lemma invalidKeyMessage_names (W : World) (eText : string) :
  substring (PrimaryString W (CredentialsFilePath W)) (invalidKeyMessage W eText)
  ∧ substring (PrimaryString W "INFRACOST_API_KEY") (invalidKeyMessage W eText).
Proof.
  unfold invalidKeyMessage.
  split; repeat first [ apply substring_here | apply substring_app_r ].
Qed.

(** C1. In every run in which [prices.PopulatePrices] fails for a project
    with an error whose root cause (the end of its chain of [Unwrap]s) is
    [prices.ErrInvalidAPIKey], [runMain] returns a non-nil error.  Its
    message is the text of the root cause followed by the advice that names
    the credentials file path and the [INFRACOST_API_KEY] variable (both as
    [ui.PrimaryString] prints them, hence literally whenever that function
    keeps its argument).  Neither [schema.CalculateCosts] nor
    [project.CalculateDiff] is called for that project or a later one, and
    there is no output: no conversion, no renderer, no file write and
    nothing on the standard output. *)
Theorem runMain_invalid_api_key (W : World) (fuel n : nat) (st st' : state)
    (tr : list event) (res : outcome) (i : nat) (err : error) :
  runMain W fuel st = (tr, st', res) →
  EvPopulatePrices i (Some err) ∈ tr →
  unwrap_n (hp st) n (Some err) = Some (ErrInvalidAPIKey W) →
  Unwrap (hp st) (Some (ErrInvalidAPIKey W)) = None →
  (n ≤ fuel)%nat →
  (∃ r, res = Returned (Some r)
        ∧ Error (hp st') r
          = invalidKeyMessage W (Error (hp st) (ErrInvalidAPIKey W))
        ∧ substring (PrimaryString W (CredentialsFilePath W)) (Error (hp st') r)
        ∧ substring (PrimaryString W "INFRACOST_API_KEY") (Error (hp st') r)
        ∧ ((∀ s, substring s (PrimaryString W s)) →
           substring (CredentialsFilePath W) (Error (hp st') r)
           ∧ substring "INFRACOST_API_KEY" (Error (hp st') r)))
  ∧ (∀ k, (i ≤ k)%nat → (EvCalculateCosts k ∉ tr) ∧ (EvCalculateDiff k ∉ tr))
  ∧ (∀ ev, ev ∈ tr → is_output ev = false).
Proof.
  intros Hrun Hin Hn Hroot Hfuel. apply runMain_shape in Hrun.
  destruct (run_shape_price_failure _ _ _ _ _ _ _ _ Hrun Hin)
    as ((st1 & Hhp & _ & Hpf) & Hno & Hout).
  split; [|split; [exact Hno | exact Hout]].
  rewrite <- Hhp in Hn, Hroot.
  rewrite (priceFailure_spec W fuel n err _ st1 Hn Hroot Hfuel) in Hpf.
  unfold surfaced in Hpf. rewrite bool_decide_eq_true_2 in Hpf by reflexivity.
  cbn [orb] in Hpf.
  pose proof (Error_New (hp st1)
                (invalidKeyMessage W (Error (hp st1) (ErrInvalidAPIKey W)))) as Hmsg.
  destruct (New (hp st1) _) as [h' r]. injection Hpf as <- <-. cbn [fst snd hp] in *.
  exists r. split; [reflexivity|]. rewrite Hmsg, <- Hhp.
  destruct (invalidKeyMessage_names W (Error (hp st1) (ErrInvalidAPIKey W)))
    as [Hpath Hkey].
  split; [reflexivity|]. split; [exact Hpath|]. split; [exact Hkey|].
  intros Hkeep. split; eapply substring_trans; eauto.
Qed.

(** [runMain] passes on every error of [prices.PopulatePrices].  In a run
    in which [prices.PopulatePrices] returned the error [err] for project
    [i], the chain of causes of [err] ending in [root]: [runMain] returns a
    non-nil error -- the invalid-key advice if [root] is
    [prices.ErrInvalidAPIKey] or has an [Is] method that accepts it;
    otherwise, for a [*prices.PricingAPIError], a new error whose message
    is the text of [err] followed by "We have been notified of this
    issue."; otherwise [err] itself -- it calculates neither costs nor
    diff for project [i] or a later one, and it produces no output.
    Conversely a run returns nil, or reaches the output conversion, only
    if [prices.PopulatePrices] returned nil for every project it was
    called on. *)
Theorem runMain_pricing_error_surfaces (W : World) (fuel : nat) (st st' : state)
    (tr : list event) (res : outcome) :
  runMain W fuel st = (tr, st', res) →
  (∀ i err n root,
     EvPopulatePrices i (Some err) ∈ tr →
     unwrap_n (hp st) n (Some err) = Some root →
     Unwrap (hp st) (Some root) = None →
     (n ≤ fuel)%nat →
     (∃ r, res = Returned (Some r)
           ∧ if bool_decide (root = ErrInvalidAPIKey W)
                || IsMethod (hp st) root (ErrInvalidAPIKey W)
             then Error (hp st') r = invalidKeyMessage W (Error (hp st) root)
             else if bool_decide (typeOf (hp st) err = PricingAPIError)
             then Error (hp st') r = notifiedMessage (Error (hp st) err)
             else r = err ∧ hp st' = hp st)
     ∧ (∀ k, (i ≤ k)%nat → (EvCalculateCosts k ∉ tr) ∧ (EvCalculateDiff k ∉ tr))
     ∧ (∀ ev, ev ∈ tr → is_output ev = false))
  ∧ (res = Returned None ∨ EvToOutputFormat ∈ tr →
     ∀ i e, EvPopulatePrices i e ∈ tr → e = None).
Proof.
  intros Hrun. apply runMain_shape in Hrun. split.
  - intros i err n root Hin Hn Hroot Hfuel.
    destruct (run_shape_price_failure _ _ _ _ _ _ _ _ Hrun Hin)
      as ((st1 & Hhp & _ & Hpf) & Hno & Hout).
    split; [|split; [exact Hno | exact Hout]].
    rewrite <- Hhp in Hn, Hroot.
    rewrite (priceFailure_spec W fuel n err root st1 Hn Hroot Hfuel) in Hpf.
    unfold surfaced in Hpf. rewrite <- Hhp.
    destruct (bool_decide (root = ErrInvalidAPIKey W)
              || IsMethod (hp st1) root (ErrInvalidAPIKey W)).
    + pose proof (Error_New (hp st1) (invalidKeyMessage W (Error (hp st1) root))) as Hmsg.
      destruct (New (hp st1) _) as [h' r]. injection Hpf as <- <-.
      exists r. split; [reflexivity | exact Hmsg].
    + destruct (bool_decide (typeOf (hp st1) err = PricingAPIError)).
      * pose proof (Error_New (hp st1) (notifiedMessage (Error (hp st1) err))) as Hmsg.
        destruct (New (hp st1) _) as [h' r]. injection Hpf as <- <-.
        exists r. split; [reflexivity | exact Hmsg].
      * injection Hpf as <- <-. exists err. split; [reflexivity | by split].
  - intros Hok i [err|] Hin; [exfalso | reflexivity].
    destruct (run_shape_price_failure _ _ _ _ _ _ _ _ Hrun Hin)
      as ((st1 & _ & _ & Hpf) & _ & Hout).
    destruct Hok as [-> | Htof].
    + by apply priceFailure_not_nil in Hpf.
    + specialize (Hout _ Htof). discriminate Hout.
Qed.

(** *** The theorems at work on sample runs *)
Section Samples.
Import samples.

Ltac by_compute := refine (bool_decide_unpack _ _); vm_compute; exact I.

Lemma triple_eta {A B C : Type} (x : A * B * C) : x = (x.1.1, x.1.2, x.2).
Proof. by destruct x as [[? ?] ?]. Qed.

Lemma sample_PrimaryString_keeps (answer : string → option error) (s : string) :
  substring s (PrimaryString (sampleWorld answer) s).
Proof. simpl. repeat first [ apply substring_here | apply substring_app_r ]. Qed.

Lemma runMain_invalid_api_key_witness :
  let W := sampleWorld (failsOnB 2%nat) in
  let run := runMain W 2 sampleState in
  (∃ r, run.2 = Returned (Some r)
        ∧ substring (CredentialsFilePath W) (Error (hp run.1.2) r)
        ∧ substring "INFRACOST_API_KEY" (Error (hp run.1.2) r))
  ∧ EvCalculateCosts 0 ∈ run.1.1
  ∧ (EvCalculateCosts 1 ∉ run.1.1)
  ∧ (EvToOutputFormat ∉ run.1.1).
Proof.
  intros W run.
  destruct (runMain_invalid_api_key W 2 2 sampleState run.1.2 run.1.1 run.2
              1%nat 2%nat)
    as ((r & Hr & _ & _ & _ & Hnames) & Hno & Hout).
  - apply triple_eta.
  - by_compute.
  - reflexivity.
  - reflexivity.
  - lia.
  - split; [|split; [|split]].
    + exists r. split; [exact Hr|]. apply Hnames.
      apply sample_PrimaryString_keeps.
    + by_compute.
    + apply Hno. lia.
    + intros Hin. specialize (Hout _ Hin). discriminate Hout.
Defined.

Lemma runMain_pricing_error_surfaces_witness :
  let W := sampleWorld (failsOnB 3%nat) in
  let run := runMain W 0 sampleState in
  (∃ r, run.2 = Returned (Some r)
        ∧ Error (hp run.1.2) r
          = notifiedMessage "Received error from API: Internal server error")
  ∧ (EvCalculateDiff 1 ∉ run.1.1)
  ∧ (EvToOutputFormat ∉ run.1.1).
Proof.
  intros W run.
  destruct (runMain_pricing_error_surfaces W 0 sampleState run.1.2 run.1.1 run.2)
    as [Hfail _].
  - apply triple_eta.
  - destruct (Hfail 1%nat 3%nat 0%nat 3%nat) as ((r & Hr & Hmsg) & Hno & Hout).
    + by_compute.
    + reflexivity.
    + reflexivity.
    + lia.
    + split; [|split].
      * exists r. split; [exact Hr | exact Hmsg].
      * apply Hno. lia.
      * intros Hin. specialize (Hout _ Hin). discriminate Hout.
Defined.

Lemma runMain_stage_order_witness :
  let tr := trace_of (sampleWorld (λ _, None)) 0 sampleState in
  EvToOutputFormat ∈ tr
  ∧ precedes (EvLoadResources 1 None) (EvPopulatePrices 1 None) tr
  ∧ precedes (EvCalculateDiff 1) EvToOutputFormat tr
  ∧ quiet_after_failure tr.
Proof.
  intros tr.
  destruct (runMain_stage_order (sampleWorld (λ _, None)) 0 sampleState)
    as (_ & Hb & _ & _ & He & _ & _ & Hq).
  split; [by_compute|].
  split; [apply Hb|]. split; [apply He; simpl; lia | exact Hq].
Defined.

End Samples.

(** ** More about [runMain] *)
Section MoreRunMain.
Variable W : World.

Lemma precedes_in (a b : event) (t : list event) :
  precedes a b t → b ∈ t → a ∈ t.
Proof.
  intros Hp Hb. apply list_elem_of_lookup_1 in Hb as [j Hj].
  destruct (Hp j Hj) as (k & _ & Hk). by eapply list_elem_of_lookup_2.
Qed.

(** *** Errors of the first loop *)
Lemma loadProject_failure i pc st t st' r :
  loadProject W i pc st = (t, st', r) →
  (∀ k err, EvLoadFromFile k (Some err) ∈ t ∨ EvLoadResources k (Some err) ∈ t →
            r = inl err ∧ hp st' = hp st)
  ∧ (∀ k, EvDetect k false ∈ t →
          r = inl (length (hp st))
          ∧ hp st' = hp st ++ [mkObject fundamental detectMessage None []]).
Proof.
  unfold loadProject.
  destruct (Detect W _ pc) as [provider|].
  - destruct (IsLogging W _);
      (destruct (usage_LoadFromFile W (UsageFile pc)) as [u [e1|]];
       [| destruct (LoadResources provider u) as [p0 [e2|]]]);
      intros [= <- <- <-]; simpl;
      (split; [intros k err [Hin|Hin] | intros k Hin]);
      rewrite ?elem_of_cons, elem_of_nil in Hin;
      repeat (destruct Hin as [Hin|Hin]; try discriminate Hin);
      try done; injection Hin as _ <-; by split.
  - intros [= <- <- <-]. split.
    + intros k err [Hin|Hin]; rewrite !elem_of_cons, elem_of_nil in Hin;
        repeat (destruct Hin as [Hin|Hin]; try discriminate Hin); done.
    + intros k _. by split.
Qed.

Lemma loadProjects_failure cfgs : ∀ i st t st' r,
  loadProjects W i cfgs st = (t, st', r) →
  (∀ k err, EvLoadFromFile k (Some err) ∈ t ∨ EvLoadResources k (Some err) ∈ t →
            r = inl err ∧ hp st' = hp st)
  ∧ (∀ k, EvDetect k false ∈ t →
          r = inl (length (hp st))
          ∧ hp st' = hp st ++ [mkObject fundamental detectMessage None []]).
Proof.
  induction cfgs as [|pc rest IH]; intros i st t st' r; cbn [loadProjects].
  - intros [= <- <- <-]. split.
    + intros k err [Hin|Hin]; by apply elem_of_nil in Hin.
    + intros k Hin. by apply elem_of_nil in Hin.
  - destruct (loadProject W i pc st) as [[t0 st1] [e|p]] eqn:Hbody.
    + intros [= <- <- <-].
      destruct (loadProject_failure _ _ _ _ _ _ Hbody) as (Hf & Hd). split.
      * intros k err Hin. destruct (Hf k err Hin) as [[= ->] ?]. by split.
      * intros k Hin. destruct (Hd k Hin) as [[= ->] ?]. by split.
    + destruct (loadProject_spec W _ _ _ _ _ _ Hbody) as (_ & _ & _ & Hok).
      destruct (Hok p eq_refl) as (Hnf & _ & Hhp).
      rewrite Forall_forall in Hnf.
      destruct (loadProjects W (S i) rest st1) as [[t1 st2] r1] eqn:Hrest.
      destruct (IH _ _ _ _ _ Hrest) as (Hf & Hd). rewrite Hhp in Hf, Hd.
      assert (Hf' : ∀ k err, EvLoadFromFile k (Some err) ∈ t0 ++ t1
                             ∨ EvLoadResources k (Some err) ∈ t0 ++ t1 →
                             r1 = inl err ∧ hp st2 = hp st).
      { intros k err Hin. apply (Hf k err).
        destruct Hin as [Hin|Hin]; apply elem_of_app in Hin as [Hin|Hin];
          try (by left); try (by right);
          specialize (Hnf _ Hin); discriminate Hnf. }
      assert (Hd' : ∀ k, EvDetect k false ∈ t0 ++ t1 →
                r1 = inl (length (hp st))
                ∧ hp st2 = hp st ++ [mkObject fundamental detectMessage None []]).
      { intros k Hin. apply (Hd k). apply elem_of_app in Hin as [Hin|Hin]; [|done].
        specialize (Hnf _ Hin). discriminate Hnf. }
      destruct r1 as [e|ps]; intros [= <- <- <-]; split.
      * intros k err Hin. destruct (Hf' k err Hin) as [[= ->] ?]. by split.
      * intros k Hin. destruct (Hd' k Hin) as [[= ->] ?]. by split.
      * intros k err Hin. destruct (Hf' k err Hin) as [? ?]. discriminate.
      * intros k Hin. destruct (Hd' k Hin) as [? ?]. discriminate.
Qed.

(** When a project cannot be loaded, [runMain] ends in the first loop: an
    error of [usage.LoadFromFile] or of [LoadResources] is returned as it
    is, a provider that is not detected gives the new error "Could not
    detect path type"; the trace then holds nothing but events of the
    loading loop: no spinner, no price lookup, no output. *)
Theorem runMain_load_error fuel st tr st' res :
  runMain W fuel st = (tr, st', res) →
  (∀ k err, EvLoadFromFile k (Some err) ∈ tr ∨ EvLoadResources k (Some err) ∈ tr →
            res = Returned (Some err) ∧ hp st' = hp st)
  ∧ (∀ k, EvDetect k false ∈ tr →
          ∃ r, res = Returned (Some r)
               ∧ Error (hp st') r = "Could not detect path type"
               ∧ Unwrap (hp st') (Some r) = None)
  ∧ ((∃ k, EvDetect k false ∈ tr
           ∨ ∃ err, EvLoadFromFile k (Some err) ∈ tr
                    ∨ EvLoadResources k (Some err) ∈ tr) →
     Forall (load_ev 0 (length (Terraform (cfgProjects (cfg st))))) tr).
Proof.
  intros Hrun. apply runMain_shape in Hrun.
  destruct Hrun as [t1 st1 e H1 | t1 st1 ps t2 st2 o H1 H2
                    | t1 st1 ps t2 st2 ps' t3 st3 r3 H1 H2 H3].
  - destruct (loadProjects_spec W _ _ _ _ _ _ H1) as (Hev1 & _).
    destruct (loadProjects_failure _ _ _ _ _ _ H1) as (Hf & Hd).
    split; [|split; [|by intros _]].
    + intros k err Hin. destruct (Hf k err Hin) as [[= ->] ?]. by split.
    + intros k Hin. destruct (Hd k Hin) as [[= ->] ->].
      exists (length (hp st)). split; [reflexivity|].
      unfold Error, Unwrap. cbn. by rewrite list_lookup_middle.
  - destruct (loadProjects_spec W _ _ _ _ _ _ H1) as (Hev1 & _ & _ & Hok1).
    destruct (Hok1 ps eq_refl) as (_ & Hnf1 & _ & _).
    destruct (priceProjects_spec W _ _ _ _ _ _ _ H2) as (Hev2 & _).
    split; [|split].
    + intros k err [Hin|Hin]; kill_in Hin.
    + intros k Hin. kill_in Hin.
    + intros (k & [Hin | (err & [Hin|Hin])]); kill_in Hin.
  - destruct (loadProjects_spec W _ _ _ _ _ _ H1) as (Hev1 & _ & _ & Hok1).
    destruct (Hok1 ps eq_refl) as (_ & Hnf1 & _ & _).
    destruct (priceProjects_spec W _ _ _ _ _ _ _ H2) as (Hev2 & _).
    destruct (writeOutputs_spec W _ _ _ _ _ _ _ H3) as (Hev3 & _).
    split; [|split].
    + intros k err [Hin|Hin]; kill_in Hin.
    + intros k Hin. kill_in Hin.
    + intros (k & [Hin | (err & [Hin|Hin])]); kill_in Hin.
Qed.

(** The two loops do not interleave: every project has been loaded, and
    the spinner started, before the price of any project is looked up. *)
Theorem runMain_loads_before_pricing fuel st :
  let tr := trace_of W fuel st in
  (∀ k i e, (k < length (Terraform (cfgProjects (cfg st))))%nat →
            precedes (EvLoadResources k None) (EvPopulatePrices i e) tr)
  ∧ (∀ i e j, tr !! j = Some (EvPopulatePrices i e) →
              ∃ j' opts, (j' < j)%nat
                ∧ tr !! j' = Some (EvNewSpinner "Calculating cost estimate" opts)).
Proof.
  unfold trace_of.
  destruct (runMain W fuel st) as [[tr st'] res] eqn:Hrun. cbn [fst].
  apply runMain_shape in Hrun.
  destruct Hrun as [t1 st1 e0 H1 | t1 st1 ps t2 st2 o H1 H2
                    | t1 st1 ps t2 st2 ps' t3 st3 r3 H1 H2 H3].
  - destruct (loadProjects_spec W _ _ _ _ _ _ H1) as (Hev1 & _).
    split.
    + intros k i e _. apply precedes_notin. solve_notin.
    + intros i e j Hj. apply list_elem_of_lookup_2 in Hj. kill_in Hj.
  - destruct (loadProjects_spec W _ _ _ _ _ _ H1) as (Hev1 & _ & _ & Hok1).
    destruct (Hok1 ps eq_refl) as (_ & _ & Hin1 & _).
    split.
    + intros k i e Hk. apply precedes_app; [apply precedes_notin; solve_notin|].
      right. apply Hin1. lia.
    + intros i e j Hj.
      assert (Hp : precedes (EvNewSpinner "Calculating cost estimate"
                     (mkSpinnerOptions (IsLogging W (cfg st1)) (NoColor (cfg st1))))
                     (EvPopulatePrices i e) (t1 ++ spinnerStart W st1 ++ t2)).
      { apply precedes_app; [apply precedes_notin; solve_notin|]. left.
        unfold spinnerStart. cbn [app]. apply precedes_cons_hit. congruence. }
      destruct (Hp j Hj) as (j' & Hlt & Hj'). eexists j', _. by split.
  - destruct (loadProjects_spec W _ _ _ _ _ _ H1) as (Hev1 & _ & _ & Hok1).
    destruct (Hok1 ps eq_refl) as (_ & _ & Hin1 & _).
    split.
    + intros k i e Hk. apply precedes_app; [apply precedes_notin; solve_notin|].
      right. apply Hin1. lia.
    + intros i e j Hj.
      assert (Hp : precedes (EvNewSpinner "Calculating cost estimate"
                     (mkSpinnerOptions (IsLogging W (cfg st1)) (NoColor (cfg st1))))
                     (EvPopulatePrices i e)
                     (t1 ++ spinnerStart W st1 ++ t2
                      ++ [EvSpinnerSuccess; EvToOutputFormat] ++ t3)).
      { apply precedes_app; [apply precedes_notin; solve_notin|]. left.
        unfold spinnerStart. cbn [app]. apply precedes_cons_hit. congruence. }
      destruct (Hp j Hj) as (j' & Hlt & Hj'). eexists j', _. by split.
Qed.

(** *** The third loop, output by output *)
Ltac in_list H :=
  rewrite ?elem_of_app, ?elem_of_cons, ?elem_of_nil in H;
  repeat (destruct H as [H|H]); try discriminate H; try done.

Lemma writeOutput_more r j o st t st' res :
  writeOutput W r j o st = (t, st', res) →
  (res = None → EvRender j (Format o) None ∈ t ∧ hp st' = hp st)
  ∧ (∀ path data e, EvWriteFile path data e ∈ t → path = OutputPath o ∧ path ≠ "")
  ∧ (∀ s, EvStdout s ∈ t → OutputPath o = "")
  ∧ (∀ k f err, EvRender k f (Some err) ∈ t →
       Wrap (hp st) (Some err) "Error generating output" = (hp st', res))
  ∧ (∀ path data err, EvWriteFile path data (Some err) ∈ t →
       Wrap (hp st) (Some err) "Error saving output" = (hp st', res))
  ∧ Outputs (cfg st') = Outputs (cfg st).
Proof.
  unfold writeOutput.
  destruct (render W r _ (Format o)) as [out [e|]]; cbn [Wrap].
  - intros [= <- <- <-]. cbn [hp cfg withEnvironment Outputs].
    split; [intros Hres; discriminate Hres|].
    split; [intros path data e' H; in_list H|].
    split; [intros s H; in_list H|].
    split; [intros k f err H; in_list H; by simplify_eq|].
    split; [intros path data err H; in_list H | reflexivity].
  - destruct (bool_decide (OutputPath o ≠ "")) eqn:Hpath.
    + apply bool_decide_eq_true in Hpath.
      destruct (WriteFile W (OutputPath o) out) as [e|]; cbn [Wrap];
        intros [= <- <- <-]; cbn [hp cfg withEnvironment Outputs app];
        (split; [intros Hres; first [discriminate Hres
                                    | split; [set_solver | reflexivity]]|]);
        (split; [intros path data e' H; in_list H; by simplify_eq|]);
        (split; [intros s H; in_list H|]);
        (split; [intros k f err H; in_list H|]);
        (split; [intros path data err H; in_list H; by simplify_eq | reflexivity]).
    + apply bool_decide_eq_false in Hpath.
      intros [= <- <- <-]; cbn [hp cfg withEnvironment Outputs app].
      split; [intros _; split; [set_solver | reflexivity]|].
      split; [intros path data e' H; in_list H|].
      split; [intros s _; by destruct (decide (OutputPath o = ""))|].
      split; [intros k f err H; in_list H|].
      split; [intros path data err H; in_list H | reflexivity].
Qed.

Lemma writeOutputs_more r outputs : ∀ j st t st' res,
  writeOutputs W r j outputs st = (t, st', res) →
  (res = None →
     (∀ k o, outputs !! k = Some o → EvRender (j + k) (Format o) None ∈ t)
     ∧ hp st' = hp st)
  ∧ (∀ path data e, EvWriteFile path data e ∈ t →
       path ≠ "" ∧ ∃ o, o ∈ outputs ∧ OutputPath o = path)
  ∧ (∀ s, EvStdout s ∈ t → ∃ o, o ∈ outputs ∧ OutputPath o = "")
  ∧ (∀ k f err, EvRender k f (Some err) ∈ t →
       Wrap (hp st) (Some err) "Error generating output" = (hp st', res))
  ∧ (∀ path data err, EvWriteFile path data (Some err) ∈ t →
       Wrap (hp st) (Some err) "Error saving output" = (hp st', res)).
Proof.
  induction outputs as [|o rest IH]; intros j st t st' res; cbn [writeOutputs].
  - intros [= <- <- <-].
    split; [intros _; split; [intros k o Hk; by rewrite lookup_nil in Hk | reflexivity]|].
    repeat split; intros; match goal with H : _ ∈ [] |- _ => by apply elem_of_nil in H end.
  - destruct (writeOutput W r j o st) as [[t0 st1] [e|]] eqn:Hbody;
      destruct (writeOutput_more _ _ _ _ _ _ _ Hbody) as (Hok & Hw & Hs & Hr & Hwe & _).
    + intros [= <- <- <-].
      split; [intros Hres; discriminate Hres|].
      split; [intros path data e' Hin; destruct (Hw _ _ _ Hin) as [-> Hne];
              split; [exact Hne | exists o; split; [by left | reflexivity]]|].
      split; [intros s Hin; exists o; split; [by left | by eapply Hs]|].
      split; [exact Hr | exact Hwe].
    + destruct (Hok eq_refl) as (Hin0 & Hhp0).
      destruct (writeOutput_spec W _ _ _ _ _ _ _ Hbody) as (_ & _ & Hnf0).
      specialize (Hnf0 eq_refl). rewrite Forall_forall in Hnf0.
      destruct (writeOutputs W r (S j) rest st1) as [[t1 st2] res1] eqn:Hrest.
      destruct (IH _ _ _ _ _ Hrest) as (Hok' & Hw' & Hs' & Hr' & Hwe').
      rewrite Hhp0 in Hok', Hr', Hwe'.
      intros [= <- <- <-]. split; [|split; [|split; [|split]]].
      * intros Hres. destruct (Hok' Hres) as (Hall & Hhp). split; [|exact Hhp].
        intros [|k] o' Hk; cbn in Hk.
        -- injection Hk as <-. rewrite Nat.add_0_r. apply elem_of_app. by left.
        -- apply elem_of_app. right.
           replace (j + S k)%nat with (S j + k)%nat by lia. by apply Hall.
      * intros path data e' Hin. apply elem_of_app in Hin as [Hin|Hin].
        -- destruct (Hw _ _ _ Hin) as [-> Hne].
           split; [exact Hne | exists o; split; [by left | reflexivity]].
        -- destruct (Hw' _ _ _ Hin) as (Hne & o' & Ho' & Hp).
           split; [exact Hne | exists o'; split; [by right | exact Hp]].
      * intros s Hin. apply elem_of_app in Hin as [Hin|Hin].
        -- exists o. split; [by left | by eapply Hs].
        -- destruct (Hs' _ Hin) as (o' & Ho' & Hp).
           exists o'. split; [by right | exact Hp].
      * intros k f err Hin. apply elem_of_app in Hin as [Hin|Hin].
        -- specialize (Hnf0 _ Hin). discriminate Hnf0.
        -- by eapply Hr'.
      * intros path data err Hin. apply elem_of_app in Hin as [Hin|Hin].
        -- specialize (Hnf0 _ Hin). discriminate Hnf0.
        -- by eapply Hwe'.
Qed.

(** The loops write [cfg.Environment] only: the outputs stay. *)
Lemma loadProjects_outputs cfgs : ∀ i st t st' r,
  loadProjects W i cfgs st = (t, st', r) → Outputs (cfg st') = Outputs (cfg st).
Proof.
  induction cfgs as [|pc rest IH]; intros i st t st' r; cbn [loadProjects].
  - by intros [= <- <- <-].
  - destruct (loadProject W i pc st) as [[t0 st1] r0] eqn:Hbody.
    assert (H0 : Outputs (cfg st1) = Outputs (cfg st)).
    { revert Hbody. unfold loadProject.
      destruct (Detect W _ pc) as [provider|]; [|by intros [= <- <- <-]].
      destruct (usage_LoadFromFile W (UsageFile pc)) as [u [e1|]];
        [by intros [= <- <- <-]|].
      destruct (LoadResources provider u) as [p0 [e2|]];
        destruct (bool_decide (0 < size u)%nat); by intros [= <- <- <-]. }
    destruct r0 as [e|p]; [by intros [= <- <- <-]|].
    destruct (loadProjects W (S i) rest st1) as [[t1 st2] r1] eqn:Hrest.
    rewrite <- H0, <- (IH _ _ _ _ _ Hrest).
    destruct r1; by intros [= <- <- <-].
Qed.

Lemma Wrap_facts (h h' : heap) (err : error) (message : string) (res : option error) :
  Wrap h (Some err) message = (h', res) →
  ∃ r, res = Some r
       ∧ Error h' r = message +:+ ": " +:+ Error h err
       ∧ typeOf h' r = withStack
       ∧ unwrap_n h' 2 (Some r) = Some err.
Proof.
  cbn [Wrap]. intros [= <- <-]. exists (S (length h)). split; [reflexivity|].
  assert (H1 : ∀ x y : object, (h ++ [x; y]) !! S (length h) = Some y).
  { intros x y. rewrite lookup_app_r by lia.
    by replace (S (length h) - length h)%nat with 1%nat by lia. }
  assert (H0 : ∀ x y : object, (h ++ [x; y]) !! length h = Some x).
  { intros x y. by rewrite list_lookup_middle. }
  unfold Error, typeOf. rewrite !H1. split; [reflexivity|]. split; [reflexivity|].
  cbn [unwrap_n]. unfold Unwrap. cbn. rewrite H1. cbn. by rewrite H0.
Qed.

(** A nil return means a complete run: every configured project was
    loaded, priced, costed and diffed, the spinner ended in success, the
    conversion ran, every configured output was rendered without error,
    no call at all returned an error, and no error object was created. *)
Theorem runMain_nil_complete fuel st tr st' :
  runMain W fuel st = (tr, st', Returned None) →
  (∀ i, (i < length (Terraform (cfgProjects (cfg st))))%nat →
        EvLoadResources i None ∈ tr ∧ EvPopulatePrices i None ∈ tr
        ∧ EvCalculateCosts i ∈ tr ∧ EvCalculateDiff i ∈ tr)
  ∧ EvSpinnerSuccess ∈ tr
  ∧ EvToOutputFormat ∈ tr
  ∧ (∀ j o, Outputs (cfg st) !! j = Some o → EvRender j (Format o) None ∈ tr)
  ∧ Forall (λ ev, failed ev = false) tr
  ∧ hp st' = hp st.
Proof.
  intros Hrun. apply runMain_shape in Hrun.
  remember (Returned None) as res eqn:Hres.
  destruct Hrun as [t1 st1 e H1 | t1 st1 ps t2 st2 o H1 H2
                    | t1 st1 ps t2 st2 ps' t3 st3 r3 H1 H2 H3].
  - discriminate Hres.
  - exfalso. subst o.
    destruct (priceProjects_spec W _ _ _ _ _ _ _ H2) as (_ & _ & _ & _ & Hf & Hx).
    destruct (Hx _ eq_refl) as (k & err & Hin).
    destruct (Hf k err Hin) as ((o' & Hpf & [= <-]) & _).
    exact (priceFailure_not_nil W fuel err st1 st2 Hpf).
  - injection Hres as ->.
    destruct (loadProjects_spec W _ _ _ _ _ _ H1) as (_ & _ & _ & Hok1).
    destruct (Hok1 ps eq_refl) as (Hlen & Hnf1 & Hin1 & Hhp1).
    pose proof (loadProjects_outputs _ _ _ _ _ _ H1) as Hout1.
    destruct (priceProjects_spec W _ _ _ _ _ _ _ H2) as (_ & _ & Hp2 & Hok2 & _ & _).
    destruct (Hok2 ps' eq_refl) as (Hnf2 & Hin2 & ->).
    destruct (writeOutputs_spec W _ _ _ _ _ _ _ H3) as (_ & _ & Hnf3).
    destruct (writeOutputs_more _ _ _ _ _ _ _ H3) as (Hok3 & _).
    destruct (Hok3 eq_refl) as (Hall3 & Hhp3).
    split; [|split; [|split; [|split; [|split]]]].
    + intros i Hi.
      assert (Hd : EvCalculateDiff i ∈ t2) by (apply Hin2; lia).
      assert (Hc : EvCalculateCosts i ∈ t2)
        by exact (precedes_in _ _ _ (proj2 (Hp2 i)) Hd).
      assert (Hpp : EvPopulatePrices i None ∈ t2)
        by exact (precedes_in _ _ _ (proj1 (Hp2 i)) Hc).
      rewrite !elem_of_app. split; [left; apply Hin1; lia|]. tauto.
    + rewrite !elem_of_app, !elem_of_cons. tauto.
    + rewrite !elem_of_app, !elem_of_cons. tauto.
    + intros j o Hj. rewrite !elem_of_app. do 4 right.
      rewrite <- Hout1 in Hj. exact (Hall3 j o Hj).
    + rewrite !Forall_app. split; [exact Hnf1|]. split; [apply spinnerStart_ok|].
      split; [exact Hnf2|]. split; [solve_Forall | by apply Hnf3].
    + congruence.
Qed.

(** [runMain] writes to no file but those the outputs name, and prints an
    estimate to the standard output only for an output without a path. *)
Theorem runMain_destinations fuel st :
  let tr := trace_of W fuel st in
  (∀ path data e, EvWriteFile path data e ∈ tr →
     path ≠ "" ∧ ∃ o, o ∈ Outputs (cfg st) ∧ OutputPath o = path)
  ∧ (∀ s, EvStdout s ∈ tr → ∃ o, o ∈ Outputs (cfg st) ∧ OutputPath o = "").
Proof.
  unfold trace_of.
  destruct (runMain W fuel st) as [[tr st'] res] eqn:Hrun. cbn [fst].
  apply runMain_shape in Hrun.
  destruct Hrun as [t1 st1 e0 H1 | t1 st1 ps t2 st2 o H1 H2
                    | t1 st1 ps t2 st2 ps' t3 st3 r3 H1 H2 H3].
  - destruct (loadProjects_spec W _ _ _ _ _ _ H1) as (Hev1 & _).
    split; intros; match goal with H : _ ∈ _ |- _ => kill_in H end.
  - destruct (loadProjects_spec W _ _ _ _ _ _ H1) as (Hev1 & _).
    destruct (priceProjects_spec W _ _ _ _ _ _ _ H2) as (Hev2 & _).
    split; intros; match goal with H : _ ∈ _ |- _ => kill_in H end.
  - destruct (loadProjects_spec W _ _ _ _ _ _ H1) as (Hev1 & _).
    pose proof (loadProjects_outputs _ _ _ _ _ _ H1) as Hout1.
    destruct (priceProjects_spec W _ _ _ _ _ _ _ H2) as (Hev2 & _ & _ & Hok2 & _ & _).
    destruct (Hok2 ps' eq_refl) as (_ & _ & ->).
    destruct (writeOutputs_more _ _ _ _ _ _ _ H3) as (_ & Hw & Hs & _).
    rewrite Hout1 in Hw, Hs.
    split.
    + intros path data e Hin. apply (Hw path data e).
      rewrite !elem_of_app in Hin.
      destruct Hin as [Hin|[Hin|[Hin|[Hin|Hin]]]]; [kill_in Hin .. | exact Hin].
    + intros s Hin. apply (Hs s).
      rewrite !elem_of_app in Hin.
      destruct Hin as [Hin|[Hin|[Hin|[Hin|Hin]]]]; [kill_in Hin .. | exact Hin].
Qed.

(** An error of a renderer, or of the file write, ends the run wrapped:
    the returned error carries the text of the failure after
    "Error generating output: " (or "Error saving output: "), and the
    failure itself is its cause, two [Unwrap]s down. *)
Theorem runMain_output_error fuel st tr st' res :
  runMain W fuel st = (tr, st', res) →
  (∀ k f err, EvRender k f (Some err) ∈ tr →
     ∃ r, res = Returned (Some r)
          ∧ Error (hp st') r = "Error generating output: " +:+ Error (hp st) err
          ∧ typeOf (hp st') r = withStack
          ∧ unwrap_n (hp st') 2 (Some r) = Some err)
  ∧ (∀ path data err, EvWriteFile path data (Some err) ∈ tr →
     ∃ r, res = Returned (Some r)
          ∧ Error (hp st') r = "Error saving output: " +:+ Error (hp st) err
          ∧ typeOf (hp st') r = withStack
          ∧ unwrap_n (hp st') 2 (Some r) = Some err).
Proof.
  intros Hrun. apply runMain_shape in Hrun.
  destruct Hrun as [t1 st1 e0 H1 | t1 st1 ps t2 st2 o H1 H2
                    | t1 st1 ps t2 st2 ps' t3 st3 r3 H1 H2 H3].
  - destruct (loadProjects_spec W _ _ _ _ _ _ H1) as (Hev1 & _).
    split; intros; match goal with H : _ ∈ _ |- _ => kill_in H end.
  - destruct (loadProjects_spec W _ _ _ _ _ _ H1) as (Hev1 & _).
    destruct (priceProjects_spec W _ _ _ _ _ _ _ H2) as (Hev2 & _).
    split; intros; match goal with H : _ ∈ _ |- _ => kill_in H end.
  - destruct (loadProjects_spec W _ _ _ _ _ _ H1) as (Hev1 & _ & _ & Hok1).
    destruct (Hok1 ps eq_refl) as (_ & _ & _ & Hhp1).
    destruct (priceProjects_spec W _ _ _ _ _ _ _ H2) as (Hev2 & _ & _ & Hok2 & _ & _).
    destruct (Hok2 ps' eq_refl) as (_ & _ & ->).
    destruct (writeOutputs_more _ _ _ _ _ _ _ H3) as (_ & _ & _ & Hr & Hwe).
    rewrite Hhp1 in Hr, Hwe.
    split.
    + intros k f err Hin.
      assert (Hin3 : EvRender k f (Some err) ∈ t3).
      { rewrite !elem_of_app in Hin.
        destruct Hin as [Hin|[Hin|[Hin|[Hin|Hin]]]]; [kill_in Hin .. | exact Hin]. }
      destruct (Wrap_facts _ _ _ _ _ (Hr _ _ _ Hin3)) as (r & -> & Hmsg & Hty & Hun).
      exists r. by repeat split.
    + intros path data err Hin.
      assert (Hin3 : EvWriteFile path data (Some err) ∈ t3).
      { rewrite !elem_of_app in Hin.
        destruct Hin as [Hin|[Hin|[Hin|[Hin|Hin]]]]; [kill_in Hin .. | exact Hin]. }
      destruct (Wrap_facts _ _ _ _ _ (Hwe _ _ _ Hin3)) as (r & -> & Hmsg & Hty & Hun).
      exists r. by repeat split.
Qed.

(** *** The error built for a failed price lookup *)
Lemma New_facts (h : heap) (message : string) :
  ∀ h' r, New h message = (h', r) →
    r = length h
    ∧ Error h' r = message
    ∧ typeOf h' r = fundamental
    ∧ Unwrap h' (Some r) = None
    ∧ ∀ t fuel', (t < length h)%nat → Is fuel' h' (Some r) t = Some false.
Proof.
  unfold New. intros h' r [= <- <-].
  assert (Hl : (h ++ [mkObject fundamental message None []]) !! length h
               = Some (mkObject fundamental message None [])).
  { by rewrite list_lookup_middle. }
  assert (Hu : Unwrap (h ++ [mkObject fundamental message None []])
                 (Some (length h)) = None).
  { unfold Unwrap. cbn. by rewrite Hl. }
  split; [reflexivity|]. unfold Error, typeOf. rewrite Hl.
  split; [reflexivity|]. split; [reflexivity|]. split; [exact Hu|].
  intros t fuel' Ht. cbn [Is]. rewrite (Is_loop_root _ _ _ _ Hu).
  unfold IsMethod. rewrite Hl. cbn.
  rewrite bool_decide_eq_false_2 by lia. reflexivity.
Qed.

(** When [runMain] answers a failed price lookup with a message of its
    own (the root cause is the invalid-key error, or the error is a
    [*prices.PricingAPIError]), the error it returns is a new one made by
    [errors.New]: it wraps nothing, so [errors.Is] finds none of the
    errors that existed before in it, not even [prices.ErrInvalidAPIKey]. *)
Theorem runMain_price_error_is_new fuel n st st' tr res i err root :
  runMain W fuel st = (tr, st', res) →
  EvPopulatePrices i (Some err) ∈ tr →
  unwrap_n (hp st) n (Some err) = Some root →
  Unwrap (hp st) (Some root) = None →
  (n ≤ fuel)%nat →
  bool_decide (root = ErrInvalidAPIKey W)
  || IsMethod (hp st) root (ErrInvalidAPIKey W)
  || bool_decide (typeOf (hp st) err = PricingAPIError) = true →
  ∃ r, res = Returned (Some r)
       ∧ r = length (hp st)
       ∧ typeOf (hp st') r = fundamental
       ∧ Unwrap (hp st') (Some r) = None
       ∧ ∀ t fuel', (t < length (hp st))%nat →
                    Is fuel' (hp st') (Some r) t = Some false.
Proof.
  intros Hrun Hin Hn Hroot Hfuel Hcase. apply runMain_shape in Hrun.
  destruct (run_shape_price_failure _ _ _ _ _ _ _ _ Hrun Hin)
    as ((st1 & Hhp & _ & Hpf) & _ & _).
  rewrite <- Hhp in *.
  rewrite (priceFailure_spec W fuel n err root st1 Hn Hroot Hfuel) in Hpf.
  unfold surfaced in Hpf.
  destruct (bool_decide (root = ErrInvalidAPIKey W)
            || IsMethod (hp st1) root (ErrInvalidAPIKey W)).
  - destruct (New (hp st1) _) as [h' r] eqn:Hnew. injection Hpf as <- <-.
    destruct (New_facts _ _ _ _ Hnew) as (Hr & _ & Hty & Hu & His).
    exists r. by repeat split.
  - cbn [orb] in Hcase. rewrite Hcase in Hpf.
    destruct (New (hp st1) _) as [h' r] eqn:Hnew. injection Hpf as <- <-.
    destruct (New_facts _ _ _ _ Hnew) as (Hr & _ & Hty & Hu & His).
    exists r. by repeat split.
Qed.

(** *** No call is made twice *)
Ltac solve_NoDup :=
  repeat (apply NoDup_cons_2;
          [let H := fresh in intros H; in_list H|]);
  apply NoDup_nil_2.

Ltac solve_calls :=
  let c := fresh "c" in let H := fresh "H" in
  intros c H; in_list H; subst c; simpl; lia.

(** Traces whose calls are from different loops keep their calls apart. *)
Lemma NoDup_calls_app (P Q : call → Prop) (t1 t2 : list event) :
  NoDup (omap call_of t1) → NoDup (omap call_of t2) →
  (∀ c, c ∈ omap call_of t1 → P c) →
  (∀ c, c ∈ omap call_of t2 → Q c) →
  (∀ c, P c → Q c → False) →
  NoDup (omap call_of (t1 ++ t2)).
Proof.
  intros H1 H2 HP HQ Hdisj. rewrite omap_app. apply NoDup_app.
  split; [exact H1|]. split; [|exact H2].
  intros c Hc1 Hc2. exact (Hdisj c (HP c Hc1) (HQ c Hc2)).
Qed.

Lemma loadProject_calls i pc st t st' r :
  loadProject W i pc st = (t, st', r) →
  NoDup (omap call_of t)
  ∧ (∀ c, c ∈ omap call_of t → load_call i c ∧ ¬ load_call (S i) c).
Proof.
  unfold loadProject.
  destruct (Detect W _ pc) as [provider|].
  - destruct (IsLogging W _);
      (destruct (usage_LoadFromFile W (UsageFile pc)) as [u [e1|]];
       [| destruct (LoadResources provider u) as [p0 [e2|]]]);
      intros [= <- <- <-]; cbn; (split; [solve_NoDup|]);
      intros c H; in_list H; subst c; simpl; lia.
  - intros [= <- <- <-]; cbn. split; [solve_NoDup|].
    intros c H; in_list H; subst c; simpl; lia.
Qed.

Lemma load_call_mono lo lo' c : (lo' ≤ lo)%nat → load_call lo c → load_call lo' c.
Proof. destruct c; simpl; try done; lia. Qed.

Lemma loadProjects_calls cfgs : ∀ i st t st' r,
  loadProjects W i cfgs st = (t, st', r) →
  NoDup (omap call_of t) ∧ (∀ c, c ∈ omap call_of t → load_call i c).
Proof.
  induction cfgs as [|pc rest IH]; intros i st t st' r; cbn [loadProjects].
  - intros [= <- <- <-]. cbn. split; [apply NoDup_nil_2|].
    intros c H. by apply elem_of_nil in H.
  - destruct (loadProject W i pc st) as [[t0 st1] [e|p]] eqn:Hbody;
      destruct (loadProject_calls _ _ _ _ _ _ Hbody) as (Hnd0 & Hc0).
    + intros [= <- <- <-]. split; [exact Hnd0|]. intros c Hc. by apply Hc0.
    + destruct (loadProjects W (S i) rest st1) as [[t1 st2] r1] eqn:Hrest.
      destruct (IH _ _ _ _ _ Hrest) as (Hnd1 & Hc1).
      assert (Hboth : NoDup (omap call_of (t0 ++ t1))
                      ∧ ∀ c, c ∈ omap call_of (t0 ++ t1) → load_call i c).
      { split.
        - apply (NoDup_calls_app (λ c, ¬ load_call (S i) c) (load_call (S i)));
            try done. intros c Hc. by apply Hc0.
        - intros c. rewrite omap_app, elem_of_app. intros [Hc|Hc].
          + by apply Hc0.
          + apply (load_call_mono (S i)); [lia | by apply Hc1]. }
      destruct r1; intros [= <- <- <-]; exact Hboth.
Qed.

Lemma price_call_mono lo lo' c : (lo' ≤ lo)%nat → price_call lo c → price_call lo' c.
Proof. destruct c; simpl; try done; lia. Qed.

Lemma out_call_mono lo lo' c : (lo' ≤ lo)%nat → out_call lo c → out_call lo' c.
Proof. destruct c; simpl; try done; lia. Qed.

Lemma priceProject_calls fuel i project st t st' r :
  priceProject W fuel i project st = (t, st', r) →
  NoDup (omap call_of t)
  ∧ (∀ c, c ∈ omap call_of t → price_call i c)
  ∧ (∀ p, r = inr p → ∀ c, c ∈ omap call_of t → ¬ price_call (S i) c)
  ∧ (∀ p, r = inr p → EvSpinnerFail ∉ t)
  ∧ (∀ o, r = inl o → EvSpinnerFail ∈ t).
Proof.
  unfold priceProject.
  destruct (PopulatePrices W (cfg st) project) as [p1 [err|]].
  - destruct (priceFailure W fuel err st) as [s o].
    intros [= <- <- <-]; cbn. split; [solve_NoDup|].
    split; [intros c H; in_list H; subst c; simpl; lia|].
    split; [intros p Hp; discriminate Hp|].
    split; [intros p Hp; discriminate Hp|]. intros _ _. set_solver.
  - intros [= <- <- <-]; cbn. split; [solve_NoDup|].
    split; [intros c H; in_list H; subst c; simpl; lia|].
    split; [intros p _ c H; in_list H; subst c; simpl; lia|].
    split; [intros p _ H; in_list H | intros o Ho; discriminate Ho].
Qed.

Lemma priceProjects_calls fuel ps : ∀ i st t st' r,
  priceProjects W fuel i ps st = (t, st', r) →
  NoDup (omap call_of t)
  ∧ (∀ c, c ∈ omap call_of t → price_call i c)
  ∧ (∀ ps', r = inr ps' → EvSpinnerFail ∉ t)
  ∧ (∀ o, r = inl o → EvSpinnerFail ∈ t).
Proof.
  induction ps as [|project rest IH]; intros i st t st' r; cbn [priceProjects].
  - intros [= <- <- <-]. cbn. split; [apply NoDup_nil_2|].
    split; [intros c H; by apply elem_of_nil in H|].
    split; [intros ps' _; apply not_elem_of_nil | intros o Ho; discriminate Ho].
  - destruct (priceProject W fuel i project st) as [[t0 st1] [o|p]] eqn:Hbody;
      destruct (priceProject_calls _ _ _ _ _ _ _ Hbody)
        as (Hnd0 & Hc0 & Hs0 & Hnf0 & Hf0).
    + intros [= <- <- <-]. split; [exact Hnd0|]. split; [exact Hc0|].
      split; [intros ps' Hps; discriminate Hps | intros o' _; by eapply Hf0].
    + destruct (priceProjects W fuel (S i) rest st1) as [[t1 st2] r1] eqn:Hrest.
      destruct (IH _ _ _ _ _ Hrest) as (Hnd1 & Hc1 & Hnf1 & Hf1).
      assert (Hnd : NoDup (omap call_of (t0 ++ t1))).
      { apply (NoDup_calls_app (λ c, ¬ price_call (S i) c) (price_call (S i)));
          try done. intros c Hc. by eapply Hs0. }
      assert (Hc : ∀ c, c ∈ omap call_of (t0 ++ t1) → price_call i c).
      { intros c. rewrite omap_app, elem_of_app. intros [Hc|Hc].
        - by apply Hc0.
        - apply (price_call_mono (S i)); [lia | by apply Hc1]. }
      destruct r1 as [o|ps1]; intros [= <- <- <-];
        (split; [exact Hnd | split; [exact Hc|]]).
      * split; [intros ps' Hps; discriminate Hps|].
        intros o' _. apply elem_of_app. right. by eapply Hf1.
      * split; [|intros o Ho; discriminate Ho].
        intros ps' _. rewrite not_elem_of_app. split; [by eapply Hnf0 | by eapply Hnf1].
Qed.

Lemma writeOutput_calls r j o st t st' res :
  writeOutput W r j o st = (t, st', res) →
  NoDup (omap call_of t)
  ∧ (∀ c, c ∈ omap call_of t → out_call j c ∧ ¬ out_call (S j) c).
Proof.
  unfold writeOutput.
  destruct (render W r _ (Format o)) as [out [e|]]; cbn [Wrap].
  - intros [= <- <- <-]; cbn. split; [solve_NoDup|].
    intros c H; in_list H; subst c; simpl; lia.
  - destruct (bool_decide (OutputPath o ≠ ""));
      [destruct (WriteFile W (OutputPath o) out) as [e|]; cbn [Wrap]|];
      intros [= <- <- <-]; cbn; (split; [solve_NoDup|]);
      intros c H; in_list H; subst c; simpl; lia.
Qed.

Lemma writeOutputs_calls r outputs : ∀ j st t st' res,
  writeOutputs W r j outputs st = (t, st', res) →
  NoDup (omap call_of t) ∧ (∀ c, c ∈ omap call_of t → out_call j c).
Proof.
  induction outputs as [|o rest IH]; intros j st t st' res; cbn [writeOutputs].
  - intros [= <- <- <-]. cbn. split; [apply NoDup_nil_2|].
    intros c H. by apply elem_of_nil in H.
  - destruct (writeOutput W r j o st) as [[t0 st1] [e|]] eqn:Hbody;
      destruct (writeOutput_calls _ _ _ _ _ _ _ Hbody) as (Hnd0 & Hc0).
    + intros [= <- <- <-]. split; [exact Hnd0|]. intros c Hc. by apply Hc0.
    + destruct (writeOutputs W r (S j) rest st1) as [[t1 st2] res1] eqn:Hrest.
      destruct (IH _ _ _ _ _ Hrest) as (Hnd1 & Hc1).
      intros [= <- <- <-]. split.
      * apply (NoDup_calls_app (λ c, ¬ out_call (S j) c) (out_call (S j)));
          try done. intros c Hc. by apply Hc0.
      * intros c. rewrite omap_app, elem_of_app. intros [Hc|Hc].
        -- by apply Hc0.
        -- apply (out_call_mono (S j)); [lia | by apply Hc1].
Qed.

Lemma load_call_phase lo c : load_call lo c → phase c = 0%nat.
Proof. by destruct c. Qed.

Lemma price_call_phase lo c : price_call lo c → phase c = 2%nat.
Proof. by destruct c. Qed.

Lemma out_call_phase lo c : out_call lo c → phase c = 5%nat.
Proof. by destruct c. Qed.

(** Calls of an earlier part in front of calls of later parts. *)
Lemma NoDup_calls_phase (k : nat) (t1 t2 : list event) :
  NoDup (omap call_of t1) → NoDup (omap call_of t2) →
  (∀ c, c ∈ omap call_of t1 → phase c = k) →
  (∀ c, c ∈ omap call_of t2 → (k < phase c)%nat) →
  NoDup (omap call_of (t1 ++ t2))
  ∧ ∀ c, c ∈ omap call_of (t1 ++ t2) → (k ≤ phase c)%nat.
Proof.
  intros H1 H2 Hp1 Hp2. split.
  - apply (NoDup_calls_app (λ c, phase c = k) (λ c, (k < phase c)%nat)); try done.
    intros c Hc1 Hc2. lia.
  - intros c. rewrite omap_app, elem_of_app. intros [Hc|Hc].
    + rewrite (Hp1 c Hc). lia.
    + specialize (Hp2 c Hc). lia.
Qed.

(** In a run no call is made twice: for a project each of
    [SetTerraformEnvironment], [Detect], [usage.LoadFromFile],
    [LoadResources], [PopulatePrices], [CalculateCosts] and
    [CalculateDiff] at most once, for an output [SetOutputEnvironment]
    and its renderer at most once, and the conversion and each call of
    the spinner at most once. *)
Theorem runMain_no_call_twice fuel st :
  NoDup (omap call_of (trace_of W fuel st)).
Proof.
  unfold trace_of.
  destruct (runMain W fuel st) as [[tr st'] res] eqn:Hrun. cbn [fst].
  apply runMain_shape in Hrun.
  destruct Hrun as [t1 st1 e0 H1 | t1 st1 ps t2 st2 o H1 H2
                    | t1 st1 ps t2 st2 ps' t3 st3 r3 H1 H2 H3].
  - by destruct (loadProjects_calls _ _ _ _ _ _ H1).
  - destruct (loadProjects_calls _ _ _ _ _ _ H1) as (Hnd1 & Hc1).
    destruct (priceProjects_calls _ _ _ _ _ _ _ H2) as (Hnd2 & Hc2 & _).
    destruct (NoDup_calls_phase 1 (spinnerStart W st1) t2) as (HndS & HcS);
      [cbn; solve_NoDup | exact Hnd2
       | intros c H; cbn in H; in_list H; by subst c
       | intros c H; rewrite (price_call_phase _ _ (Hc2 c H)); lia |].
    destruct (NoDup_calls_phase 0 t1 (spinnerStart W st1 ++ t2)) as (Hnd & _);
      [exact Hnd1 | exact HndS
       | intros c H; exact (load_call_phase _ _ (Hc1 c H))
       | intros c H; specialize (HcS c H); lia
       | exact Hnd].
  - destruct (loadProjects_calls _ _ _ _ _ _ H1) as (Hnd1 & Hc1).
    destruct (priceProjects_calls _ _ _ _ _ _ _ H2) as (Hnd2 & Hc2 & _).
    destruct (writeOutputs_calls _ _ _ _ _ _ _ H3) as (Hnd3 & Hc3).
    destruct (NoDup_calls_phase 4 [EvToOutputFormat] t3) as (Hnd4 & Hc4);
      [cbn; solve_NoDup | exact Hnd3
       | intros c H; cbn in H; in_list H; by subst c
       | intros c H; rewrite (out_call_phase _ _ (Hc3 c H)); lia |].
    destruct (NoDup_calls_phase 3 [EvSpinnerSuccess] ([EvToOutputFormat] ++ t3))
      as (Hnd5 & Hc5);
      [cbn; solve_NoDup | exact Hnd4
       | intros c H; cbn in H; in_list H; by subst c
       | intros c H; specialize (Hc4 c H); lia |].
    destruct (NoDup_calls_phase 2 t2 ([EvSpinnerSuccess] ++ [EvToOutputFormat] ++ t3))
      as (Hnd6 & Hc6);
      [exact Hnd2 | exact Hnd5
       | intros c H; exact (price_call_phase _ _ (Hc2 c H))
       | intros c H; specialize (Hc5 c H); lia |].
    destruct (NoDup_calls_phase 1 (spinnerStart W st1)
                (t2 ++ [EvSpinnerSuccess] ++ [EvToOutputFormat] ++ t3))
      as (Hnd7 & Hc7);
      [cbn; solve_NoDup | exact Hnd6
       | intros c H; cbn in H; in_list H; by subst c
       | intros c H; specialize (Hc6 c H); lia |].
    destruct (NoDup_calls_phase 0 t1
                (spinnerStart W st1 ++ t2 ++ [EvSpinnerSuccess]
                 ++ [EvToOutputFormat] ++ t3)) as (Hnd & _);
      [exact Hnd1 | exact Hnd7
       | intros c H; exact (load_call_phase _ _ (Hc1 c H))
       | intros c H; specialize (Hc7 c H); lia
       | exact Hnd].
Qed.

(** The spinner is ended exactly when it was started, and one way only:
    by [Fail] when a price lookup failed, by [Success] when the run went
    on to the output conversion. *)
Theorem runMain_spinner fuel st :
  let tr := trace_of W fuel st in
  ((∃ opts, EvNewSpinner "Calculating cost estimate" opts ∈ tr)
   ↔ EvSpinnerFail ∈ tr ∨ EvSpinnerSuccess ∈ tr)
  ∧ ¬ (EvSpinnerFail ∈ tr ∧ EvSpinnerSuccess ∈ tr)
  ∧ (EvSpinnerFail ∈ tr ↔ ∃ i err, EvPopulatePrices i (Some err) ∈ tr)
  ∧ (EvSpinnerSuccess ∈ tr ↔ EvToOutputFormat ∈ tr).
Proof.
  unfold trace_of.
  destruct (runMain W fuel st) as [[tr st'] res] eqn:Hrun. cbn [fst].
  apply runMain_shape in Hrun.
  destruct Hrun as [t1 st1 e0 H1 | t1 st1 ps t2 st2 o H1 H2
                    | t1 st1 ps t2 st2 ps' t3 st3 r3 H1 H2 H3].
  - destruct (loadProjects_spec W _ _ _ _ _ _ H1) as (Hev1 & _).
    split; [split; [intros (opts & H); kill_in H | intros [H|H]; kill_in H]|].
    split; [intros [H _]; kill_in H|].
    split; [split; [intros H; kill_in H | intros (i & err & H); kill_in H]|].
    split; intros H; kill_in H.
  - destruct (loadProjects_spec W _ _ _ _ _ _ H1) as (Hev1 & _).
    destruct (priceProjects_spec W _ _ _ _ _ _ _ H2) as (Hev2 & _ & _ & _ & _ & Hx).
    destruct (priceProjects_calls _ _ _ _ _ _ _ H2) as (_ & _ & _ & Hf2).
    assert (Hfail : EvSpinnerFail ∈ t1 ++ spinnerStart W st1 ++ t2).
    { rewrite !elem_of_app. right. right. by eapply Hf2. }
    split; [split; [intros _; by left|]|].
    { intros _. eexists. rewrite !elem_of_app. right. left.
      unfold spinnerStart. apply list_elem_of_singleton. reflexivity. }
    split; [intros [_ H]; kill_in H|].
    split; [split; [intros _ | intros _; exact Hfail]|].
    { destruct (Hx o eq_refl) as (k & err & Hk). exists k, err.
      rewrite !elem_of_app. by right; right. }
    split; intros H; kill_in H.
  - destruct (loadProjects_spec W _ _ _ _ _ _ H1) as (Hev1 & _).
    destruct (priceProjects_spec W _ _ _ _ _ _ _ H2) as (Hev2 & _ & _ & Hok2 & _ & _).
    destruct (Hok2 ps' eq_refl) as (Hnf2 & _ & _).
    destruct (priceProjects_calls _ _ _ _ _ _ _ H2) as (_ & _ & Hnf & _).
    specialize (Hnf ps' eq_refl).
    destruct (writeOutputs_spec W _ _ _ _ _ _ _ H3) as (Hev3 & _).
    assert (Hsucc : EvSpinnerSuccess
                    ∈ t1 ++ spinnerStart W st1 ++ t2
                      ++ [EvSpinnerSuccess; EvToOutputFormat] ++ t3).
    { rewrite !elem_of_app, !elem_of_cons. tauto. }
    assert (Htof : EvToOutputFormat
                   ∈ t1 ++ spinnerStart W st1 ++ t2
                     ++ [EvSpinnerSuccess; EvToOutputFormat] ++ t3).
    { rewrite !elem_of_app, !elem_of_cons. tauto. }
    assert (Hnofail : EvSpinnerFail
                      ∉ t1 ++ spinnerStart W st1 ++ t2
                        ++ [EvSpinnerSuccess; EvToOutputFormat] ++ t3).
    { rewrite !elem_of_app. intros [H|[H|[H|[H|H]]]]; try done; kill_in H. }
    split; [split; [intros _; by right|]|].
    { intros _. eexists. rewrite !elem_of_app. right. left.
      unfold spinnerStart. apply list_elem_of_singleton. reflexivity. }
    split; [intros [H _]; done|].
    split; [split; [intros H; done | intros (i & err & H); kill_in H]|].
    by split.
Qed.

End MoreRunMain.

(** *** The same on sample runs *)
Section MoreSamples.
Import samples.

Ltac by_compute := refine (bool_decide_unpack _ _); vm_compute; exact I.

Lemma runMain_load_error_witness :
  let usage f := if bool_decide (f = "usage.yml") then Some 0%nat else None in
  let run := runMain (withLoading fairWorld (λ _, true) usage) 0 usageState in
  run.2 = Returned (Some 0%nat)
  ∧ hp run.1.2 = sampleHeap
  ∧ Forall (load_ev 0 2) run.1.1.
Proof.
  intros usage run.
  destruct (runMain_load_error (withLoading fairWorld (λ _, true) usage) 0
              usageState run.1.1 run.1.2 run.2) as (Herr & _ & Hload).
  - apply triple_eta.
  - destruct (Herr 1%nat 0%nat) as [Hres Hhp]; [left; by_compute|].
    split; [exact Hres|]. split; [exact Hhp|].
    apply Hload. exists 1%nat. right. exists 0%nat. left. by_compute.
Defined.

Lemma runMain_nil_complete_witness :
  let tr := trace_of fairWorld 0 usageState in
  EvPopulatePrices 1 None ∈ tr
  ∧ EvRender 1 "JSON" None ∈ tr
  ∧ Forall (λ ev, failed ev = false) tr.
Proof.
  intros tr.
  destruct (runMain_nil_complete fairWorld 0 usageState tr
              (runMain fairWorld 0 usageState).1.2)
    as (Hall & _ & _ & Hrender & Hok & _).
  - reflexivity.
  - split; [apply (Hall 1%nat); simpl; lia|].
    split; [|exact Hok].
    apply (Hrender 1%nat (mkOutput "JSON" true "out.json")). reflexivity.
Defined.

Lemma runMain_output_error_witness :
  let run := runMain (withOutput fairWorld None (λ _, Some 1%nat)) 0 usageState in
  ∃ r, run.2 = Returned (Some r)
       ∧ Error (hp run.1.2) r
         = "Error saving output: query failed: Invalid API key"
       ∧ unwrap_n (hp run.1.2) 2 (Some r) = Some 1%nat.
Proof.
  intros run.
  destruct (runMain_output_error (withOutput fairWorld None (λ _, Some 1%nat)) 0
              usageState run.1.1 run.1.2 run.2) as (_ & Hwrite).
  - apply triple_eta.
  - destruct (Hwrite "out.json" "{}" 1%nat) as (r & Hres & Hmsg & _ & Hroot).
    + by_compute.
    + exists r. split; [exact Hres|]. split; [exact Hmsg | exact Hroot].
Defined.

Lemma runMain_price_error_is_new_witness :
  let run := runMain (sampleWorld (failsOnB 2%nat)) 2 sampleState in
  ∃ r, run.2 = Returned (Some r)
       ∧ r = 4%nat
       ∧ Is 5 (hp run.1.2) (Some r) 0%nat = Some false.
Proof.
  intros run.
  destruct (runMain_price_error_is_new (sampleWorld (failsOnB 2%nat)) 2 2
              sampleState run.1.2 run.1.1 run.2 1%nat 2%nat 0%nat)
    as (r & Hres & Hr & _ & _ & Hnew).
  - apply triple_eta.
  - by_compute.
  - reflexivity.
  - reflexivity.
  - lia.
  - reflexivity.
  - exists r. split; [exact Hres|]. split; [exact Hr|].
    apply Hnew. simpl. lia.
Defined.

End MoreSamples.

(** *** When [runMain] returns *)
Section RunReturns.
Import samples.
Variable W : World.

Lemma unwrapped_mono (h : heap) (fuel : nat) : ∀ (err x : option error) (fuel' : nat),
  unwrapped fuel h err = Some x → (fuel ≤ fuel')%nat →
  unwrapped fuel' h err = Some x.
Proof.
  induction fuel as [|fuel IH]; intros err x fuel' Hx Hle;
    rewrite unwrapped_eq in Hx; rewrite unwrapped_eq;
    destruct (Unwrap h err) as [e'|]; try done.
  destruct fuel' as [|fuel']; [lia|]. apply (IH _ _ _ Hx). lia.
Qed.

(** The loop of [unwrapped] is still running after [fuel] steps only if
    the chain of causes has more than [fuel] links. *)
Lemma unwrapped_running (h : heap) (fuel : nat) : ∀ e : error,
  unwrapped fuel h (Some e) = None → unwrap_n h (S fuel) (Some e) ≠ None.
Proof.
  induction fuel as [|fuel IH]; intros e; rewrite unwrapped_eq;
    cbn [unwrap_n]; destruct (Unwrap h (Some e)) as [e'|]; try done.
  intros Hrun. exact (IH e' Hrun).
Qed.

Lemma unwrapped_endless (h : heap) (fuel : nat) (e : error) :
  ¬ finite_chain h e → unwrapped fuel h (Some e) = None.
Proof.
  intros Hinf. destruct (unwrapped fuel h (Some e)) as [x|] eqn:Hx; [|reflexivity].
  destruct (unwrapped_sound h fuel e x Hx) as (r & _ & (n & Hn) & Hr).
  destruct Hinf. exists (n + 1)%nat. rewrite unwrap_n_add, Hn. exact Hr.
Qed.

Lemma priceFailure_mono (fuel fuel' : nat) (err : error) (st st' : state)
    (r : option error) :
  priceFailure W fuel err st = (st', Returned r) → (fuel ≤ fuel')%nat →
  priceFailure W fuel' err st = (st', Returned r).
Proof.
  unfold priceFailure. intros Hpf Hle.
  destruct (unwrapped fuel (hp st) (Some err)) as [x|] eqn:Hx; [|discriminate].
  rewrite (unwrapped_mono _ _ _ _ _ Hx Hle).
  destruct (unwrapped_sound _ _ _ _ Hx) as (root & -> & _ & Hroot).
  cbn [Is] in *. rewrite (Is_loop_root fuel' _ _ _ Hroot).
  by rewrite (Is_loop_root fuel _ _ _ Hroot) in Hpf.
Qed.

Lemma priceFailure_running (fuel : nat) (err : error) (st st' : state) :
  priceFailure W fuel err st = (st', OutOfFuel) →
  unwrapped fuel (hp st) (Some err) = None.
Proof.
  unfold priceFailure.
  destruct (unwrapped fuel (hp st) (Some err)) as [x|] eqn:Hx; [|reflexivity].
  destruct (unwrapped_sound _ _ _ _ Hx) as (root & -> & _ & Hroot).
  cbn [Is]. rewrite (Is_loop_root fuel _ _ _ Hroot).
  destruct (bool_decide (root = ErrInvalidAPIKey W) || IsMethod _ _ _).
  - destruct (New _ _). discriminate.
  - destruct (bool_decide _); [destruct (New _ _)|]; discriminate.
Qed.

Lemma priceProjects_mono (fuel fuel' : nat) (ps : list schema.Project) : ∀ i st t st' r,
  priceProjects W fuel i ps st = (t, st', r) → r ≠ inl OutOfFuel →
  (fuel ≤ fuel')%nat → priceProjects W fuel' i ps st = (t, st', r).
Proof.
  induction ps as [|project rest IH]; intros i st t st' r; cbn [priceProjects];
    [done|].
  unfold priceProject.
  destruct (PopulatePrices W (cfg st) project) as [project1 [err|]].
  - destruct (priceFailure W fuel err st) as [st1 [res|]] eqn:Hpf.
    + intros [= <- <- <-] _ Hle. by rewrite (priceFailure_mono _ _ _ _ _ _ Hpf Hle).
    + by intros [= <- <- <-] Hne.
  - destruct (priceProjects W fuel (S i) rest st) as [[t' st2] [o|ps']] eqn:Hrest.
    + intros [= <- <- <-] Hne Hle. by rewrite (IH _ _ _ _ _ Hrest Hne Hle).
    + intros [= <- <- <-] _ Hle. by rewrite (IH _ _ _ _ _ Hrest ltac:(done) Hle).
Qed.

(** [runMain] has one loop that need not end, the one of [unwrapped].  A
    run that has not returned is walking the causes of an error of
    [prices.PopulatePrices], and the chain has more links than the steps
    made so far; if that chain never ends the run never returns; and a
    run that has returned is the same run however many more steps it is
    given. *)
Theorem runMain_returns (fuel : nat) (st : state) :
  let run := runMain W fuel st in
  (run.2 = OutOfFuel →
     ∃ i err, EvPopulatePrices i (Some err) ∈ run.1.1
              ∧ unwrap_n (hp st) (S fuel) (Some err) ≠ None)
  ∧ (∀ i err, EvPopulatePrices i (Some err) ∈ run.1.1 →
              ¬ finite_chain (hp st) err → run.2 = OutOfFuel)
  ∧ (run.2 ≠ OutOfFuel →
     ∀ fuel', (fuel ≤ fuel')%nat → runMain W fuel' st = run).
Proof.
  intros run. split; [|split].
  - intros Hout.
    pose proof (runMain_shape W fuel st run.1.1 run.1.2 run.2 (triple_eta run))
      as Hshape.
    rewrite Hout in Hshape. clear Hout.
    inversion Hshape as [| t1 st1 ps t2 st2 o H1 H2 Htr Hst |]; subst.
    destruct (loadProjects_spec _ _ _ _ _ _ _ H1) as (_ & _ & _ & Hok1).
    destruct (Hok1 ps eq_refl) as (_ & _ & _ & Hhp1).
    destruct (priceProjects_spec _ _ _ _ _ _ _ _ H2) as (_ & _ & _ & _ & Hf & Hx).
    destruct (Hx OutOfFuel eq_refl) as (k & err & Hin).
    destruct (Hf k err Hin) as ((o' & Hpf & [= <-]) & _).
    exists k, err. split.
    + rewrite !elem_of_app. by right; right.
    + rewrite <- Hhp1. by apply unwrapped_running, (priceFailure_running _ _ _ _ Hpf).
  - intros i err Hin Hinf.
    pose proof (runMain_shape W fuel st run.1.1 run.1.2 run.2 (triple_eta run))
      as Hshape.
    destruct (run_shape_price_failure _ _ _ _ _ _ _ _ Hshape Hin)
      as ((st1 & Hhp & _ & Hpf) & _).
    unfold priceFailure in Hpf.
    rewrite Hhp, (unwrapped_endless _ fuel _ Hinf) in Hpf. by injection Hpf.
  - intros Hret fuel' Hle. subst run. unfold runMain in *.
    destruct (loadProjects W 0 _ st) as [[t1 st1] [e|ps]]; [reflexivity|].
    destruct (priceProjects W fuel 0 ps st1) as [[t2 st2] r] eqn:H2.
    rewrite (priceProjects_mono fuel fuel' ps 0 st1 t2 st2 r H2); [reflexivity| |exact Hle].
    intros ->. by apply Hret.
Qed.

End RunReturns.


Section UnwrappedReturns.
Import samples.

(** [unwrapped] returns exactly on the errors whose chain of causes ends:
    on an endless (cyclic) chain its loop runs for ever, and what it has
    returned it returns with every larger number of steps. *)
Theorem unwrapped_returns_iff (h : heap) (err : error) :
  ((∃ fuel x, unwrapped fuel h (Some err) = Some x) ↔ finite_chain h err)
  ∧ (∀ fuel fuel' x, unwrapped fuel h (Some err) = Some x → (fuel ≤ fuel')%nat →
                     unwrapped fuel' h (Some err) = Some x).
Proof.
  split; [split|].
  - intros (fuel & x & Hx).
    destruct (unwrapped_sound h fuel err x Hx) as (r & _ & (n & Hn) & Hr).
    exists (n + 1)%nat. rewrite unwrap_n_add, Hn. exact Hr.
  - intros [n Hn]. destruct (unwrapped_complete h n err Hn) as (r & _ & Hrun).
    exists n, (Some r). by apply Hrun.
  - intros fuel fuel' x Hx Hle. exact (unwrapped_mono h fuel _ _ _ Hx Hle).
Qed.

End UnwrappedReturns.

Section RunReturnsSamples.
Import samples.

Ltac by_compute := refine (bool_decide_unpack _ _); vm_compute; exact I.

Lemma selfCause_endless : ¬ finite_chain selfCause 0%nat.
Proof.
  intros [n Hn]. destruct (unwrapped_complete selfCause n 0%nat Hn) as (r & _ & Hrun).
  specialize (Hrun n (le_n n)). by rewrite unwrapped_cycle_diverges in Hrun.
Qed.

Lemma runMain_returns_witness :
  runMain (sampleWorld (failsOnB 2%nat)) 7 sampleState
  = runMain (sampleWorld (failsOnB 2%nat)) 2 sampleState
  ∧ (runMain (sampleWorld (failsOnB 0%nat)) 7 (mkState sampleConfig selfCause)).2
    = OutOfFuel.
Proof.
  split.
  - destruct (runMain_returns (sampleWorld (failsOnB 2%nat)) 2 sampleState)
      as (_ & _ & Hmore).
    apply Hmore; [discriminate | lia].
  - destruct (runMain_returns (sampleWorld (failsOnB 0%nat)) 7
                (mkState sampleConfig selfCause)) as (_ & Hhang & _).
    apply (Hhang 1%nat 0%nat); [by_compute | exact selfCause_endless].
Defined.

Lemma unwrapped_returns_iff_witness :
  unwrapped 9 chain3 (Some 2%nat) = Some (Some 0%nat).
Proof.
  destruct (unwrapped_returns_iff chain3 2%nat) as [_ Hmore].
  apply (Hmore 2%nat); [reflexivity | lia].
Defined.

End RunReturnsSamples.

(** ** The Cost Calculator: the hourly rule *)
Section Calculator.
Import decimal schema calculator samples.

Lemma ten_nonzero : ¬ (10 == 0)%Q.
Proof. intros H. discriminate H. Qed.

(** Decimal multiplication is exact: it denotes the product. *)
Lemma toQ_Mul (a b : Decimal) : (toQ (Mul a b) == toQ a * toQ b)%Q.
Proof.
  unfold toQ, Mul. cbn [value exp].
  rewrite inject_Z_mult, (Qpower_plus _ _ _ ten_nonzero). ring.
Qed.

Lemma toQ_HOURS_PER_MONTH : (toQ HOURS_PER_MONTH == 730)%Q.
Proof. reflexivity. Qed.

Lemma Equal_refl (d : Decimal) : Equal d d = true.
Proof. unfold Equal. by apply bool_decide_eq_true_2. Qed.

(** C8. For a cost component with [HourlyQuantity] [q] set (and, as the
    data model requires, [MonthlyQuantity] not set), price [p] and unit
    multiplier [m], the calculator produces the hourly cost [p * m * q] and
    the monthly cost [p * m * q * 730]: the decimals it computes denote
    exactly these rational numbers, the hourly cost times 730 is the
    monthly cost, and HOURS_PER_MONTH is the constant 730. *)
Theorem hourly_cost_exact (c : CostComponent) (p q : Decimal) :
  price c = Resolved p →
  HourlyQuantity c = Some q →
  MonthlyQuantity c = None →
  ∃ c' h m,
    CalculateComponent c = inr c'
    ∧ HourlyCost c' = CostOf h
    ∧ MonthlyCost c' = CostOf m
    ∧ h = Mul (Mul p (UnitMultiplier c)) q
    ∧ m = Mul h HOURS_PER_MONTH
    ∧ (toQ h == toQ p * toQ (UnitMultiplier c) * toQ q)%Q
    ∧ (toQ m == toQ p * toQ (UnitMultiplier c) * toQ q * 730)%Q
    ∧ (toQ h * 730 == toQ m)%Q
    ∧ Equal (Mul h (NewFromInt 730)) m = true
    ∧ HOURS_PER_MONTH = NewFromInt 730.
Proof.
  intros Hp Hq Hm. unfold CalculateComponent. rewrite Hq, Hm, Hp.
  eexists _, _, _. split; [reflexivity|]. cbn [HourlyCost MonthlyCost withCosts].
  split; [reflexivity|]. split; [reflexivity|]. split; [reflexivity|].
  split; [reflexivity|].
  assert (Hh : (toQ (Mul (Mul p (UnitMultiplier c)) q)
                == toQ p * toQ (UnitMultiplier c) * toQ q)%Q).
  { by rewrite !toQ_Mul. }
  split; [exact Hh|].
  split; [rewrite toQ_Mul; rewrite Hh; rewrite toQ_HOURS_PER_MONTH; reflexivity|].
  split; [rewrite (toQ_Mul _ HOURS_PER_MONTH); rewrite toQ_HOURS_PER_MONTH;
          reflexivity|].
  split; [apply Equal_refl | reflexivity].
Qed.

Lemma hourly_cost_exact_witness :
  ∃ c', CalculateComponent pricedIP = inr c'
        ∧ HourlyCost c' = CostOf (mk 5 (-3))
        ∧ MonthlyCost c' = CostOf (mk 3650 (-3)).
Proof.
  destruct (hourly_cost_exact pricedIP (mk 5 (-3)) (NewFromInt 1))
    as (c' & h & m & Hc & Hh & Hm & -> & -> & _); [reflexivity ..|].
  exists c'. split; [exact Hc|]. split; [exact Hh | exact Hm].
Defined.

(** The two engine components at work, one after the other: three idle
    Elastic IPs at 0.005 per hour cost 10.95 per month. *)
Example threeIPs_monthly :
  match Calculate (prices.resolved (prices.Resolve steady sampleParams threeIPs)) with
  | inr p => ProjectMonthlyCost p = mk 10950 (-3)
  | inl _ => False
  end.
Proof. vm_compute. reflexivity. Qed.

End Calculator.

(** ** The Price Resolver: equal filters, one price, one batch *)
Section Resolver.
Import decimal schema prices samples.





































Example flaky_is_retried :
  sends (idleKey "us-east-1") (calls (Resolve flaky sampleParams threeIPs)) = 2%nat
  ∧ queries flaky (idleKey "us-east-1")
      (calls (Resolve flaky sampleParams threeIPs)) = 1%nat.
Proof. split; vm_compute; reflexivity. Qed.

(** *** Retryable failures stay inside the resolver *)


End Resolver.

(** ** [runMain] over the resolver *)
Section Absorbed.
Import schema prices samples.
Variable W : World.
Variable P : Params.
Variable cat : Config → Project → Catalog.
Hypothesis no_refusal : ∀ c p n b, cat c p n b ≠ InvalidCredentialResponse.
Hypothesis resolver :
  ∀ c p, main.PopulatePrices W c p
         = prices.PopulatePrices (ErrInvalidAPIKey W) (cat c p) P p.






End Absorbed.

Section AbsorbedSample.
Import schema prices samples.

Ltac by_compute := refine (bool_decide_unpack _ _); vm_compute; exact I.


End AbsorbedSample.

End Traces.

(** * Further properties of the code *)

(** ** [unwrapped], [errors.Is] and [errors.Wrap] together *)
Section RootCause.
Import errors main samples.

(** [unwrapped] of what [unwrapped] returned is the same error again; in
    particular [unwrapped(nil)] is [nil]. *)
Theorem unwrapped_idempotent (h : heap) (fuel : nat) (err x : option error) :
  unwrapped fuel h err = Some x → ∀ fuel', unwrapped fuel' h x = Some x.
Proof.
  intros Hx fuel'. destruct err as [e|].
  - destruct (unwrapped_sound h fuel e x Hx) as (r & -> & _ & Hr).
    by rewrite unwrapped_eq, Hr.
  - rewrite unwrapped_eq in Hx. cbn in Hx. injection Hx as <-.
    by rewrite unwrapped_eq.
Qed.

Lemma unwrapped_idempotent_witness :
  unwrapped 0 chain3 (Some 0%nat) = Some (Some 0%nat).
Proof. apply (unwrapped_idempotent chain3 2 (Some 2%nat)). reflexivity. Defined.

Lemma Unwrap_app (h ext : heap) (e : error) :
  (e < length h)%nat → Unwrap (h ++ ext) (Some e) = Unwrap h (Some e).
Proof. intros He. unfold Unwrap. cbn. by rewrite lookup_app_l. Qed.

Lemma Unwrap_closed (h : heap) (e e' : error) :
  closed h → Unwrap h (Some e) = Some e' → (e' < length h)%nat.
Proof.
  intros Hc. unfold Unwrap. cbn. destruct (h !! e) as [o|] eqn:Ho; [|discriminate].
  cbn. intros Hcause. exact (Hc e o e' Ho Hcause).
Qed.

(** Allocation does not disturb the chains that are there. *)
Lemma unwrap_n_app (h ext : heap) (n : nat) : ∀ e,
  closed h → (e < length h)%nat →
  unwrap_n (h ++ ext) n (Some e) = unwrap_n h n (Some e).
Proof.
  induction n as [|n IH]; intros e Hc He; cbn [unwrap_n]; [reflexivity|].
  rewrite (Unwrap_app h ext e He).
  destruct (Unwrap h (Some e)) as [e'|] eqn:Hu.
  - apply IH; [exact Hc | by eapply Unwrap_closed].
  - by rewrite !unwrap_n_nil.
Qed.

Lemma unwrap_n_closed (h : heap) (n : nat) : ∀ e r,
  closed h → (e < length h)%nat → unwrap_n h n (Some e) = Some r →
  (r < length h)%nat.
Proof.
  induction n as [|n IH]; intros e r Hc He; cbn [unwrap_n].
  - by intros [= <-].
  - destruct (Unwrap h (Some e)) as [e'|] eqn:Hu.
    + apply IH; [exact Hc | by eapply Unwrap_closed].
    + by rewrite unwrap_n_nil.
Qed.

(** Wrapping keeps the root cause: [unwrapped(errors.Wrap(err, message))]
    is [unwrapped(err)], two steps further down. *)
Theorem unwrapped_Wrap (h : heap) (e root : error) (n fuel : nat) (message : string) :
  closed h → (e < length h)%nat →
  unwrap_n h n (Some e) = Some root →
  Unwrap h (Some root) = None →
  (n + 2 ≤ fuel)%nat →
  unwrapped fuel (Wrap h (Some e) message).1 (Wrap h (Some e) message).2
  = Some (Some root)
  ∧ unwrapped fuel h (Some e) = Some (Some root).
Proof.
  intros Hc He Hn Hroot Hfuel. split.
  - cbn [Wrap fst snd].
    set (ext := [mkObject withMessage (message +:+ ": " +:+ Error h e) (Some e) [];
                 mkObject withStack (message +:+ ": " +:+ Error h e)
                   (Some (length h)) []]).
    apply (unwrapped_exact (h ++ ext) (2 + n)); [| |lia].
    + cbn [Nat.add unwrap_n].
      assert (H1 : Unwrap (h ++ ext) (Some (S (length h))) = Some (length h)).
      { unfold Unwrap. cbn. rewrite lookup_app_r by lia.
        by replace (S (length h) - length h)%nat with 1%nat by lia. }
      assert (H2 : Unwrap (h ++ ext) (Some (length h)) = Some e).
      { unfold Unwrap. cbn. rewrite lookup_app_r by lia.
        by rewrite Nat.sub_diag. }
      rewrite H1, H2, (unwrap_n_app h ext n e Hc He). exact Hn.
    + rewrite Unwrap_app; [exact Hroot|]. by eapply unwrap_n_closed.
  - apply (unwrapped_exact h n); [exact Hn | exact Hroot | lia].
Qed.

Lemma chain3_closed : closed chain3.
Proof.
  intros i o e Hi Hcause. unfold chain3 in *.
  destruct i as [|[|[|i]]]; cbn in Hi; try discriminate Hi;
    injection Hi as <-; cbn in Hcause; try discriminate Hcause;
    injection Hcause as <-; cbn; lia.
Qed.

Lemma unwrapped_Wrap_witness :
  unwrapped 4 (Wrap chain3 (Some 2%nat) "Error generating output").1
              (Wrap chain3 (Some 2%nat) "Error generating output").2
  = Some (Some 0%nat)
  ∧ unwrapped 4 chain3 (Some 2%nat) = Some (Some 0%nat).
Proof.
  apply (unwrapped_Wrap chain3 2%nat 0%nat 2 4 "Error generating output").
  - exact chain3_closed.
  - cbn. lia.
  - reflexivity.
  - reflexivity.
  - lia.
Defined.

(** The test of [runMain], [errors.Is] on the root cause, is the stricter
    one: when it holds, [errors.Is] holds on the error itself. *)
Theorem root_Is_implies_Is (h : heap) (target : error) (n : nat) :
  ∀ (err root : error) (fuel : nat),
    unwrap_n h n (Some err) = Some root →
    Unwrap h (Some root) = None →
    Is fuel h (Some root) target = Some true →
    (n ≤ fuel)%nat →
    Is fuel h (Some err) target = Some true.
Proof.
  cbn [Is]. induction n as [|n IH]; intros err root fuel Hn Hroot His Hfuel;
    cbn [unwrap_n] in Hn.
  - by injection Hn as ->.
  - destruct (Unwrap h (Some err)) as [e'|] eqn:Hu;
      [|by rewrite unwrap_n_nil in Hn].
    destruct fuel as [|fuel]; [lia|]. cbn [Is_loop]. rewrite Hu.
    destruct (bool_decide (err = target)); [reflexivity|].
    destruct (IsMethod h err target); [reflexivity|].
    apply (IH e' root fuel Hn Hroot); [|lia].
    rewrite (Is_loop_root _ _ _ _ Hroot) in His.
    by rewrite (Is_loop_root _ _ _ _ Hroot).
Qed.

Lemma root_Is_implies_Is_witness :
  Is 2 chain3 (Some 2%nat) 0%nat = Some true.
Proof.
  apply (root_Is_implies_Is chain3 0%nat 2 2%nat 0%nat 2); [reflexivity ..|lia].
Defined.

(** For a target that wraps nothing, on a heap whose objects have no [Is]
    method accepting it, the test of [runMain] and [errors.Is] on the
    error itself decide alike: both say whether the root cause is the
    target. *)
Theorem root_check_is_Is (h : heap) (target : error) (n : nat) :
  ∀ (err root : error) (fuel : nat),
    Unwrap h (Some target) = None →
    (∀ i o, h !! i = Some o → target ∉ accepts o) →
    unwrap_n h n (Some err) = Some root →
    Unwrap h (Some root) = None →
    (n ≤ fuel)%nat →
    Is fuel h (Some err) target = Some (bool_decide (root = target))
    ∧ Is fuel h (Some root) target = Some (bool_decide (root = target)).
Proof.
  intros err root fuel Htarget Hno.
  assert (Hm : ∀ e, IsMethod h e target = false).
  { intros e. unfold IsMethod. destruct (h !! e) as [o|] eqn:Ho; [|reflexivity].
    apply bool_decide_eq_false_2. by eapply Hno. }
  revert err fuel. cbn [Is].
  induction n as [|n IH]; intros err fuel Hn Hroot Hfuel; cbn [unwrap_n] in Hn.
  - injection Hn as ->. rewrite (Is_loop_root _ _ _ _ Hroot), Hm, orb_false_r.
    by split.
  - destruct (Unwrap h (Some err)) as [e'|] eqn:Hu;
      [|by rewrite unwrap_n_nil in Hn].
    destruct fuel as [|fuel]; [lia|].
    destruct (IH e' fuel Hn Hroot) as [He' _]; [lia|].
    split.
    + cbn [Is_loop]. rewrite Hu, Hm.
      rewrite bool_decide_eq_false_2; [exact He'|].
      intros ->. rewrite Htarget in Hu. discriminate Hu.
    + by rewrite (Is_loop_root _ _ _ _ Hroot), Hm, orb_false_r.
Qed.

Lemma root_check_is_Is_witness :
  Is 2 chain3 (Some 2%nat) 0%nat = Some (bool_decide (0%nat = 0%nat))
  ∧ Is 2 chain3 (Some 0%nat) 0%nat = Some (bool_decide (0%nat = 0%nat)).
Proof.
  apply (root_check_is_Is chain3 0%nat 2 2%nat 0%nat 2); try reflexivity.
  intros i o Hi. unfold chain3 in Hi.
  destruct i as [|[|[|i]]]; cbn in Hi; try discriminate Hi;
    injection Hi as <-; cbn; apply not_elem_of_nil.
Defined.

End RootCause.

(** ** [checkRunConfig] and the renderer choice of [runMain] *)
Section RunConfig.
Import errors config strings_ main samples.

Lemma checkOutputs_cases (outputs : list Output) :
  (checkOutputs outputs = [skippedWarning] ∧ ∃ o, o ∈ outputs ∧ (Format o = "json" ∧ ShowSkipped o = true))
  ∨ (checkOutputs outputs = [] ∧ ∀ o, o ∈ outputs → ¬ (Format o = "json" ∧ ShowSkipped o = true)).
Proof.
  induction outputs as [|o rest IH]; cbn [checkOutputs].
  - right. split; [reflexivity|]. intros o Ho. by apply elem_of_nil in Ho.
  - destruct (bool_decide (Format o = "json")) eqn:Hf;
      destruct (ShowSkipped o) eqn:Hs; cbn [andb].
    1: { left. split; [reflexivity|]. exists o. split; [left|].
         split; [by apply bool_decide_eq_true in Hf | exact Hs]. }
    all: destruct IH as [(-> & o' & Ho' & Hn) | (-> & Hnone)];
      [ left; split; [reflexivity|]; exists o'; split; [by right | exact Hn]
      | right; split; [reflexivity|]; intros o' Ho' [Hf' Hs'];
        apply elem_of_cons in Ho' as [-> | Ho'];
        [ first [ apply bool_decide_eq_false in Hf; by apply Hf
                | by rewrite Hs in Hs' ]
        | by apply (Hnone o' Ho') ] ].
Qed.

(** [checkRunConfig] never returns an error; it prints the warning at most
    once, however many outputs call for it, and it prints it exactly when
    some output has the format "json", so spelled, and asks to show the
    skipped resources. *)
Theorem checkRunConfig_warns (c : Config) :
  (checkRunConfig c).2 = None
  ∧ (length (checkRunConfig c).1 ≤ 1)%nat
  ∧ ((checkRunConfig c).1 = [skippedWarning]
     ↔ ∃ o, o ∈ Outputs c ∧ Format o = "json" ∧ ShowSkipped o = true)
  ∧ ((checkRunConfig c).1 = []
     ↔ ∀ o, o ∈ Outputs c → Format o = "json" → ShowSkipped o = false).
Proof.
  unfold checkRunConfig. cbn [fst snd].
  split; [reflexivity|].
  destruct (checkOutputs_cases (Outputs c)) as [(-> & o & Ho & Hn) | (-> & Hnone)].
  - split; [simpl; lia|]. split.
    + split; [intros _; exists o; by destruct Hn | reflexivity].
    + split; [discriminate|]. intros Hall. destruct Hn as [Hf Hs].
      specialize (Hall o Ho Hf). by rewrite Hs in Hall.
  - split; [simpl; lia|]. split.
    + split; [discriminate|]. intros (o & Ho & Hf & Hs).
      destruct (Hnone o Ho). by split.
    + split; [|reflexivity]. intros _ o Ho Hf.
      destruct (ShowSkipped o) eqn:Hs; [|reflexivity].
      destruct (Hnone o Ho). by split.
Qed.

Lemma lower_ascii_idem (c : ascii) : lower_ascii (lower_ascii c) = lower_ascii c.
Proof. destruct c as [[] [] [] [] [] [] [] []]; vm_compute; reflexivity. Qed.

Lemma ToLower_idem (s : string) : ToLower (ToLower s) = ToLower s.
Proof.
  induction s as [|c s IH]; cbn [ToLower]; [reflexivity|].
  by rewrite lower_ascii_idem, IH.
Qed.

(** [runMain] picks the renderer by the format in lower case, so a format
    and its lower-case spelling are rendered alike; two formats that differ
    in case only are, too. *)
Lemma render_ToLower (W : World) (r : Root W) (opts : Options) (f : string) :
  render W r opts (ToLower f) = render W r opts f.
Proof. unfold render. by rewrite ToLower_idem. Qed.

(** [checkRunConfig] compares the format as it is spelled, [runMain] in
    lower case: an output whose format is "json" in another spelling, such
    as "JSON", is rendered by the JSON renderer like "json" itself, and
    with show-skipped set it is not warned about. *)
Theorem checkRunConfig_spelling (W : World) (r : Root W) (opts : Options)
    (c : Config) :
  (∀ o, o ∈ Outputs c → ToLower (Format o) = "json" ∧ Format o ≠ "json") →
  (checkRunConfig c).1 = []
  ∧ ∀ o, o ∈ Outputs c → render W r opts (Format o) = ToJSON W r opts
                          ∧ render W r opts (Format o) = render W r opts "json".
Proof.
  intros Hall. split.
  - unfold checkRunConfig. cbn [fst].
    destruct (checkOutputs_cases (Outputs c)) as [(_ & o & Ho & Hf & _) | (-> & _)];
      [|reflexivity].
    by destruct (Hall o Ho).
  - intros o Ho. destruct (Hall o Ho) as [Hlow _].
    assert (Hj : render W r opts (Format o) = ToJSON W r opts).
    { unfold render. rewrite Hlow. cbn. by destruct (ToJSON W r opts). }
    split; [exact Hj|]. rewrite <- render_ToLower, Hlow in Hj.
    rewrite <- render_ToLower, Hlow. reflexivity.
Qed.

Lemma checkRunConfig_spelling_witness :
  let c := withOutputs sampleConfig [mkOutput "JSON" true "out.json"] in
  (checkRunConfig c).1 = []
  ∧ render fairWorld [] (mkOptions true false) "JSON" = ("{}", None).
Proof.
  intros c.
  destruct (checkRunConfig_spelling fairWorld [] (mkOptions true false) c)
    as [Hwarn Hrender].
  - intros o Ho. apply list_elem_of_singleton in Ho as ->.
    split; [reflexivity | discriminate].
  - split; [exact Hwarn|].
    destruct (Hrender (mkOutput "JSON" true "out.json")) as [Hj _];
      [by apply list_elem_of_singleton | exact Hj].
Defined.

End RunConfig.

(** ** [loadRunFlags] and the flags *)
Section RunFlags.
Import errors config main samples.
Variable W : World.

Ltac in_names := apply list_elem_of_In; cbn; tauto.
Ltac not_in_names H := apply list_elem_of_In in H; cbn in H; intuition discriminate.

Lemma loadRunFlags_agree (c : Config) (cmd cmd' : gmap string flag) :
  (∀ name, name ∈ [ "config-file"; "path"; "terraform-plan-flags"; "usage-file";
                    "format"; "show-skipped"; "terraform-use-state" ] →
           cmd !! name = cmd' !! name) →
  loadRunFlags W c cmd = loadRunFlags W c cmd'.
Proof.
  intros H. unfold loadRunFlags, Changed, GetString, GetBool.
  rewrite (H "config-file") by in_names.
  rewrite (H "path") by in_names.
  rewrite (H "terraform-plan-flags") by in_names.
  rewrite (H "usage-file") by in_names.
  rewrite (H "format") by in_names.
  rewrite (H "show-skipped") by in_names.
  rewrite (H "terraform-use-state") by in_names.
  reflexivity.
Qed.

(** [loadRunFlags] looks at seven flags and at nothing else of the
    command: two commands that agree on these give the same result.  No
    flag that [addDeprecatedRunFlags] declares is among the seven: setting
    or changing a deprecated flag changes nothing of what [loadRunFlags]
    does. *)
Theorem loadRunFlags_reads (c : Config) (cmd : gmap string flag) :
  (∀ cmd', (∀ name, name ∈ [ "config-file"; "path"; "terraform-plan-flags";
                             "usage-file"; "format"; "show-skipped";
                             "terraform-use-state" ] →
                    cmd !! name = cmd' !! name) →
           loadRunFlags W c cmd = loadRunFlags W c cmd')
  ∧ (∀ d f, d ∈ addDeprecatedRunFlags →
            loadRunFlags W c (<[ flagName d := f ]> cmd) = loadRunFlags W c cmd).
Proof.
  split; [intros cmd'; apply loadRunFlags_agree|].
  intros d f Hd. apply loadRunFlags_agree. intros name Hname.
  apply lookup_insert_ne. intros <-.
  unfold addDeprecatedRunFlags in Hd.
  repeat (apply elem_of_cons in Hd as [-> | Hd]; [not_in_names Hname|]).
  by apply elem_of_nil in Hd.
Qed.

(** With none of the six flags changed, [loadRunFlags] returns nil and
    leaves the configuration as it was; it loads neither a config file nor
    the environment. *)
Theorem loadRunFlags_untouched (c : Config) (cmd : gmap string flag) :
  (∀ name, name ∈ [ "config-file"; "path"; "terraform-plan-flags"; "usage-file";
                    "format"; "show-skipped" ] →
           Changed cmd name = false) →
  loadRunFlags W c cmd = FlagsReturned c None.
Proof.
  intros H. unfold loadRunFlags.
  rewrite (H "config-file") by in_names.
  rewrite (H "path") by in_names.
  rewrite (H "terraform-plan-flags") by in_names.
  rewrite (H "usage-file") by in_names.
  rewrite (H "format") by in_names.
  rewrite (H "show-skipped") by in_names.
  reflexivity.
Qed.

(** An error [loadRunFlags] returns is the error of [cfg.LoadFromFile] on
    the file that --config-file names, or the error of [cfg.LoadFromEnv];
    it makes none of its own.  With --config-file alone, the result is the
    one of [cfg.LoadFromFile], and the environment is not loaded. *)
Theorem loadRunFlags_errors (c : Config) (cmd : gmap string flag) :
  (∀ c' err, loadRunFlags W c cmd = FlagsReturned c' (Some err) →
     (Changed cmd "config-file" = true
      ∧ cfg_LoadFromFile W c (GetString cmd "config-file") = (c', Some err))
     ∨ (∃ c3, cfg_LoadFromEnv W c3 = (c', Some err)
              ∧ (Changed cmd "path" || Changed cmd "terraform-plan-flags"
                 || Changed cmd "usage-file" || Changed cmd "format"
                 || Changed cmd "show-skipped" = true)))
  ∧ (Changed cmd "config-file" = true →
     Changed cmd "path" || Changed cmd "terraform-plan-flags"
     || Changed cmd "usage-file" || Changed cmd "format"
     || Changed cmd "show-skipped" = false →
     loadRunFlags W c cmd
     = FlagsReturned (cfg_LoadFromFile W c (GetString cmd "config-file")).1
                     (cfg_LoadFromFile W c (GetString cmd "config-file")).2).
Proof.
  unfold loadRunFlags. split.
  - intros c' err.
    destruct (Changed cmd "config-file") eqn:Hcf;
      destruct (Changed cmd "path" || Changed cmd "terraform-plan-flags"
                || Changed cmd "usage-file") eqn:Hpf;
      cbn [andb]; [discriminate| | |].
    + destruct (cfg_LoadFromFile W c (GetString cmd "config-file"))
        as [c1 [e1|]] eqn:Hload.
      * intros [= <- <-]. by left.
      * cbn [orb]. destruct (Changed cmd "format" || Changed cmd "show-skipped")
          eqn:Hof; [|discriminate].
        match goal with
        | |- context [cfg_LoadFromEnv W ?c3] =>
            destruct (cfg_LoadFromEnv W c3) as [c4 [e4|]] eqn:Henv;
            [|discriminate]; intros [= <- <-]; right; exists c3
        end.
        split; [exact Henv|].
        destruct (Changed cmd "path"), (Changed cmd "terraform-plan-flags"),
          (Changed cmd "usage-file"), (Changed cmd "format"),
          (Changed cmd "show-skipped"); done.
    + cbn [orb].
      match goal with
      | |- context [cfg_LoadFromEnv W ?c3] =>
          destruct (cfg_LoadFromEnv W c3) as [c4 [e4|]] eqn:Henv;
          [|discriminate]; intros [= <- <-]; right; exists c3
      end.
      split; [exact Henv|]. destruct (Changed cmd "path"), (Changed cmd "terraform-plan-flags"),
          (Changed cmd "usage-file"), (Changed cmd "format"),
          (Changed cmd "show-skipped"); done.
    + cbn [orb]. destruct (Changed cmd "format" || Changed cmd "show-skipped")
        eqn:Hof; [|discriminate].
      match goal with
      | |- context [cfg_LoadFromEnv W ?c3] =>
          destruct (cfg_LoadFromEnv W c3) as [c4 [e4|]] eqn:Henv;
          [|discriminate]; intros [= <- <-]; right; exists c3
      end.
      split; [exact Henv|].
      destruct (Changed cmd "path"), (Changed cmd "terraform-plan-flags"),
          (Changed cmd "usage-file"), (Changed cmd "format"),
          (Changed cmd "show-skipped"); done.
  - intros -> Hnone.
    rewrite <- !orb_assoc in Hnone.
    apply orb_false_iff in Hnone as [-> Hnone].
    apply orb_false_iff in Hnone as [-> Hnone].
    apply orb_false_iff in Hnone as [-> Hnone].
    apply orb_false_iff in Hnone as [-> ->]. cbn [andb orb].
    by destruct (cfg_LoadFromFile W c (GetString cmd "config-file"))
      as [c1 [e1|]].
Qed.

End RunFlags.

Section RunFlagsSamples.
Import errors config main samples.

Ltac in_names := apply list_elem_of_In; cbn; tauto.
Ltac not_in_names H := apply list_elem_of_In in H; cbn in H; intuition discriminate.

Lemma loadRunFlags_reads_witness :
  loadRunFlags fairWorld sampleConfig configFileFlags
  = loadRunFlags fairWorld sampleConfig
      (<[ "no-color" := mkFlag (BoolFlag true) true ]> configFileFlags)
  ∧ loadRunFlags fairWorld sampleConfig
      (<[ "tfdir" := mkFlag (StringFlag "infra") true ]> configFileFlags)
    = loadRunFlags fairWorld sampleConfig configFileFlags.
Proof.
  destruct (loadRunFlags_reads fairWorld sampleConfig configFileFlags)
    as [Hsame Hdep].
  split.
  - apply Hsame. intros name Hname. symmetry. apply lookup_insert_ne.
    intros <-. not_in_names Hname.
  - apply (Hdep (mkFlagDecl "tfdir" ""
             "Path to the Terraform code directory. Defaults to current working directory")).
    in_names.
Defined.

Lemma loadRunFlags_untouched_witness :
  loadRunFlags fairWorld sampleConfig
    {[ "no-color" := mkFlag (BoolFlag true) true ]}
  = FlagsReturned sampleConfig None.
Proof.
  apply (loadRunFlags_untouched fairWorld sampleConfig).
  intros name Hname. unfold Changed. rewrite lookup_singleton_ne; [reflexivity|].
  intros <-. not_in_names Hname.
Defined.

End RunFlagsSamples.

(** ** [EIP.BuildResource]: what the resource depends on *)
Section MoreEIP.
Import decimal schema aws.

(** The resource is named by the address and has no sub-resources; it is
    skipped exactly when it has no price, and that exactly when it has no
    cost component; a cost component is priced by hour, never by month,
    and is looked up with both filters. *)
Theorem BuildResource_consistent (r : EIP) :
  ResName (BuildResource r) = Address r
  ∧ SubResources (BuildResource r) = []
  ∧ IsSkipped (BuildResource r) = NoPrice (BuildResource r)
  ∧ (CostComponents (BuildResource r) = [] ↔ NoPrice (BuildResource r) = true)
  ∧ (NoPrice (BuildResource r) = true
     ↔ CustomerOwnedIPv4Pool r ≠ "" ∨ Instance_ r ≠ "" ∨ NetworkInterface r ≠ "")
  ∧ ∀ c, c ∈ CostComponents (BuildResource r) →
         HourlyQuantity c ≠ None ∧ MonthlyQuantity c = None
         ∧ ProductFilter_ c ≠ None ∧ PriceFilter_ c ≠ None.
Proof.
  unfold BuildResource.
  destruct (nonempty (CustomerOwnedIPv4Pool r)) eqn:Hp;
    destruct (nonempty (Instance_ r)) eqn:Hi;
    destruct (nonempty (NetworkInterface r)) eqn:Hn; cbn;
    rewrite ?nonempty_true, ?nonempty_false in *;
    (split; [reflexivity|]); (split; [reflexivity|]); (split; [reflexivity|]);
    (split; [split; done|]);
    (split; [split; [try done; tauto | try done; intros [H|[H|H]]; done]|]);
    intros c Hc.
  1-7: by apply elem_of_nil in Hc.
  apply list_elem_of_singleton in Hc as ->. cbn. done.
Qed.

(** The cost component of an unattached address depends on the region
    alone: two unattached addresses are priced by the same component
    exactly when they are in the same region, whatever their addresses. *)
Theorem BuildResource_by_region (r1 r2 : EIP) :
  CustomerOwnedIPv4Pool r1 = "" → Instance_ r1 = "" → NetworkInterface r1 = "" →
  CustomerOwnedIPv4Pool r2 = "" → Instance_ r2 = "" → NetworkInterface r2 = "" →
  (CostComponents (BuildResource r1) = CostComponents (BuildResource r2)
   ↔ Region r1 = Region r2).
Proof.
  intros Hp1 Hi1 Hn1 Hp2 Hi2 Hn2. unfold BuildResource.
  rewrite Hp1, Hi1, Hn1, Hp2, Hi2, Hn2. cbn. split.
  - intros H. by injection H.
  - by intros ->.
Qed.

Lemma BuildResource_by_region_witness :
  CostComponents (BuildResource (mkEIP "eip-1" "us-east-1" "" "" ""))
  = CostComponents (BuildResource (mkEIP "eip-9" "us-east-1" "" "" ""))
  ∧ CostComponents (BuildResource (mkEIP "eip-1" "us-east-1" "" "" ""))
    ≠ CostComponents (BuildResource (mkEIP "eip-1" "eu-west-1" "" "" "")).
Proof.
  split.
  - apply (BuildResource_by_region (mkEIP "eip-1" "us-east-1" "" "" "")
             (mkEIP "eip-9" "us-east-1" "" "" "")); reflexivity.
  - intros H.
    apply (BuildResource_by_region (mkEIP "eip-1" "us-east-1" "" "" "")
             (mkEIP "eip-1" "eu-west-1" "" "" "")) in H; try reflexivity.
    discriminate H.
Defined.

End MoreEIP.
